(** * Shallow embedding of [einx/expr/stage3.py]

    The concrete expression tree of einx (Axis, List, Concatenation,
    Composition, Marker), its checking constructors, the generic rewrite
    engine [_expr_map] with the operations built on it, and the resolver
    [solve] that maps a symbolic (stage2) tree to a concrete one. *)

From Stdlib Require Import ZArith List String Ascii Bool Lia RelationClasses.
From Stdlib Require Import SpecFloat.
Import ListNotations.
Open Scope Z_scope.
#[local] Set Warnings "-register-all".

(** ** Python exceptions and results *)

Inductive solve_message : Type :=
| SolverFailed (msg : string)
    (** [str(e)] of a [solver.SolveException] *)
| NoUniqueSolutionFor (name : string)
    (** "Found no unique solution for '<name>'" *)
| NoUniqueSolutions (names : list string)
    (** "Found no unique solutions for {<names>}" *)
| NonPositiveAxis (axis : string) (value : Z).
    (** "Axis '<axis>' has value <value> <= 0" *)

Inductive exn : Type :=
| ValueError
| TypeError
| AttributeError
| AssertionError
| RecursionError
| SolveValueException (m : solve_message).

Inductive res (A : Type) : Type :=
| Ok (a : A)
| Err (e : exn).
Arguments Ok {A} a.
Arguments Err {A} e.

Definition bind {A B} (m : res A) (k : A -> res B) : res B :=
  match m with Ok a => k a | Err e => Err e end.

Notation "'let*' x := m 'in' k" := (bind m (fun x => k))
  (at level 200, x name, m at level 100, k at level 200).

(** [l = [g(x) for x in xs]], evaluated left to right. *)
Fixpoint mapM {A B} (g : A -> res B) (xs : list A) : res (list B) :=
  match xs with
  | [] => Ok []
  | x :: xs' => let* y := g x in let* ys := mapM g xs' in Ok (y :: ys)
  end.

(** [[c for x in xs for c in g(x)]] *)
Fixpoint concat_mapM {A B} (g : A -> res (list B)) (xs : list A) : res (list B) :=
  match xs with
  | [] => Ok []
  | x :: xs' => let* y := g x in let* ys := concat_mapM g xs' in Ok (y ++ ys)
  end.

(** ** numpy integer widths *)

(** Reduction of a mathematical integer into the signed [w]-bit range, as
    numpy's fixed-width arithmetic and [astype] do. *)
Definition wrap (w : Z) (z : Z) : Z :=
  (z + 2 ^ (w - 1)) mod 2 ^ w - 2 ^ (w - 1).

Definition wrap64 := wrap 64.
Definition wrap32 := wrap 32.

Definition sum_Z (l : list Z) : Z := fold_right Z.add 0 l.
Definition prod_Z (l : list Z) : Z := fold_right Z.mul 1 l.

(** *** Arrays built from Python ints

    [np.prod(l)] and [np.sum(l)] first turn the Python list [l] into an
    array. numpy gives each [int] the dtype [long] (int64) when it fits,
    else [unsigned long long] (uint64) when it fits, else [object], and
    promotes these: int64 with uint64 gives float64, anything with object
    gives object. The empty array is float64. *)
Inductive dtype : Type := Int64 | UInt64 | Float64 | Object.

Definition int_dtype (z : Z) : dtype :=
  if (- 2 ^ 63 <=? z) && (z <? 2 ^ 63) then Int64
  else if (0 <=? z) && (z <? 2 ^ 64) then UInt64
  else Object.

Definition promote (a b : dtype) : dtype :=
  match a, b with
  | Object, _ | _, Object => Object
  | Float64, _ | _, Float64 => Float64
  | Int64, Int64 => Int64
  | UInt64, UInt64 => UInt64
  | _, _ => Float64
  end.

Definition array_dtype (l : list Z) : dtype :=
  match l with
  | [] => Float64
  | z :: l' => fold_left (fun d x => promote d (int_dtype x)) l' (int_dtype z)
  end.

(** An object array: [np.prod] and [np.sum] return a Python [int], which
    has no [astype], so the call raises [AttributeError]. *)
Definition np_object_dtype (l : list Z) : bool :=
  match array_dtype l with Object => true | _ => false end.

(** *** float64 arithmetic *)

(** binary64: 53 bits of precision, infinities at exponent 1024. *)
Definition f64_of_Z (z : Z) : spec_float := binary_normalize 53 1024 z 0 false.
Definition f64_add : spec_float -> spec_float -> spec_float := SFadd 53 1024.
Definition f64_mul : spec_float -> spec_float -> spec_float := SFmul 53 1024.

(** Truncation toward zero of a finite float; [None] for infinities and NaN. *)
Definition f64_trunc (f : spec_float) : option Z :=
  match f with
  | S754_zero _ => Some 0
  | S754_finite s m e =>
      let a := if 0 <=? e then Z.pos m * 2 ^ e else Z.pos m / 2 ^ (- e) in
      Some (if s then - a else a)
  | _ => None
  end.

(** The C cast of a double to a signed [w]-bit integer that numpy's
    [astype] performs, as x86-64 executes it: the truncated value when it
    is representable, the "integer indefinite" [-2^(w-1)] otherwise. *)
Definition f64_to_int (w : Z) (f : spec_float) : Z :=
  match f64_trunc f with
  | Some z => if (- 2 ^ (w - 1) <=? z) && (z <? 2 ^ (w - 1)) then z else - 2 ^ (w - 1)
  | None => - 2 ^ (w - 1)
  end.

(** [np.multiply.reduce] on a float64 array: the identity [1.0], then the
    elements multiplied in one left-to-right loop. *)
Definition f64_prod (l : list Z) : spec_float :=
  fold_left (fun acc z => f64_mul acc (f64_of_Z z)) l (f64_of_Z 1).

(** numpy's [pairwise_sum] on float64: below 8 elements a loop from [-0.0];
    up to 128 elements eight interleaved accumulators combined as
    [((r0+r1)+(r2+r3))+((r4+r5)+(r6+r7))], then the remaining elements;
    beyond that the two halves (the first rounded down to a multiple of 8)
    summed separately. [fuel] is the length of the array. *)
Definition f64_sum_loop (a : list spec_float) (init : spec_float) : spec_float :=
  fold_left f64_add a init.

Definition pairwise_block (a : list spec_float) : spec_float :=
  let n := List.length a in
  let k := Nat.div n 8 in
  let r j := f64_sum_loop (map (fun i => nth (j + 8 * i)%nat a S754_nan) (seq 1 (k - 1)%nat))
                          (nth j a S754_nan) in
  let res := f64_add (f64_add (f64_add (r 0%nat) (r 1%nat)) (f64_add (r 2%nat) (r 3%nat)))
                     (f64_add (f64_add (r 4%nat) (r 5%nat)) (f64_add (r 6%nat) (r 7%nat))) in
  f64_sum_loop (skipn (8 * k)%nat a) res.

Fixpoint pairwise_sum_aux (fuel : nat) (a : list spec_float) : spec_float :=
  let n := List.length a in
  if Nat.ltb n 8 then f64_sum_loop a (S754_zero true)
  else if Nat.leb n 128 then pairwise_block a
  else match fuel with
       | O => S754_nan
       | S fuel' =>
           let n2 := (Nat.div n 2 - Nat.modulo (Nat.div n 2) 8)%nat in
           f64_add (pairwise_sum_aux fuel' (firstn n2 a)) (pairwise_sum_aux fuel' (skipn n2 a))
       end.

Definition pairwise_sum (a : list spec_float) : spec_float :=
  pairwise_sum_aux (List.length a) a.

(** [np.add.reduce] on a float64 array: the identity [0.0] plus the
    pairwise sum of all elements. *)
Definition f64_sum (l : list Z) : spec_float :=
  f64_add (S754_zero false) (pairwise_sum (map f64_of_Z l)).

(** *** [np.prod(l).astype(int)] and [np.sum(l).astype("int32")] *)

(** The value for an int64, uint64 or float64 array: integer products wrap
    at 64 bits (a uint64 result cast to int64 keeps its low 64 bits); a
    float64 product is rounded, then cast. An object array never reaches
    the cast ([np_object_dtype]). *)
Definition np_prod_astype_int (l : list Z) : Z :=
  match array_dtype l with
  | Float64 => f64_to_int 64 (f64_prod l)
  | _ => wrap64 (prod_Z l)
  end.

(** The same for [np.sum(l).astype("int32")]: an integer sum wraps at 64
    bits, then its low 32 bits are kept. *)
Definition np_sum_astype_int32 (l : list Z) : Z :=
  match array_dtype l with
  | Float64 => f64_to_int 32 (f64_sum l)
  | _ => wrap32 (wrap64 (sum_Z l))
  end.

(** [int(x)] of the elements of [np.asarray(l)]: exact for an integer or
    object array, the rounded float otherwise (a Python int below [2^64]
    always rounds to a finite float). *)
Definition np_asarray_ints (l : list Z) : list Z :=
  match array_dtype l with
  | Float64 => map (fun z => match f64_trunc (f64_of_Z z) with Some k => k | None => z end) l
  | _ => l
  end.

(** ** Stage 3 expressions *)

Inductive expr : Type :=
| Composition (value : Z) (inner : expr)
| List (value : Z) (children : list expr)
| Axis (name : string) (value : Z)
| Concatenation (value : Z) (children : list expr)
| Marker (value : Z) (inner : expr).

Definition value (e : expr) : Z :=
  match e with
  | Composition v _ | List v _ | Axis _ v | Concatenation v _ | Marker v _ => v
  end.

(** [__len__] *)
Fixpoint len (e : expr) : nat :=
  match e with
  | Composition _ _ => 1
  | List _ cs => fold_right (fun c n => (len c + n)%nat) 0%nat cs
  | Axis _ _ => 1
  | Concatenation _ _ => 1
  | Marker _ i => len i
  end.

Definition is_List (e : expr) : bool :=
  match e with List _ _ => true | _ => false end.
Definition is_Marker (e : expr) : bool :=
  match e with Marker _ _ => true | _ => false end.
Definition is_Composition (e : expr) : bool :=
  match e with Composition _ _ => true | _ => false end.
Definition is_Concatenation (e : expr) : bool :=
  match e with Concatenation _ _ => true | _ => false end.
Definition is_Axis (e : expr) : bool :=
  match e with Axis _ _ => true | _ => false end.

(** [Axis.__init__] names an unnamed axis ["unnamed.<id(self)>"]. *)
Definition unnamed_prefix : string := "unnamed.".

Definition axis_name (name : option string) (self_id : string) : string :=
  match name with Some n => n | None => unnamed_prefix ++ self_id end.

Definition mkAxis (name : option string) (self_id : string) (v : Z) : expr :=
  Axis (axis_name name self_id) v.

(** [Axis.is_unnamed]: [self.name.startswith("unnamed.")] *)
Definition is_unnamed_name (n : string) : bool := String.prefix unnamed_prefix n.

(** [Composition.__init__] *)
Definition mkComposition (inner : expr) : expr := Composition (value inner) inner.

(** [List.__init__]: the value is computed first (raising
    [AttributeError] for an object array), then each child is checked in
    turn. *)
Definition mkList (children : list expr) : res expr :=
  if np_object_dtype (map value children) then Err AttributeError else
  let v := np_prod_astype_int (map value children) in
  if existsb is_List children then Err ValueError else Ok (List v children).

(** [Concatenation.__init__] *)
Definition mkConcatenation (children : list expr) : res expr :=
  match children with
  | [] => Err ValueError
  | _ =>
      if np_object_dtype (map value children) then Err AttributeError else
      let v := np_sum_astype_int32 (map value children) in
      if existsb (fun c => negb (Nat.eqb (len c) 1)) children then Err ValueError
      else Ok (Concatenation v children)
  end.

(** [Marker.__init__] *)
Definition mkMarker (inner : expr) : res expr :=
  if Nat.eqb (len inner) 0 then Err ValueError else Ok (Marker (value inner) inner).

(** [List.maybe] *)
Definition List_maybe (l : list expr) : res expr :=
  match l with [x] => Ok x | _ => mkList l end.

(** [Concatenation.maybe] *)
Definition Concatenation_maybe (l : list expr) : res expr :=
  match l with [x] => Ok x | _ => mkConcatenation l end.

(** [__deepcopy__] *)
Fixpoint deepcopy (e : expr) : res expr :=
  match e with
  | Composition _ i => let* i' := deepcopy i in Ok (mkComposition i')
  | List _ cs => let* cs' := mapM deepcopy cs in mkList cs'
  | Axis n v => Ok (Axis n v)
  | Concatenation _ cs => let* cs' := mapM deepcopy cs in mkConcatenation cs'
  | Marker _ i => let* i' := deepcopy i in mkMarker i'
  end.

(** ** Equality and hashing *)

Definition Axis_eqb (n1 : string) (v1 : Z) (n2 : string) (v2 : Z) : bool :=
  if negb (Bool.eqb (is_unnamed_name n1) (is_unnamed_name n2)) then false
  else if negb (Z.eqb v1 v2) then false
  else if is_unnamed_name n1 then true
  else String.eqb n1 n2.

(** [__eq__] of every node kind; children lists are compared as Python
    lists (same length, elementwise [==]). *)
Fixpoint expr_eqb (a b : expr) : bool :=
  let fix list_eqb (xs ys : list expr) : bool :=
    match xs, ys with
    | [], [] => true
    | x :: xs', y :: ys' => expr_eqb x y && list_eqb xs' ys'
    | _, _ => false
    end in
  match a, b with
  | Composition _ i, Composition _ j => expr_eqb i j
  | List _ cs, List _ ds => list_eqb cs ds
  | Axis n1 v1, Axis n2 v2 => Axis_eqb n1 v1 n2 v2
  | Concatenation _ cs, Concatenation _ ds => list_eqb cs ds
  | Marker _ i, Marker _ j => expr_eqb i j
  | _, _ => false
  end.

(** Python's [hash] of an [int]: reduction modulo the Mersenne prime
    [2^61 - 1], keeping the sign, with [-1] mapped to [-2]. *)
Definition py_modulus : Z := 2 ^ 61 - 1.
Definition py_hash_int (z : Z) : Z :=
  let h := if z <? 0 then - ((- z) mod py_modulus) else z mod py_modulus in
  if h =? -1 then -2 else h.

Section AxisHash.
(** [hash] of a [str] (salted per process). *)
Variable hash_str : string -> Z.

(** [Axis.__hash__] *)
Definition Axis_hash (name : string) (v : Z) : Z :=
  9817234 + (if negb (is_unnamed_name name) then hash_str name else 0) + py_hash_int v.
End AxisHash.

(** ** The rewrite engine [expr_map] / [_expr_map] *)

(** [expr_map.CONTINUE], [COPY_AND_STOP], [REPLACE_AND_STOP],
    [REPLACE_AND_CONTINUE] *)
Inductive signal : Type :=
| CONTINUE
| COPY_AND_STOP
| REPLACE_AND_STOP
| REPLACE_AND_CONTINUE.

(** A node together with its parent chain ([expr.parent],
    [expr.parent.parent], ...): the visitors read [parent]. A tree handed
    to an operation is a root (its [parent] is [None]) whose parent
    pointers are those set by its constructors. *)
Definition located : Type := (list expr * expr)%type.

(** What a user visitor returns besides the signal: [None], a Python list
    of expressions, or one expression. *)
Inductive returned : Type :=
| RetNone
| RetList (xs : list located)
| RetExpr (x : located).

Definition visitor : Type := list expr -> expr -> res (option (returned * signal)).

(** [f2] in [expr_map.outer]: a returned [List] is spliced as its
    children (whose parent is that [List]). *)
Definition wrap_visitor (f : visitor) (anc : list expr) (e : expr)
    : res (option (list located) * signal) :=
  let* t := f anc e in
  match t with
  | None => Ok (None, CONTINUE)
  | Some (RetNone, s) => Ok (None, s)
  | Some (RetList xs, s) => Ok (Some xs, s)
  | Some (RetExpr (a, List v cs), s) => Ok (Some (map (fun c => (List v cs :: a, c)) cs), s)
  | Some (RetExpr x, s) => Ok (Some [x], s)
  end.

Section Engine.
(** [id(self)] of the unnamed placeholder axis [Axis(None, 1)]. *)
Variable fresh_id : string.

(** [_expr_map]; [fuel] bounds the Python recursion depth, running out
    of it is a [RecursionError]. *)
Fixpoint _expr_map (fuel : nat)
    (f : list expr -> expr -> res (option (list located) * signal))
    (anc : list expr) (e : expr) : res (list expr) :=
  match fuel with
  | O => Err RecursionError
  | S fuel' =>
    let* r := f anc e in
    let (exprs, sig) := r in
    match sig with
    | REPLACE_AND_STOP =>
        match exprs with Some xs => Ok (map snd xs) | None => Err AssertionError end
    | COPY_AND_STOP => let* c := deepcopy e in Ok [c]
    | REPLACE_AND_CONTINUE =>
        match exprs with
        | Some xs => concat_mapM (fun x => _expr_map fuel' f (fst x) (snd x)) xs
        | None => Err TypeError
        end
    | CONTINUE =>
        match e with
        | Axis _ _ => let* c := deepcopy e in Ok [c]
        | Composition _ i =>
            let* xs := _expr_map fuel' f (e :: anc) i in
            let* i' := List_maybe xs in
            Ok [mkComposition i']
        | List _ cs => concat_mapM (_expr_map fuel' f (e :: anc)) cs
        | Concatenation _ cs =>
            let* children :=
              mapM (fun c => let* xs := _expr_map fuel' f (e :: anc) c in List_maybe xs) cs in
            let children :=
              map (fun c => if Nat.ltb 0 (len c) then c else mkAxis None fresh_id 1) children in
            let* c := mkConcatenation children in
            Ok [c]
        | Marker _ i =>
            let* x := _expr_map fuel' f (e :: anc) i in
            match x with
            | [] => Ok []
            | _ => let* l := List_maybe x in let* m := mkMarker l in Ok [m]
            end
        end
    end
  end.

Fixpoint expr_size (e : expr) : nat :=
  match e with
  | Composition _ i | Marker _ i => S (expr_size i)
  | List _ cs | Concatenation _ cs => S (fold_right (fun c n => (expr_size c + n)%nat) 0%nat cs)
  | Axis _ _ => 1%nat
  end.

(** The recursion depth granted to one traversal. *)
Definition fuel_for (e : expr) : nat := (3 * expr_size e + 3)%nat.

(** [expr_map(f)(expr)] on a root [expr]. *)
Definition expr_map (f : visitor) (e : expr) : res expr :=
  let* xs := _expr_map (fuel_for e) (wrap_visitor f) [] e in
  List_maybe xs.

Definition decompose_f : visitor := fun anc e =>
  match e with
  | Composition _ i => Ok (Some (RetExpr (e :: anc, i), REPLACE_AND_CONTINUE))
  | Concatenation _ _ => Ok (Some (RetNone, COPY_AND_STOP))
  | _ => Ok None
  end.
Definition decompose := expr_map decompose_f.

Definition demark_f : visitor := fun anc e =>
  match e with
  | Marker _ i => Ok (Some (RetExpr (e :: anc, i), REPLACE_AND_CONTINUE))
  | _ => Ok None
  end.
Definition demark := expr_map demark_f.

Definition remove_f (pred : list expr -> expr -> bool) : visitor := fun anc e =>
  if pred anc e then Ok (Some (RetList [], REPLACE_AND_STOP)) else Ok None.
Definition remove (e : expr) (pred : list expr -> expr -> bool) := expr_map (remove_f pred) e.

(** [is_concat_child] in [remove_unnamed_trivial_axes], on the parent chain. *)
Fixpoint is_concat_child (anc : list expr) : bool :=
  match anc with
  | [] => false
  | p :: rest => is_Concatenation p || (is_Marker p && is_concat_child rest)
  end.

Definition trivial_pred (anc : list expr) (e : expr) : bool :=
  match e with
  | Axis n v => is_unnamed_name n && Z.eqb v 1 && negb (is_concat_child anc)
  | _ => false
  end.
Definition remove_unnamed_trivial_axes (e : expr) := remove e trivial_pred.

Definition parent_is_Marker (anc : list expr) : bool :=
  match anc with [] => false | p :: _ => is_Marker p end.

Definition mark_f (pred : list expr -> expr -> bool) : visitor := fun anc e =>
  if negb (is_Marker e) && negb (parent_is_Marker anc) && pred anc e then
    let* c := deepcopy e in
    let* m := mkMarker c in
    Ok (Some (RetExpr ([], m), REPLACE_AND_CONTINUE))
  else Ok None.
Definition mark (e : expr) (pred : list expr -> expr -> bool) := expr_map (mark_f pred) e.

(** [any_parent_is(expr, pred, include_self=True)] *)
Definition any_parent_is (anc : list expr) (e : expr) (pred : expr -> bool) : bool :=
  pred e || existsb pred anc.
Definition is_marked (anc : list expr) (e : expr) : bool := any_parent_is anc e is_Marker.

Definition get_unmarked (e : expr) := remove e (fun anc x => negb (is_marked anc x)).
End Engine.

Fixpoint _get_marked (e : expr) : res (list expr) :=
  match e with
  | Axis _ _ => Ok []
  | Marker _ i => let* c := deepcopy i in Ok [c]
  | Concatenation _ cs =>
      let* xs := concat_mapM _get_marked cs in let* c := Concatenation_maybe xs in Ok [c]
  | Composition _ i =>
      let* xs := _get_marked i in let* l := List_maybe xs in Ok [mkComposition l]
  | List _ cs =>
      let* xs := concat_mapM _get_marked cs in let* l := List_maybe xs in Ok [l]
  end.

Definition get_marked (e : expr) : res expr :=
  let* xs := _get_marked e in List_maybe xs.

(** [all()]: pre-order traversal. *)
Fixpoint all (e : expr) : list expr :=
  match e with
  | Composition _ i | Marker _ i => e :: all i
  | List _ cs | Concatenation _ cs => e :: flat_map all cs
  | Axis _ _ => [e]
  end.

(** [get_axes] *)
Definition get_axes (e : expr) : list expr := filter is_Axis (all e).

(** ** Stage 2: the symbolic tree handed to [solve] *)

(** Modelled from the spec: the module [einx.expr.stage2] (not in src/).
    Section 6 of the spec describes it as the concrete tree with axis
    leaves [NamedAxis(name)] and [UnnamedAxis(knownValue)]; each node
    carries its Python identity [id(expr)]. *)
Module Stage2.
Inductive expr : Type :=
| NamedAxis (id : N) (name : string)
| UnnamedAxis (id : N) (value : Z)
| List (id : N) (children : list expr)
| Concatenation (id : N) (children : list expr)
| Marker (id : N) (inner : expr)
| Composition (id : N) (inner : expr).

Definition id (e : expr) : N :=
  match e with
  | NamedAxis i _ | UnnamedAxis i _ | List i _ | Concatenation i _
  | Marker i _ | Composition i _ => i
  end.

(** Modelled from the spec: [all()] of stage2, the pre-order traversal. *)
Fixpoint all (e : expr) : list expr :=
  match e with
  | NamedAxis _ _ | UnnamedAxis _ _ => [e]
  | List _ cs | Concatenation _ cs => e :: flat_map all cs
  | Marker _ i | Composition _ i => e :: all i
  end.

(** Modelled from the spec: iteration of stage2 (the positions of a
    root: Marker is transparent, List splices its children). *)
Fixpoint iter (e : expr) : list expr :=
  match e with
  | List _ cs => flat_map iter cs
  | Marker _ i => iter i
  | _ => [e]
  end.

(** Modelled from the spec: [len] of stage2. *)
Definition len (e : expr) : nat := List.length (iter e).

Definition is_List (e : expr) : bool :=
  match e with List _ _ => true | _ => false end.
End Stage2.

(** ** [solve] *)

(** [solver.Variable]: one per node ([str(id(expr))]) and one per axis
    name. *)
Inductive var : Type :=
| NodeVar (id : N)
| NameVar (name : string).

(** [solver.Variable], [solver.Product], [solver.Sum] and integer literals. *)
Inductive term : Type :=
| TVar (v : var)
| TProduct (vs : list var)
| TSum (vs : list var)
| TInt (z : Z).

Definition equation : Type := (term * term)%type.

Definition node_var (e : Stage2.expr) : term := TVar (NodeVar (Stage2.id e)).

(** Relations between expressions and their children. *)
Definition child_equations (e : Stage2.expr) : list equation :=
  match e with
  | Stage2.List i cs => [(TProduct (map (fun c => NodeVar (Stage2.id c)) cs), TVar (NodeVar i))]
  | Stage2.Concatenation i cs => [(TSum (map (fun c => NodeVar (Stage2.id c)) cs), TVar (NodeVar i))]
  | Stage2.Marker i inner | Stage2.Composition i inner => [(TVar (NodeVar i), node_var inner)]
  | _ => []
  end.

(** Root values; [assert len(value) == len(root)]. *)
Definition root_equations (root : Stage2.expr) (value : option (list Z)) : res (list equation) :=
  match value with
  | None => Ok []
  | Some v =>
      if negb (Nat.eqb (List.length v) (Stage2.len root)) then Err AssertionError
      else Ok (map (fun p => (node_var (fst p), TInt (snd p)))
                 (combine (Stage2.iter root) (np_asarray_ints v)))
  end.

(** Unnamed axes. *)
Definition unnamed_equations (e : Stage2.expr) : list equation :=
  match e with Stage2.UnnamedAxis i v => [(TVar (NodeVar i), TInt v)] | _ => [] end.

(** Multiple occurrences of the same named axis. *)
Definition named_equations (e : Stage2.expr) : list equation :=
  match e with Stage2.NamedAxis i n => [(TVar (NodeVar i), TVar (NameVar n))] | _ => [] end.

Definition all_nodes (roots : list Stage2.expr) : list Stage2.expr := flat_map Stage2.all roots.

(** The equation list of [solve], in the order it is built. *)
Definition equations (roots : list Stage2.expr) (values : list (option (list Z)))
    : res (list equation) :=
  let* eqs_roots := concat_mapM (fun p => root_equations (fst p) (snd p)) (combine roots values) in
  Ok (flat_map child_equations (all_nodes roots) ++ eqs_roots
      ++ flat_map unnamed_equations (all_nodes roots)
      ++ flat_map named_equations (all_nodes roots)).

(** [axis_values = {int(k): int(v) for k, v in axis_values.items() if not
    str(k) in sympy_axis_values}]: the per-name variables are dropped. *)
Definition axis_values (sol : list (var * Z)) : list (N * Z) :=
  flat_map (fun p => match fst p with NodeVar i => [(i, snd p)] | NameVar _ => [] end) sol.

Definition lookup (av : list (N * Z)) (i : N) : option Z :=
  option_map snd (find (fun p => N.eqb (fst p) i) av).

(** A Python [set] of strings, kept in insertion order. *)
Fixpoint set_add (s : list string) (x : string) : list string :=
  match s with
  | [] => [x]
  | y :: s' => if String.eqb x y then s else y :: set_add s' x
  end.

Definition failed_axes (roots : list Stage2.expr) (av : list (N * Z)) : list string :=
  fold_left (fun s e =>
      match e with
      | Stage2.NamedAxis i n => match lookup av i with None => set_add s n | Some _ => s end
      | _ => s
      end) (all_nodes roots) [].

(** Decimal [str] of an [int]. *)
Fixpoint digits (fuel : nat) (n : N) (acc : string) : string :=
  match fuel with
  | O => acc
  | S fuel' =>
      let acc' := String (ascii_of_N (48 + N.modulo n 10)) acc in
      if N.ltb n 10 then acc' else digits fuel' (N.div n 10) acc'
  end.
Definition str_Z (z : Z) : string :=
  let n := Z.to_N (Z.abs z) in
  let s := digits (S (N.to_nat (N.log2 n))) n EmptyString in
  if z <? 0 then "-" ++ s else s.

Section Solve.
(** [id(self)] of the unnamed [Axis] objects created by [map]. *)
Variable fresh_id : string.
(** [solver.solve]: a [SolveException] message or the solution. *)
Variable solver_solve : list equation -> string + list (var * Z).

(** [map] inside [solve]. *)
Fixpoint solve_map (av : list (N * Z)) (e : Stage2.expr) : res expr :=
  match e with
  | Stage2.NamedAxis i n =>
      match lookup av i with
      | None => Err AssertionError
      | Some v => if v <=? 0 then Err (SolveValueException (NonPositiveAxis n v)) else Ok (Axis n v)
      end
  | Stage2.UnnamedAxis i k =>
      match lookup av i with
      | None => Err AssertionError
      | Some v =>
          if v <=? 0 then Err (SolveValueException (NonPositiveAxis (str_Z k) v))
          else Ok (mkAxis None fresh_id v)
      end
  | Stage2.List _ cs => let* cs' := mapM (solve_map av) cs in mkList cs'
  | Stage2.Concatenation _ cs => let* cs' := mapM (solve_map av) cs in mkConcatenation cs'
  | Stage2.Marker _ i => let* i' := solve_map av i in mkMarker i'
  | Stage2.Composition _ i => let* i' := solve_map av i in Ok (mkComposition i')
  end.

(** What [solve] does once the solver has answered. *)
Definition solve_resolved (roots : list Stage2.expr) (av : list (N * Z)) : res (list expr) :=
  match failed_axes roots av with
  | [n] => Err (SolveValueException (NoUniqueSolutionFor n))
  | [] => mapM (solve_map av) roots
  | ns => Err (SolveValueException (NoUniqueSolutions ns))
  end.

Definition solve (roots : list Stage2.expr) (values : list (option (list Z))) : res (list expr) :=
  if negb (Nat.eqb (List.length values) (List.length roots)) then Err ValueError
  else
    let* eqs := equations roots values in
    match solver_solve eqs with
    | inl msg => Err (SolveValueException (SolverFailed msg))
    | inr sol => solve_resolved roots (axis_values sol)
    end.
End Solve.

(** ** Iteration, printing and hashing *)

(** [__iter__]: Composition, Axis and Concatenation yield themselves, a
    List yields the iteration of each child, a Marker that of its inner. *)
Fixpoint iter (e : expr) : list expr :=
  match e with
  | Composition _ _ | Axis _ _ | Concatenation _ _ => [e]
  | List _ cs => flat_map iter cs
  | Marker _ i => iter i
  end.

(** [Expression.shape]: [tuple(x.value for x in self)] *)
Definition shape (e : expr) : list Z := map value (iter e).

(** [__str__] of every node kind; [Axis.__str__] prints the value of an
    unnamed axis and the name of a named one. *)
Fixpoint expr_str (e : expr) : string :=
  match e with
  | Composition _ i => ("(" ++ expr_str i ++ ")")%string
  | List _ cs => String.concat " " (map expr_str cs)
  | Axis n v => if is_unnamed_name n then str_Z v else n
  | Concatenation _ cs => String.concat "+" (map expr_str cs)
  | Marker _ i => ("[" ++ expr_str i ++ "]")%string
  end.

(** The builtin [hash(x)] of an object whose [__hash__] returned the
    [int] [r]: [r] itself when it fits a [Py_ssize_t] (with [-1] turned
    into [-2]), the [int] hash of [r] otherwise. *)
Definition hash_of_dunder (r : Z) : Z :=
  if (- 2 ^ 63 <=? r) && (r <? 2 ^ 63) then (if r =? -1 then -2 else r) else py_hash_int r.

Section ExprHash.
(** [hash] of a [str] (salted per process). *)
Variable hash_str : string -> Z.
(** [hash] of a [tuple], computed from the hashes of its items. *)
Variable hash_tuple : list Z -> Z.

(** [__hash__] of every node kind. *)
Fixpoint expr_hash (e : expr) : Z :=
  match e with
  | Composition _ i => 8716123 + hash_of_dunder (expr_hash i)
  | List _ cs => 6563 + hash_tuple (map (fun c => hash_of_dunder (expr_hash c)) cs)
  | Axis n v => Axis_hash hash_str n v
  | Concatenation _ cs => 123 + hash_tuple (map (fun c => hash_of_dunder (expr_hash c)) cs)
  | Marker _ i => 6433236 + hash_of_dunder (expr_hash i)
  end.
End ExprHash.

(** [replace]: the user function [f] returns [None] or a replacement,
    which is then used with [REPLACE_AND_STOP]. *)
Definition replace_f (f : list expr -> expr -> returned) : visitor := fun anc e =>
  match f anc e with
  | RetNone => Ok None
  | r => Ok (Some (r, REPLACE_AND_STOP))
  end.
Definition replace (fresh_id : string) (e : expr) (f : list expr -> expr -> returned) :=
  expr_map fresh_id (replace_f f) e.

(** [is_flat] *)
Definition is_flat (e : expr) : bool :=
  forallb (fun x => negb (is_Composition x) && negb (is_Concatenation x)) (all e).

(** [isinstance(expr, Axis) and not expr.is_unnamed] *)
Definition is_named_Axis (e : expr) : bool :=
  match e with Axis n _ => negb (is_unnamed_name n) | _ => false end.

(** [get_named_axes] *)
Definition get_named_axes (e : expr) : list expr := filter is_named_Axis (all e).

(** ** Reference definitions *)

(** A tree the constructors can build: every constructor check passes and
    every stored value is the one its constructor computes. *)
Fixpoint wf (e : expr) : bool :=
  match e with
  | Composition v i => Z.eqb v (value i) && wf i
  | List v cs =>
      Z.eqb v (np_prod_astype_int (map value cs)) && forallb (fun c => negb (is_List c)) cs
      && forallb wf cs && negb (np_object_dtype (map value cs))
  | Axis _ _ => true
  | Concatenation v cs =>
      negb (match cs with [] => true | _ => false end)
      && Z.eqb v (np_sum_astype_int32 (map value cs))
      && forallb (fun c => Nat.eqb (len c) 1) cs && forallb wf cs
      && negb (np_object_dtype (map value cs))
  | Marker v i => Z.eqb v (value i) && negb (Nat.eqb (len i) 0) && wf i
  end.

(** The nodes the constructors build once their checks pass. *)
Definition List_pure (cs : list expr) : expr := List (np_prod_astype_int (map value cs)) cs.
Definition Concatenation_pure (cs : list expr) : expr :=
  Concatenation (np_sum_astype_int32 (map value cs)) cs.
Definition Marker_pure (i : expr) : expr := Marker (value i) i.
Definition List_maybe_pure (xs : list expr) : expr :=
  match xs with [x] => x | _ => List_pure xs end.

(** Some Marker has another Marker among its descendants. *)
Fixpoint has_nested_marker (inside : bool) (e : expr) : bool :=
  match e with
  | Axis _ _ => false
  | Composition _ i => has_nested_marker inside i
  | Marker _ i => inside || has_nested_marker true i
  | List _ cs | Concatenation _ cs => existsb (has_nested_marker inside) cs
  end.

(** [mark] as the amended C9 describes it: a visited node that satisfies
    [pred], is not a Marker and whose parent is not a Marker is replaced by
    a fresh Marker around it, and the traversal goes on inside that Marker
    (the node's parent chain is then the fresh Marker alone); every other
    node is rebuilt around its visited children, single-element lists
    collapsing as [List.maybe] does. Only the direct parent is checked. *)
Fixpoint mark_visit (pred : list expr -> expr -> bool) (anc : list expr) (e : expr)
    : list expr :=
  let default (anc' : list expr) : list expr :=
    match e with
    | Axis n v => [Axis n v]
    | Composition _ i => [mkComposition (List_maybe_pure (mark_visit pred (e :: anc') i))]
    | List _ cs => flat_map (mark_visit pred (e :: anc')) cs
    | Concatenation _ cs =>
        [Concatenation_pure (map (fun c => List_maybe_pure (mark_visit pred (e :: anc') c)) cs)]
    | Marker _ i =>
        match mark_visit pred (e :: anc') i with
        | [] => []
        | x => [Marker_pure (List_maybe_pure x)]
        end
    end in
  if negb (is_Marker e) && negb (parent_is_Marker anc) && pred anc e
  then [Marker_pure (List_maybe_pure (default [Marker_pure e]))]
  else default anc.

(** The leaf axes of a tree, each with its parent chain, in order. *)
Fixpoint located_axes (anc : list expr) (e : expr) : list located :=
  match e with
  | Axis _ _ => [(anc, e)]
  | Composition _ i | Marker _ i => located_axes (e :: anc) i
  | List _ cs | Concatenation _ cs => flat_map (located_axes (e :: anc)) cs
  end.

(** What [__eq__] compares of an axis: its name if it is named, its value. *)
Definition axis_key (e : expr) : list (option string * Z) :=
  match e with
  | Axis n v => [(if is_unnamed_name n then None else Some n, v)]
  | _ => []
  end.

Definition axis_keys (e : expr) : list (option string * Z) := flat_map axis_key (get_axes e).

Definition unnamed_trivial (e : expr) : bool :=
  match e with Axis n v => is_unnamed_name n && Z.eqb v 1 | _ => false end.

(** The parent chain reaches a Concatenation through Markers and
    single-child Lists only. *)
Fixpoint reaches_concatenation (anc : list expr) : bool :=
  match anc with
  | Concatenation _ _ :: _ => true
  | Marker _ _ :: rest => reaches_concatenation rest
  | List _ [_] :: rest => reaches_concatenation rest
  | _ => false
  end.

(** The leaf axes left by [remove_unnamed_trivial_axes] as the amended C8
    describes them. *)
Definition kept_by_trivial_removal (t : expr) : list (option string * Z) :=
  flat_map (fun p => axis_key (snd p))
    (filter (fun p => negb (unnamed_trivial (snd p)) || reaches_concatenation (fst p))
       (located_axes [] t)).

(** The leaf axes C8 says survive: an unnamed axis of value 1 is kept only
    as a direct child of a Concatenation or one reached through Markers. *)
Definition kept_by_claim (t : expr) : list (option string * Z) :=
  flat_map (fun p => axis_key (snd p))
    (filter (fun p => negb (unnamed_trivial (snd p)) || is_concat_child (fst p))
       (located_axes [] t)).






(** The axes [get_marked] is meant to collect: those inside a Marker. *)
Fixpoint marked_axes (e : expr) : list expr :=
  match e with
  | Axis _ _ => []
  | Marker _ i => get_axes i
  | Composition _ i => marked_axes i
  | List _ cs | Concatenation _ cs => flat_map marked_axes cs
  end.

(** No List node has exactly one child. *)
Definition no_single_list (e : expr) : bool :=
  forallb (fun x => match x with List _ [_] => false | _ => true end) (all e).

(** Every Composition lies inside a Concatenation. *)
Fixpoint compositions_in_concatenations (e : expr) : bool :=
  match e with
  | Composition _ _ => false
  | Concatenation _ _ | Axis _ _ => true
  | List _ cs => forallb compositions_in_concatenations cs
  | Marker _ i => compositions_in_concatenations i
  end.

(** The axis a [replace] function puts in place of the located axis [p]. *)
Definition replaced_axis (f : list expr -> expr -> returned) (p : located) : expr :=
  match f (fst p) (snd p) with RetExpr x => snd x | _ => snd p end.

(** The nodes [_get_marked] descends into: those not inside a Marker
    (a Marker itself included). *)
Fixpoint unmarked_nodes (e : expr) : list expr :=
  match e with
  | Axis _ _ | Marker _ _ => [e]
  | Composition _ i => e :: unmarked_nodes i
  | List _ cs | Concatenation _ cs => e :: flat_map unmarked_nodes cs
  end.

(** A result that, when it fails, fails with an exception satisfying [P]. *)
Definition fails_only {A} (P : exn -> Prop) (r : res A) : Prop := forall x, r = Err x -> P x.

(** A result that, when it fails, fails with a [ValueError]. *)
Definition only_ValueError {A} (r : res A) : Prop := fails_only (fun x => x = ValueError) r.

(** The exceptions the constructors raise: [ValueError] from their checks,
    [AttributeError] from numpy's object arrays. *)
Definition ctor_error (x : exn) : Prop := x = ValueError \/ x = AttributeError.

(** The roots [demark] leaves of a tree: every Marker replaced by its
    content, a List spliced into its parent. *)
Fixpoint strip (e : expr) : list expr :=
  match e with
  | Axis n v => [Axis n v]
  | Composition _ i => [mkComposition (List_maybe_pure (strip i))]
  | List _ cs => flat_map strip cs
  | Concatenation _ cs => [Concatenation_pure (map (fun c => List_maybe_pure (strip c)) cs)]
  | Marker _ i => strip i
  end.

(** No List outside a Concatenation has exactly one child. *)
Fixpoint no_single_list_outside (e : expr) : bool :=
  match e with
  | Axis _ _ | Concatenation _ _ => true
  | Composition _ i | Marker _ i => no_single_list_outside i
  | List _ cs => negb (Nat.eqb (List.length cs) 1) && forallb no_single_list_outside cs
  end.

(** ** Proof-support definitions *)

(** A Python int that numpy stores in an int64 or uint64 array. *)
Definition int_fits (z : Z) : bool := (- 2 ^ 63 <=? z) && (z <? 2 ^ 64).

(** numpy multiplies and sums the list as integers (int64 or uint64). *)
Definition np_int_arith (l : list Z) : bool :=
  match array_dtype l with Int64 | UInt64 => true | _ => false end.

(** Every node of the list has a value numpy stores as an integer. *)
Definition fits_all (xs : list expr) : Prop := Forall (fun x => int_fits (value x) = true) xs.

(** Every [List] node of the tree multiplies its children as numpy integers. *)
Fixpoint int_products (e : expr) : bool :=
  match e with
  | List _ cs => np_int_arith (map value cs) && forallb int_products cs
  | Concatenation _ cs => forallb int_products cs
  | Composition _ i | Marker _ i => int_products i
  | Axis _ _ => true
  end.

(** What a traversal returns for the node [e]: nodes whose values fit or
    equal that of [e], and either at most one node or only fitting ones. *)
Definition range_inv (e : expr) (rs : list expr) : Prop :=
  Forall (fun r => int_fits (value r) = true \/ value r = value e) rs /\
  ((List.length rs <= 1)%nat \/ fits_all rs).

Section ExprInd.
Variable P : expr -> Prop.
Hypothesis HComposition : forall v i, P i -> P (Composition v i).
Hypothesis HList : forall v cs, Forall P cs -> P (List v cs).
Hypothesis HAxis : forall n v, P (Axis n v).
Hypothesis HConcatenation : forall v cs, Forall P cs -> P (Concatenation v cs).
Hypothesis HMarker : forall v i, P i -> P (Marker v i).

Fixpoint expr_ind' (e : expr) : P e :=
  let fix go (l : list expr) : Forall P l :=
    match l with
    | [] => Forall_nil P
    | c :: l' => Forall_cons c (expr_ind' c) (go l')
    end in
  match e with
  | Composition v i => HComposition v i (expr_ind' i)
  | List v cs => HList v cs (go cs)
  | Axis n v => HAxis n v
  | Concatenation v cs => HConcatenation v cs (go cs)
  | Marker v i => HMarker v i (expr_ind' i)
  end.
End ExprInd.

(** Induction over stage2 expressions, with the children of [List] and
    [Concatenation] under [Forall]. *)
Section Stage2Ind.
Variable P : Stage2.expr -> Prop.
Hypothesis HNamed : forall i n, P (Stage2.NamedAxis i n).
Hypothesis HUnnamed : forall i v, P (Stage2.UnnamedAxis i v).
Hypothesis HList : forall i cs, Forall P cs -> P (Stage2.List i cs).
Hypothesis HConcatenation : forall i cs, Forall P cs -> P (Stage2.Concatenation i cs).
Hypothesis HMarker : forall i e, P e -> P (Stage2.Marker i e).
Hypothesis HComposition : forall i e, P e -> P (Stage2.Composition i e).

End Stage2Ind.


Definition sum_len (xs : list expr) : nat := fold_right (fun c n => (len c + n)%nat) 0%nat xs.
Definition sum_size (xs : list expr) : nat :=
  fold_right (fun c n => (expr_size c + n)%nat) 0%nat xs.

Definition mark_default (pred : list expr -> expr -> bool) (anc : list expr) (e : expr)
    : list expr :=
  match e with
  | Axis n v => [Axis n v]
  | Composition _ i => [mkComposition (List_maybe_pure (mark_visit pred (e :: anc) i))]
  | List _ cs => flat_map (mark_visit pred (e :: anc)) cs
  | Concatenation _ cs =>
      [Concatenation_pure (map (fun c => List_maybe_pure (mark_visit pred (e :: anc) c)) cs)]
  | Marker _ i =>
      match mark_visit pred (e :: anc) i with
      | [] => []
      | x => [Marker_pure (List_maybe_pure x)]
      end
  end.

Definition mark_cond (pred : list expr -> expr -> bool) (anc : list expr) (e : expr) : bool :=
  negb (is_Marker e) && negb (parent_is_Marker anc) && pred anc e.

Definition nonlist_sum (rs : list expr) (n : nat) : Prop :=
  Forall (fun r => is_List r = false) rs /\ sum_len rs = n.


(** Marker-free trees in the shape [demark] leaves them: no Marker, no List
    below a List or a Concatenation, no single-child List; [allow_list]
    tells whether the node itself may be a List. *)
Fixpoint demarked (allow_list : bool) (e : expr) : bool :=
  match e with
  | Axis _ _ => true
  | Composition _ i => demarked true i
  | Concatenation _ cs =>
      negb (match cs with [] => true | _ => false end) && forallb (demarked false) cs
  | List _ cs =>
      allow_list && negb (Nat.eqb (List.length cs) 1) && forallb (demarked false) cs
  | Marker _ _ => false
  end.

Definition survivors (anc : list expr) (e : expr) : list (option string * Z) :=
  flat_map (fun p => axis_key (snd p))
    (filter (fun p => negb (unnamed_trivial (snd p)) || reaches_concatenation (fst p))
       (located_axes anc e)).

Definition keys (rs : list expr) : list (option string * Z) := flat_map axis_keys rs.

Definition removal_inv (anc : list expr) (e : expr) (rs : list expr) : Prop :=
  Forall (fun r => is_List r = false /\ (1 <= len r)%nat) rs /\
  (sum_len rs <= len e)%nat /\
  (rs = [] -> reaches_concatenation anc = true -> len e = 1%nat ->
     survivors anc e = [(None, 1)]) /\
  (rs <> [] \/ reaches_concatenation anc = false \/ len e <> 1%nat -> keys rs = survivors anc e).

(** The substitution of an empty Concatenation child by a fresh unnamed
    axis of value 1 in [_expr_map]. *)
Definition placeholder (fid : string) (c : expr) : expr :=
  if Nat.ltb 0 (len c) then c else mkAxis None fid 1.

(** Children of a node as the engine splices them: a List stands for its
    children, any other node for itself. *)
Definition expand (e : expr) : list expr := match e with List _ cs => cs | _ => [e] end.

(** Invariant of [_expr_map] under [replace f]: every returned node is a
    non-List of positive length, the lengths add up to that of the input,
    and the leaf axes are those of the input, each passed through [f]. *)
Definition replace_inv (f : list expr -> expr -> returned) (anc : list expr) (e : expr)
    (rs : list expr) : Prop :=
  Forall (fun r => is_List r = false /\ (1 <= len r)%nat) rs /\ sum_len rs = len e /\
  flat_map get_axes rs = map (replaced_axis f) (located_axes anc e).

(** Whether a located axis key carries a name. *)
Definition named_key (k : option string * Z) : bool :=
  match fst k with Some _ => true | None => false end.

(** A user function for [replace]: renames every axis "a" to "x". *)
Definition rename_a (anc : list expr) (e : expr) : returned :=
  match e with
  | Axis n v => if String.eqb n "a" then RetExpr ([], Axis "x" v) else RetNone
  | _ => RetNone
  end.

(** A user predicate for [mark]: selects every axis "a". *)
Definition select_a (anc : list expr) (e : expr) : bool :=
  match e with Axis n _ => String.eqb n "a" | _ => false end.

(** ** Properties *)

Arguments wrap : simpl never.
Arguments py_hash_int : simpl never.

(** *** Integer widths *)

Lemma wrap_small : forall w z, 0 < w -> - 2 ^ (w - 1) <= z < 2 ^ (w - 1) -> wrap w z = z.
Proof.
  intros w z Hw Hz. unfold wrap.
  assert (E : 2 ^ w = 2 * 2 ^ (w - 1)).
  { replace w with (Z.succ (w - 1)) at 1 by lia. rewrite Z.pow_succ_r by lia. lia. }
  rewrite Z.mod_small; lia.
Qed.

Lemma wrap_range : forall w z, 0 < w -> - 2 ^ (w - 1) <= wrap w z < 2 ^ (w - 1).
Proof.
  intros w z Hw. unfold wrap.
  assert (E : 2 ^ w = 2 * 2 ^ (w - 1)).
  { replace w with (Z.succ (w - 1)) at 1 by lia. rewrite Z.pow_succ_r by lia. lia. }
  assert (P : 0 < 2 ^ (w - 1)) by (apply Z.pow_pos_nonneg; lia).
  pose proof (Z.mod_pos_bound (z + 2 ^ (w - 1)) (2 ^ w)). lia.
Qed.

Lemma wrap_congruent : forall w z, 0 < w -> (wrap w z - z) mod 2 ^ w = 0.
Proof.
  intros w z Hw. unfold wrap.
  assert (P : 0 < 2 ^ w) by (apply Z.pow_pos_nonneg; lia).
  rewrite (Z.mod_eq (z + 2 ^ (w - 1))) by lia.
  replace (z + 2 ^ (w - 1) - 2 ^ w * ((z + 2 ^ (w - 1)) / 2 ^ w) - 2 ^ (w - 1) - z)
    with ((- ((z + 2 ^ (w - 1)) / 2 ^ w)) * 2 ^ w) by ring.
  apply Z.mod_mul. lia.
Qed.

Lemma wrap32_wrap64 : forall z, wrap32 (wrap64 z) = wrap32 z.
Proof.
  intro z. unfold wrap32, wrap64, wrap.
  change (2 ^ (64 - 1)) with (2 ^ 31 * 2 ^ 32).
  change (2 ^ 64) with (2 ^ 32 * 2 ^ 32).
  change (32 - 1) with 31.
  set (q := (z + 2 ^ 31 * 2 ^ 32) / (2 ^ 32 * 2 ^ 32)).
  rewrite (Z.mod_eq (z + 2 ^ 31 * 2 ^ 32)) by lia. fold q.
  replace (z + 2 ^ 31 * 2 ^ 32 - 2 ^ 32 * 2 ^ 32 * q - 2 ^ 31 * 2 ^ 32 + 2 ^ 31)
    with ((z + 2 ^ 31) + (- 2 ^ 32 * q) * 2 ^ 32) by ring.
  rewrite Z.mod_add by lia. reflexivity.
Qed.

(** *** Constructors *)

Lemma promote_Object : forall a b, promote a b = Object <-> a = Object \/ b = Object.
Proof. intros [] []; cbn; intuition discriminate. Qed.

Lemma fold_promote_Object : forall l d,
  fold_left (fun d x => promote d (int_dtype x)) l d = Object <->
  d = Object \/ exists z, In z l /\ int_dtype z = Object.
Proof.
  induction l as [|x l IH]; intro d; cbn [fold_left].
  - split; [tauto|]. intros [H|[z [[] _]]]. exact H.
  - rewrite IH, promote_Object. split.
    + intros [[H|H]|[z [Hz Ez]]]; [left; exact H|right; exists x; split; [left; reflexivity|exact H]|].
      right; exists z; split; [right; exact Hz|exact Ez].
    + intros [H|[z [[<-|Hz] Ez]]]; [left; left; exact H|left; right; exact Ez|].
      right; exists z; split; [exact Hz|exact Ez].
Qed.

Lemma int_dtype_Object : forall z, int_dtype z = Object <-> int_fits z = false.
Proof.
  intro z. unfold int_dtype, int_fits.
  destruct (Z.leb_spec (- 2 ^ 63) z), (Z.ltb_spec z (2 ^ 63)), (Z.leb_spec 0 z), (Z.ltb_spec z (2 ^ 64));
    cbn; split; intro E; try discriminate; try reflexivity; lia.
Qed.

Lemma np_object_dtype_true : forall l,
  np_object_dtype l = true <-> exists z, In z l /\ int_fits z = false.
Proof.
  intro l. unfold np_object_dtype, array_dtype. destruct l as [|x l].
  - split; [discriminate|]. intros [z [[] _]].
  - assert (K : fold_left (fun d x => promote d (int_dtype x)) l (int_dtype x) = Object <->
                exists z, In z (x :: l) /\ int_fits z = false).
    { rewrite fold_promote_Object. split.
      - intros [H|[z [Hz Ez]]]; [exists x|exists z]; split; try (left; reflexivity);
          try (right; exact Hz); apply int_dtype_Object; assumption.
      - intros [z [[<-|Hz] Ez]]; apply int_dtype_Object in Ez; [left; exact Ez|right; eauto]. }
    rewrite <- K. destruct (fold_left _ l _); split; intro H; try discriminate; try reflexivity.
Qed.

Lemma np_object_dtype_false : forall l,
  np_object_dtype l = false <-> Forall (fun z => int_fits z = true) l.
Proof.
  intro l. rewrite Forall_forall. split.
  - intros H z Hz. destruct (int_fits z) eqn:F; [reflexivity|].
    assert (T : np_object_dtype l = true) by (apply np_object_dtype_true; eauto). congruence.
  - intros H. apply not_true_iff_false. intros T. apply np_object_dtype_true in T as [z [Hz Fz]].
    rewrite H in Fz by exact Hz. discriminate.
Qed.

Lemma np_prod_int : forall l, np_int_arith l = true -> np_prod_astype_int l = wrap64 (prod_Z l).
Proof. unfold np_int_arith, np_prod_astype_int. intro l. destruct (array_dtype l); easy. Qed.

Lemma np_sum_int : forall l, np_int_arith l = true -> np_sum_astype_int32 l = wrap32 (sum_Z l).
Proof.
  unfold np_int_arith, np_sum_astype_int32. intro l.
  destruct (array_dtype l); try discriminate; intros _; apply wrap32_wrap64.
Qed.

Lemma f64_to_int_range : forall w f, 0 < w -> - 2 ^ (w - 1) <= f64_to_int w f < 2 ^ (w - 1).
Proof.
  intros w f Hw. assert (P : 0 < 2 ^ (w - 1)) by (apply Z.pow_pos_nonneg; lia).
  unfold f64_to_int. destruct (f64_trunc f) as [z|]; [|lia].
  destruct (Z.leb_spec (- 2 ^ (w - 1)) z), (Z.ltb_spec z (2 ^ (w - 1))); cbn; lia.
Qed.

Lemma np_prod_range : forall l, - 2 ^ 63 <= np_prod_astype_int l < 2 ^ 63.
Proof.
  intro l. unfold np_prod_astype_int.
  destruct (array_dtype l);
    first [apply (f64_to_int_range 64); lia | apply (wrap_range 64); lia].
Qed.

Lemma np_sum_range : forall l, - 2 ^ 31 <= np_sum_astype_int32 l < 2 ^ 31.
Proof.
  intro l. unfold np_sum_astype_int32.
  destruct (array_dtype l);
    first [apply (f64_to_int_range 32); lia | apply (wrap_range 32); lia].
Qed.

Lemma mkList_value : forall cs e, mkList cs = Ok e -> value e = np_prod_astype_int (map value cs).
Proof.
  unfold mkList. intros cs e H. destruct (np_object_dtype _); [discriminate|].
  destruct (existsb is_List cs); inversion H; reflexivity.
Qed.

Lemma mkConcatenation_value :
  forall cs e, mkConcatenation cs = Ok e -> value e = np_sum_astype_int32 (map value cs).
Proof.
  unfold mkConcatenation. intros cs e H. destruct cs as [|c cs']; [discriminate|].
  destruct (np_object_dtype _); [discriminate|].
  destruct (existsb _ _); inversion H; subst. reflexivity.
Qed.

(** [C1] The value of a List node equals the product of its children's
    values, and that of a Concatenation the sum of its children's values:
    this fails once the product leaves the int64 range or the sum leaves
    the int32 range (here: two axes of size [2^32] under a List). *)
Lemma C1_counterexample :
  ~ ((forall cs e, mkList cs = Ok e -> value e = prod_Z (map value cs)) /\
     (forall cs e, mkConcatenation cs = Ok e -> value e = sum_Z (map value cs))).
Proof.
  intros [HL _].
  specialize (HL [Axis "a" (2 ^ 32); Axis "b" (2 ^ 32)] (List 0 [Axis "a" (2 ^ 32); Axis "b" (2 ^ 32)])).
  assert (V : value (List 0 [Axis "a" (2 ^ 32); Axis "b" (2 ^ 32)]) = 2 ^ 64).
  { apply HL. vm_compute. reflexivity. }
  vm_compute in V. discriminate.
Qed.

(** [C1] (amended) When numpy computes with integers (every child value in
    the int64 range, or every one in [[2^63, 2^64)]), a List's value is the
    product of its children's values reduced to signed 64 bits (the product
    itself whenever it lies in the int64 range), and a Concatenation's value
    is the sum reduced to signed 32 bits (the sum itself whenever it lies in
    the int32 range). A child value outside [[-2^63, 2^64)] makes both
    constructors raise [AttributeError]. *)
Theorem C1_values_within_width : forall cs e,
  (mkList cs = Ok e -> np_int_arith (map value cs) = true ->
     value e = wrap64 (prod_Z (map value cs)) /\
     (- 2 ^ 63 <= prod_Z (map value cs) < 2 ^ 63 -> value e = prod_Z (map value cs))) /\
  (mkConcatenation cs = Ok e -> np_int_arith (map value cs) = true ->
     value e = wrap32 (sum_Z (map value cs)) /\
     (- 2 ^ 31 <= sum_Z (map value cs) < 2 ^ 31 -> value e = sum_Z (map value cs))) /\
  ((exists c, In c cs /\ int_fits (value c) = false) ->
     mkList cs = Err AttributeError /\ mkConcatenation cs = Err AttributeError).
Proof.
  intros cs e. split; [|split].
  - intros H I. apply mkList_value in H. rewrite np_prod_int in H by exact I.
    split; [exact H|]. intro R. rewrite H. apply wrap_small; [lia|exact R].
  - intros H I. apply mkConcatenation_value in H. rewrite np_sum_int in H by exact I.
    split; [exact H|]. intro R. rewrite H. apply wrap_small; [lia|exact R].
  - intros [c [Hc Fc]].
    assert (O : np_object_dtype (map value cs) = true).
    { apply np_object_dtype_true. exists (value c). split; [apply in_map, Hc|exact Fc]. }
    unfold mkList, mkConcatenation. rewrite O. split; [reflexivity|].
    destruct cs as [|c0 cs']; [destruct Hc|reflexivity].
Qed.

Lemma C1_values_within_width_witness :
  mkList [Axis "a" 2; Axis "b" 3] = Ok (List 6 [Axis "a" 2; Axis "b" 3]) /\
  value (List 6 [Axis "a" 2; Axis "b" 3]) = prod_Z (map value [Axis "a" 2; Axis "b" 3]) /\
  mkConcatenation [Axis "a" 2; Axis "b" 3] = Ok (Concatenation 5 [Axis "a" 2; Axis "b" 3]) /\
  value (Concatenation 5 [Axis "a" 2; Axis "b" 3]) = sum_Z (map value [Axis "a" 2; Axis "b" 3]) /\
  mkList [Axis "a" (2 ^ 64); Axis "b" 3] = Err AttributeError.
Proof.
  destruct (C1_values_within_width [Axis "a" 2; Axis "b" 3] (List 6 [Axis "a" 2; Axis "b" 3]))
    as [HL _].
  destruct (C1_values_within_width [Axis "a" 2; Axis "b" 3] (Concatenation 5 [Axis "a" 2; Axis "b" 3]))
    as [_ [HC _]].
  destruct (C1_values_within_width [Axis "a" (2 ^ 64); Axis "b" 3] (List 0 []))
    as [_ [_ HO]].
  assert (EL : mkList [Axis "a" 2; Axis "b" 3] = Ok (List 6 [Axis "a" 2; Axis "b" 3]))
    by (vm_compute; reflexivity).
  assert (EC : mkConcatenation [Axis "a" 2; Axis "b" 3] = Ok (Concatenation 5 [Axis "a" 2; Axis "b" 3]))
    by (vm_compute; reflexivity).
  assert (I : np_int_arith (map value [Axis "a" 2; Axis "b" 3]) = true) by (vm_compute; reflexivity).
  split; [exact EL|].
  split; [apply (proj2 (HL EL I)); split; [apply Z.leb_le | apply Z.ltb_lt]; vm_compute; reflexivity|].
  split; [exact EC|].
  split; [apply (proj2 (HC EC I)); split; [apply Z.leb_le | apply Z.ltb_lt]; vm_compute; reflexivity|].
  apply HO. exists (Axis "a" (2 ^ 64)). split; [left; reflexivity|vm_compute; reflexivity].
Defined.




(** *** Axis equality and hashing *)

(** [C2] Two unnamed axes are equal iff their values match; two named axes
    iff name and value match; a named and an unnamed axis are never equal;
    equal axes have the same [__hash__]. Named means [is_unnamed] is false. *)
Theorem C2_axis_eq_hash : forall (hash_str : string -> Z) n1 v1 n2 v2,
  (is_unnamed_name n1 = true -> is_unnamed_name n2 = true ->
     (expr_eqb (Axis n1 v1) (Axis n2 v2) = true <-> v1 = v2)) /\
  (is_unnamed_name n1 = false -> is_unnamed_name n2 = false ->
     (expr_eqb (Axis n1 v1) (Axis n2 v2) = true <-> n1 = n2 /\ v1 = v2)) /\
  (is_unnamed_name n1 <> is_unnamed_name n2 -> expr_eqb (Axis n1 v1) (Axis n2 v2) = false) /\
  (expr_eqb (Axis n1 v1) (Axis n2 v2) = true -> Axis_hash hash_str n1 v1 = Axis_hash hash_str n2 v2).
Proof.
  intros h n1 v1 n2 v2. cbn [expr_eqb]. unfold Axis_eqb, Axis_hash.
  destruct (is_unnamed_name n1) eqn:U1, (is_unnamed_name n2) eqn:U2;
    destruct (Z.eqb_spec v1 v2) as [Ev|Ev]; destruct (String.eqb_spec n1 n2) as [En|En];
    cbn [negb Bool.eqb]; intuition congruence.
Qed.

Lemma C2_axis_eq_hash_witness :
  expr_eqb (Axis "a" 4) (Axis "a" 4) = true /\
  Axis_hash (fun _ => 17) "a" 4 = Axis_hash (fun _ => 17) "a" 4 /\
  expr_eqb (Axis "unnamed.1" 4) (Axis "a" 4) = false.
Proof.
  destruct (C2_axis_eq_hash (fun _ => 17) "a" 4 "a" 4) as [_ [H2 [_ H4]]].
  destruct (C2_axis_eq_hash (fun _ => 17) "unnamed.1" 4 "a" 4) as [_ [_ [H3 _]]].
  assert (E : expr_eqb (Axis "a" 4) (Axis "a" 4) = true)
    by (apply (H2 ltac:(reflexivity) ltac:(reflexivity)); split; reflexivity).
  split; [exact E|]. split; [exact (H4 E)|].
  apply H3. intro Hc. vm_compute in Hc. discriminate Hc.
Defined.

(** *** Construction-time errors *)

(** [C5] A List with a direct List child, a Concatenation with no
    children, a Concatenation with a child of length other than 1 and a
    Marker around an empty expression all raise an error in their
    constructor: [ValueError], except that a child value numpy cannot store
    in an int64 or uint64 array (outside [[-2^63, 2^64)]) makes the
    List and the non-empty Concatenation raise [AttributeError] first, in
    the value computation. *)
Theorem C5_construction_errors :
  (forall cs c, In c cs -> is_List c = true ->
     mkList cs = Err (if np_object_dtype (map value cs) then AttributeError else ValueError)) /\
  mkConcatenation [] = Err ValueError /\
  (forall cs c, In c cs -> len c <> 1%nat ->
     mkConcatenation cs = Err (if np_object_dtype (map value cs) then AttributeError else ValueError)) /\
  (forall i, len i = 0%nat -> mkMarker i = Err ValueError).
Proof.
  split; [|split; [reflexivity|split]].
  - intros cs c Hin HL. unfold mkList.
    destruct (np_object_dtype _); [reflexivity|].
    replace (existsb is_List cs) with true; [reflexivity|].
    symmetry. apply existsb_exists. eauto.
  - intros cs c Hin HL. unfold mkConcatenation.
    destruct cs as [|c0 cs']; [destruct Hin|].
    destruct (np_object_dtype _); [reflexivity|].
    replace (existsb _ (c0 :: cs')) with true; [reflexivity|].
    symmetry. apply existsb_exists. exists c. split; [exact Hin|].
    apply negb_true_iff, Nat.eqb_neq. exact HL.
  - intros i H. unfold mkMarker. rewrite H. reflexivity.
Qed.

Lemma C5_construction_errors_witness :
  mkList [Axis "a" 2; List 3 [Axis "b" 3]] = Err ValueError /\
  mkList [List 6 [Axis "a" 2; Axis "b" 3]; Axis "c" (2 ^ 64)] = Err AttributeError /\
  mkConcatenation [List 6 [Axis "a" 2; Axis "b" 3]] = Err ValueError /\
  mkMarker (List 1 []) = Err ValueError.
Proof.
  destruct C5_construction_errors as [H1 [_ [H3 H4]]].
  split; [rewrite (H1 [Axis "a" 2; List 3 [Axis "b" 3]] (List 3 [Axis "b" 3]) ltac:(right; left; reflexivity) eq_refl);
          vm_compute; reflexivity|].
  split; [rewrite (H1 [List 6 [Axis "a" 2; Axis "b" 3]; Axis "c" (2 ^ 64)] (List 6 [Axis "a" 2; Axis "b" 3]) ltac:(left; reflexivity) eq_refl);
          vm_compute; reflexivity|].
  split; [rewrite (H3 [List 6 [Axis "a" 2; Axis "b" 3]] (List 6 [Axis "a" 2; Axis "b" 3]) ltac:(left; reflexivity) ltac:(discriminate));
          vm_compute; reflexivity|].
  apply H4. reflexivity.
Defined.

(** *** Shape-length mismatch in [solve] *)

Lemma concat_mapM_assert : forall {A B} (g : A -> res (list B)) xs x,
  (forall y, In y xs -> g y = Err AssertionError \/ exists r, g y = Ok r) ->
  In x xs -> g x = Err AssertionError ->
  concat_mapM g xs = Err AssertionError.
Proof.
  intros A B g xs x Hall. induction xs as [|y xs IH]; intros Hin Hx; [destruct Hin|].
  simpl. destruct (Hall y (or_introl eq_refl)) as [Hy|[r Hy]]; rewrite Hy; [reflexivity|].
  destruct Hin as [<-|Hin]; [congruence|].
  simpl. rewrite IH; [reflexivity| |exact Hin|exact Hx].
  intros z Hz. apply Hall. right. exact Hz.
Qed.

Lemma root_equations_outcome : forall r v,
  root_equations r v = Err AssertionError \/ exists eqs, root_equations r v = Ok eqs.
Proof.
  intros r [v|]; simpl; [|eauto].
  destruct (negb _); eauto.
Qed.

Lemma nth_error_combine_In : forall {A B} (xs : list A) (ys : list B) i x y,
  nth_error xs i = Some x -> nth_error ys i = Some y -> In (x, y) (combine xs ys).
Proof.
  intros A B xs. induction xs as [|x0 xs IH]; intros [|y0 ys] [|i] x y Hx Hy;
    simpl in *; try discriminate.
  - inversion Hx; inversion Hy; subst. left. reflexivity.
  - right. eapply IH; eauto.
Qed.

(** [C4] A root given a concrete shape whose length differs from the
    root's length makes [solve] fail: it raises the [SolveValueException]
    of every other solve failure. *)
Lemma C4_counterexample :
  ~ exists m, solve "0" (fun _ => inr []) [Stage2.NamedAxis 1 "a"] [Some [2; 3]]
              = Err (SolveValueException m).
Proof.
  intros [m H]. vm_compute in H. discriminate H.
Qed.

(** [C4] (amended) When a root is given a concrete shape whose length
    differs from the root's length, [solve] fails with the [AssertionError]
    of [assert len(value) == len(root)], before the solver runs; this is
    not the [SolveValueException] of the other solve failures. *)
Theorem C4_shape_mismatch_assertion :
  forall fresh_id solver_solve roots values i root shape,
  List.length values = List.length roots ->
  nth_error roots i = Some root ->
  nth_error values i = Some (Some shape) ->
  List.length shape <> Stage2.len root ->
  solve fresh_id solver_solve roots values = Err AssertionError.
Proof.
  intros fid slv roots values i root shape Hlen Hr Hv Hmis.
  unfold solve. rewrite Hlen, Nat.eqb_refl. simpl.
  unfold equations.
  rewrite (concat_mapM_assert _ _ (root, Some shape)); [reflexivity| | |].
  - intros [r v] _. apply root_equations_outcome.
  - eapply nth_error_combine_In; eauto.
  - simpl. apply Nat.eqb_neq in Hmis. rewrite Hmis. reflexivity.
Qed.

Lemma C4_shape_mismatch_assertion_witness :
  solve "0" (fun _ => inr []) [Stage2.NamedAxis 1 "a"] [Some [2; 3]] = Err AssertionError.
Proof.
  apply (C4_shape_mismatch_assertion "0" (fun _ => inr []) _ _ 0 (Stage2.NamedAxis 1 "a") [2; 3]);
    [reflexivity | reflexivity | reflexivity | vm_compute; discriminate].
Defined.

(** *** Induction over expressions and constructor lemmas *)


Lemma len_List : forall v cs, len (List v cs) = sum_len cs.
Proof. reflexivity. Qed.

Lemma sum_len_app : forall xs ys, sum_len (xs ++ ys) = (sum_len xs + sum_len ys)%nat.
Proof. intros xs ys. induction xs as [|x xs IH]; simpl; [reflexivity|]. rewrite IH. lia. Qed.

Lemma size_In : forall c cs, In c cs -> (expr_size c <= sum_size cs)%nat.
Proof.
  intros c cs. induction cs as [|d cs IH]; simpl; [tauto|].
  intros [<-|H]; [lia|]. specialize (IH H). lia.
Qed.

Lemma expr_size_pos : forall e, (1 <= expr_size e)%nat.
Proof. destruct e; simpl; lia. Qed.

Lemma len_List_maybe_pure : forall xs, len (List_maybe_pure xs) = sum_len xs.
Proof. intros [|x [|y xs]]; simpl; try reflexivity. lia. Qed.

Lemma forallb_not_List : forall xs,
  Forall (fun x => is_List x = false) xs -> forallb (fun c => negb (is_List c)) xs = true.
Proof.
  intros xs H. apply forallb_forall. intros x Hx.
  rewrite Forall_forall in H. rewrite (H x Hx). reflexivity.
Qed.

Lemma fits_all_object : forall cs, fits_all cs <-> np_object_dtype (map value cs) = false.
Proof.
  intro cs. unfold fits_all. rewrite np_object_dtype_false, Forall_map. reflexivity.
Qed.

Lemma int_fits_int64 : forall z, - 2 ^ 63 <= z < 2 ^ 63 -> int_fits z = true.
Proof.
  intros z H. unfold int_fits. assert (P : 2 ^ 63 < 2 ^ 64) by reflexivity.
  apply andb_true_iff. split; [apply Z.leb_le|apply Z.ltb_lt]; lia.
Qed.

Lemma fits_np_prod : forall l, int_fits (np_prod_astype_int l) = true.
Proof. intro l. apply int_fits_int64, np_prod_range. Qed.

Lemma fits_np_sum : forall l, int_fits (np_sum_astype_int32 l) = true.
Proof.
  intro l. apply int_fits_int64. pose proof (np_sum_range l).
  assert (2 ^ 31 < 2 ^ 63) by reflexivity. lia.
Qed.

Lemma mkList_ok : forall cs,
  Forall (fun x => is_List x = false) cs -> fits_all cs -> mkList cs = Ok (List_pure cs).
Proof.
  intros cs H Fc. unfold mkList. apply fits_all_object in Fc. rewrite Fc.
  replace (existsb is_List cs) with false; [reflexivity|].
  symmetry. apply Bool.not_true_iff_false. intro E.
  apply existsb_exists in E as [x [Hx Ex]]. rewrite Forall_forall in H.
  rewrite (H x Hx) in Ex. discriminate.
Qed.

Lemma List_maybe_ok : forall xs,
  Forall (fun x => is_List x = false) xs -> ((List.length xs <= 1)%nat \/ fits_all xs) ->
  List_maybe xs = Ok (List_maybe_pure xs).
Proof.
  intros [|x [|y xs]] H Fx; simpl; try reflexivity.
  apply mkList_ok; [exact H|]. destruct Fx as [L|Fx]; [simpl in L; lia|exact Fx].
Qed.

Lemma List_maybe_pure_not_List : forall xs,
  Forall (fun x => is_List x = false) xs -> xs <> [] -> List.length xs <> 1%nat ->
  is_List (List_maybe_pure xs) = true.
Proof. intros [|x [|y xs]] _ H1 H2; simpl in *; congruence. Qed.

Lemma mkConcatenation_ok : forall cs,
  cs <> [] -> Forall (fun x => len x = 1%nat) cs -> fits_all cs ->
  mkConcatenation cs = Ok (Concatenation_pure cs).
Proof.
  intros cs Hne H Fc. apply fits_all_object in Fc.
  unfold mkConcatenation. destruct cs as [|c cs']; [congruence|]. rewrite Fc.
  replace (existsb _ (c :: cs')) with false; [reflexivity|].
  symmetry. apply Bool.not_true_iff_false. intro E.
  apply existsb_exists in E as [x [Hx Ex]]. rewrite Forall_forall in H.
  rewrite (H x Hx) in Ex. discriminate.
Qed.

Lemma mkMarker_ok : forall i, len i <> 0%nat -> mkMarker i = Ok (Marker_pure i).
Proof. intros i H. unfold mkMarker. apply Nat.eqb_neq in H. rewrite H. reflexivity. Qed.

Lemma mapM_ok : forall {A B} (g : A -> res B) (h : A -> B) xs,
  (forall x, In x xs -> g x = Ok (h x)) -> mapM g xs = Ok (map h xs).
Proof.
  intros A B g h xs H. induction xs as [|x xs IH]; simpl; [reflexivity|].
  rewrite (H x (or_introl eq_refl)). simpl. rewrite IH; [reflexivity|].
  intros y Hy. apply H. right. exact Hy.
Qed.

Lemma concat_mapM_ok : forall {A B} (g : A -> res (list B)) (h : A -> list B) xs,
  (forall x, In x xs -> g x = Ok (h x)) -> concat_mapM g xs = Ok (flat_map h xs).
Proof.
  intros A B g h xs H. induction xs as [|x xs IH]; simpl; [reflexivity|].
  rewrite (H x (or_introl eq_refl)). simpl. rewrite IH; [reflexivity|].
  intros y Hy. apply H. right. exact Hy.
Qed.

Lemma wf_Composition : forall v i, wf (Composition v i) = true -> v = value i /\ wf i = true.
Proof.
  intros v i H. simpl in H. apply andb_true_iff in H as [H1 H2].
  apply Z.eqb_eq in H1. auto.
Qed.

Lemma wf_List : forall v cs, wf (List v cs) = true ->
  v = np_prod_astype_int (map value cs) /\ Forall (fun c => is_List c = false) cs /\
  Forall (fun c => wf c = true) cs.
Proof.
  intros v cs H. simpl in H. apply andb_true_iff in H as [H _]. apply andb_true_iff in H as [H H3].
  apply andb_true_iff in H as [H1 H2]. apply Z.eqb_eq in H1.
  split; [exact H1|]. split; apply Forall_forall; intros c Hc.
  - rewrite forallb_forall in H2. apply negb_true_iff, H2, Hc.
  - rewrite forallb_forall in H3. apply H3, Hc.
Qed.

Lemma wf_Concatenation : forall v cs, wf (Concatenation v cs) = true ->
  cs <> [] /\ v = np_sum_astype_int32 (map value cs) /\
  Forall (fun c => len c = 1%nat) cs /\ Forall (fun c => wf c = true) cs.
Proof.
  intros v cs H. simpl in H. apply andb_true_iff in H as [H _].
  apply andb_true_iff in H as [H H4]. apply andb_true_iff in H as [H H3].
  apply andb_true_iff in H as [H1 H2]. apply Z.eqb_eq in H2.
  split; [destruct cs; discriminate|]. split; [exact H2|].
  split; apply Forall_forall; intros c Hc.
  - rewrite forallb_forall in H3. apply Nat.eqb_eq, H3, Hc.
  - rewrite forallb_forall in H4. apply H4, Hc.
Qed.

Lemma wf_List_fits : forall v cs, wf (List v cs) = true -> fits_all cs.
Proof.
  intros v cs H. simpl in H. apply andb_true_iff in H as [_ H].
  apply fits_all_object, negb_true_iff, H.
Qed.

Lemma wf_Concatenation_fits : forall v cs, wf (Concatenation v cs) = true -> fits_all cs.
Proof.
  intros v cs H. simpl in H. apply andb_true_iff in H as [_ H].
  apply fits_all_object, negb_true_iff, H.
Qed.

Lemma wf_Marker : forall v i, wf (Marker v i) = true ->
  v = value i /\ len i <> 0%nat /\ wf i = true.
Proof.
  intros v i H. simpl in H. apply andb_true_iff in H as [H H3].
  apply andb_true_iff in H as [H1 H2]. apply Z.eqb_eq in H1.
  apply negb_true_iff, Nat.eqb_neq in H2. auto.
Qed.

(** A tree the constructors built is its own deep copy. *)
Lemma deepcopy_wf : forall e, wf e = true -> deepcopy e = Ok e.
Proof.
  induction e using expr_ind'; intro W.
  - apply wf_Composition in W as [-> W]. simpl. rewrite IHe by exact W. reflexivity.
  - pose proof W as W0. apply wf_List in W as [-> [NL W]]. simpl.
    rewrite (mapM_ok deepcopy (fun c => c)).
    + rewrite map_id. simpl. rewrite mkList_ok; [reflexivity|exact NL|eapply wf_List_fits, W0].
    + intros x Hx. rewrite Forall_forall in H, W. apply H; auto.
  - reflexivity.
  - pose proof W as W0. apply wf_Concatenation in W as [NE [-> [L1 W]]]. simpl.
    rewrite (mapM_ok deepcopy (fun c => c)).
    + rewrite map_id. simpl. rewrite mkConcatenation_ok; [reflexivity|assumption|assumption|].
      eapply wf_Concatenation_fits, W0.
    + intros x Hx. rewrite Forall_forall in H, W. apply H; auto.
  - apply wf_Marker in W as [-> [L W]]. simpl. rewrite IHe by exact W.
    simpl. rewrite mkMarker_ok by exact L. reflexivity.
Qed.

(** Children of a List or a Marker's inner node in a constructed tree are
    never empty. *)
Lemma wf_len_pos : forall e, wf e = true -> is_List e = false -> (1 <= len e)%nat.
Proof.
  intros [v i|v cs|n v|v cs|v i] W NL; simpl; try lia; try discriminate.
  apply wf_Marker in W as [_ [L _]]. lia.
Qed.

(** *** Value ranges along a traversal *)

Lemma List_maybe_pure_range : forall e xs, range_inv e xs ->
  int_fits (value (List_maybe_pure xs)) = true \/ value (List_maybe_pure xs) = value e.
Proof.
  intros e [|x [|y xs]] [R _]; cbn [List_maybe_pure].
  - left. apply fits_np_prod.
  - inversion R; assumption.
  - left. apply fits_np_prod.
Qed.

Lemma List_maybe_pure_fits : forall xs, fits_all xs -> int_fits (value (List_maybe_pure xs)) = true.
Proof.
  intros [|x [|y xs]] F; cbn [List_maybe_pure]; try apply fits_np_prod.
  inversion F; assumption.
Qed.

Lemma List_maybe_Ok : forall xs x, List_maybe xs = Ok x -> x = List_maybe_pure xs.
Proof.
  intros [|y [|z xs]] x H; cbn [List_maybe List_maybe_pure] in *;
    try (inversion H; reflexivity);
    unfold mkList in H; destruct (np_object_dtype _); try discriminate;
    destruct (existsb _ _); inversion H; reflexivity.
Qed.

Lemma range_inv_fits : forall e rs, int_fits (value e) = true -> range_inv e rs -> fits_all rs.
Proof.
  intros e rs He [R _]. unfold fits_all. eapply Forall_impl; [|exact R].
  intros r [H|H]; [exact H|rewrite H; exact He].
Qed.

Lemma range_inv_fits_all : forall e rs, fits_all rs -> range_inv e rs.
Proof.
  intros e rs F. split; [|right; exact F].
  eapply Forall_impl; [|exact F]. intros r H; left; exact H.
Qed.

Lemma range_inv_single : forall e r,
  int_fits (value r) = true \/ value r = value e -> range_inv e [r].
Proof. intros e r H. split; [constructor; [exact H|constructor]|left; cbn; lia]. Qed.

Lemma concat_mapM_Forall_inv : forall {A B} (g : A -> res (list B)) (P : B -> Prop) xs rs,
  (forall x r, In x xs -> g x = Ok r -> Forall P r) ->
  concat_mapM g xs = Ok rs -> Forall P rs.
Proof.
  intros A B g P xs. induction xs as [|x xs IH]; intros rs H E; cbn [concat_mapM] in E.
  - inversion E. constructor.
  - destruct (g x) as [r|] eqn:Gx; cbn [bind] in E; [|discriminate].
    destruct (concat_mapM g xs) as [rs'|] eqn:Gs; cbn [bind] in E; [|discriminate].
    inversion E. apply Forall_app. split.
    + apply (H x); [left; reflexivity|exact Gx].
    + apply IH; [|reflexivity]. intros y r' Hy. apply H. right. exact Hy.
Qed.

Lemma mapM_Forall_inv : forall {A B} (g : A -> res B) (P : B -> Prop) xs ys,
  (forall x y, In x xs -> g x = Ok y -> P y) -> mapM g xs = Ok ys -> Forall P ys.
Proof.
  intros A B g P xs. induction xs as [|x xs IH]; intros ys H E; cbn [mapM] in E.
  - inversion E. constructor.
  - destruct (g x) as [y|] eqn:Gx; cbn [bind] in E; [|discriminate].
    destruct (mapM g xs) as [ys'|] eqn:Gs; cbn [bind] in E; [|discriminate].
    inversion E. constructor.
    + apply (H x); [left; reflexivity|exact Gx].
    + apply IH; [|reflexivity]. intros z w Hz. apply H. right. exact Hz.
Qed.

Lemma forallb_Forall_wf : forall cs, Forall (fun c => wf c = true) cs -> forallb wf cs = true.
Proof. intros cs W. apply forallb_forall. rewrite Forall_forall in W. exact W. Qed.

Lemma mkList_wf : forall cs e, mkList cs = Ok e -> Forall (fun c => wf c = true) cs -> wf e = true.
Proof.
  unfold mkList. intros cs e H W. destruct (np_object_dtype (map value cs)) eqn:O; [discriminate|].
  destruct (existsb is_List cs) eqn:X; inversion H; subst. cbn [wf].
  rewrite Z.eqb_refl, O, forallb_Forall_wf by exact W.
  replace (forallb (fun c => negb (is_List c)) cs) with true; [reflexivity|].
  symmetry. apply forallb_forall. intros c Hc. destruct (is_List c) eqn:L; [|reflexivity].
  exfalso. assert (existsb is_List cs = true) by (apply existsb_exists; eauto). congruence.
Qed.

Lemma List_maybe_wf : forall xs e, List_maybe xs = Ok e -> Forall (fun c => wf c = true) xs ->
  wf e = true.
Proof.
  intros [|x [|y xs]] e H W; cbn [List_maybe] in H; try (eapply mkList_wf; eassumption).
  inversion H; subst. inversion W; assumption.
Qed.

Lemma mkConcatenation_wf : forall cs e, mkConcatenation cs = Ok e ->
  Forall (fun c => wf c = true) cs -> wf e = true.
Proof.
  unfold mkConcatenation. intros cs e H W. destruct cs as [|c cs']; [discriminate|].
  destruct (np_object_dtype _) eqn:O; [discriminate|].
  destruct (existsb _ _) eqn:X; inversion H; subst. cbn [wf negb andb].
  rewrite Z.eqb_refl, O, forallb_Forall_wf by exact W.
  replace (forallb (fun c => Nat.eqb (len c) 1) (c :: cs')) with true; [reflexivity|].
  symmetry. apply forallb_forall. intros x Hx. destruct (Nat.eqb (len x) 1) eqn:L; [reflexivity|].
  exfalso. assert (existsb (fun c => negb (Nat.eqb (len c) 1)) (c :: cs') = true)
    by (apply existsb_exists; exists x; rewrite L; auto). congruence.
Qed.

Lemma mkMarker_wf : forall i e, mkMarker i = Ok e -> wf i = true -> wf e = true.
Proof.
  unfold mkMarker. intros i e H W. destruct (Nat.eqb (len i) 0) eqn:L; inversion H; subst.
  cbn [wf]. rewrite Z.eqb_refl, L, W. reflexivity.
Qed.

Section RangeEngine.
Variable fid : string.
Variable F : list expr -> expr -> res (option (list located) * signal).
Variable Q : list expr -> expr -> Prop.
Hypothesis Q_child : forall anc e c, Q anc e -> Q (e :: anc) c.
Hypothesis F_range : forall anc e xs sig, Q anc e -> wf e = true -> F anc e = Ok (Some xs, sig) ->
  (sig = REPLACE_AND_STOP -> range_inv e (map snd xs)) /\
  (sig = REPLACE_AND_CONTINUE ->
     Forall (fun x => Q (fst x) (snd x) /\ wf (snd x) = true /\
                      (int_fits (value (snd x)) = true \/ value (snd x) = value e)) xs /\
     ((List.length xs <= 1)%nat \/ fits_all (map snd xs))).

Lemma expr_map_range : forall n anc e rs, Q anc e -> wf e = true ->
  _expr_map fid n F anc e = Ok rs -> range_inv e rs.
Proof.
  induction n as [|n IH]; intros anc e rs HQ W H; cbn [_expr_map] in H; [discriminate|].
  destruct (F anc e) as [[exprs sig]|x] eqn:EF; cbn [bind] in H; [|discriminate].
  destruct sig.
  - destruct e as [v i|v cs|m v|v cs|v i].
    + destruct (_expr_map fid n F (Composition v i :: anc) i) as [xs|] eqn:Ei;
        cbn [bind] in H; [|discriminate].
      destruct (List_maybe xs) as [y|] eqn:Ly; cbn [bind] in H; [|discriminate].
      inversion H; subst rs. apply wf_Composition in W as [-> Wi].
      apply List_maybe_Ok in Ly. subst y. apply range_inv_single. cbn [value mkComposition].
      apply (List_maybe_pure_range i), (IH _ _ _ (Q_child _ _ _ HQ) Wi Ei).
    + pose proof (wf_List_fits _ _ W) as Fc. apply wf_List in W as [_ [_ Wc]].
      apply range_inv_fits_all. unfold fits_all.
      eapply concat_mapM_Forall_inv; [|exact H]. intros c r Hc Er.
      unfold fits_all in Fc. rewrite Forall_forall in Fc, Wc.
      apply (range_inv_fits c); [apply Fc, Hc|].
      apply (IH _ _ _ (Q_child _ _ _ HQ) (Wc c Hc) Er).
    + cbn [deepcopy bind] in H. inversion H; subst rs.
      apply range_inv_single. right. reflexivity.
    + destruct (mapM _ cs) as [ys|]; cbn [bind] in H; [|discriminate].
      destruct (mkConcatenation _) as [c|] eqn:Ec; cbn [bind] in H; [|discriminate].
      inversion H; subst rs. apply range_inv_single. left.
      rewrite (mkConcatenation_value _ _ Ec). apply fits_np_sum.
    + destruct (_expr_map fid n F (Marker v i :: anc) i) as [xs|] eqn:Ei;
        cbn [bind] in H; [|discriminate].
      assert (R := IH _ _ _ (Q_child _ _ _ HQ) (proj2 (proj2 (wf_Marker _ _ W))) Ei).
      apply wf_Marker in W as [-> _].
      destruct xs as [|x xs]; [inversion H; split; [constructor|left; cbn; lia]|].
      destruct (List_maybe (x :: xs)) as [y|] eqn:Ly; cbn [bind] in H; [|discriminate].
      unfold mkMarker in H. destruct (Nat.eqb (len y) 0); cbn [bind] in H; [discriminate|].
      inversion H; subst rs. apply List_maybe_Ok in Ly. subst y.
      apply range_inv_single. cbn [value]. apply (List_maybe_pure_range i), R.
  - destruct (deepcopy e) as [c|] eqn:Ec; cbn [bind] in H; [|discriminate].
    rewrite deepcopy_wf in Ec by exact W. inversion Ec; inversion H; subst.
    apply range_inv_single. right. reflexivity.
  - destruct exprs as [xs|]; [|discriminate]. inversion H; subst rs.
    apply (proj1 (F_range _ _ _ _ HQ W EF) eq_refl).
  - destruct exprs as [xs|]; [|discriminate].
    destruct (proj2 (F_range _ _ _ _ HQ W EF) eq_refl) as [Fx Lx].
    assert (Rx : forall x r, In x xs -> _expr_map fid n F (fst x) (snd x) = Ok r -> range_inv (snd x) r).
    { intros x r Hx Er. rewrite Forall_forall in Fx. destruct (Fx x Hx) as [Qx [Wx _]].
      exact (IH _ _ _ Qx Wx Er). }
    split.
    + eapply concat_mapM_Forall_inv; [|exact H]. intros x r Hx Er.
      destruct (Rx x r Hx Er) as [Rr _]. rewrite Forall_forall in Fx.
      destruct (Fx x Hx) as [_ [_ Vx]].
      eapply Forall_impl; [|exact Rr]. intros y [Hy|Hy]; [left; exact Hy|].
      rewrite Hy. exact Vx.
    + destruct Lx as [Lx|Fs].
      * destruct xs as [|x [|x' xs]]; [cbn in H; inversion H; left; cbn; lia| |cbn in Lx; lia].
        cbn [concat_mapM] in H.
        destruct (_expr_map fid n F (fst x) (snd x)) as [r|] eqn:Er; cbn [bind] in H; [|discriminate].
        inversion H; subst rs. rewrite app_nil_r.
        exact (proj2 (Rx x r (or_introl eq_refl) Er)).
      * right. eapply concat_mapM_Forall_inv; [|exact H]. intros x r Hx Er.
        apply (range_inv_fits (snd x)); [|exact (Rx x r Hx Er)].
        unfold fits_all in Fs. rewrite Forall_map, Forall_forall in Fs. apply Fs, Hx.
Qed.
Hypothesis F_wf_stop : forall anc e xs, Q anc e -> wf e = true ->
  F anc e = Ok (Some xs, REPLACE_AND_STOP) -> Forall (fun x => wf (snd x) = true) xs.

Lemma expr_map_wf : forall n anc e rs, Q anc e -> wf e = true ->
  _expr_map fid n F anc e = Ok rs -> Forall (fun r => wf r = true) rs.
Proof.
  induction n as [|n IH]; intros anc e rs HQ W H; cbn [_expr_map] in H; [discriminate|].
  destruct (F anc e) as [[exprs sig]|x] eqn:EF; cbn [bind] in H; [|discriminate].
  destruct sig.
  - destruct e as [v i|v cs|m v|v cs|v i].
    + destruct (_expr_map fid n F (Composition v i :: anc) i) as [xs|] eqn:Ei;
        cbn [bind] in H; [|discriminate].
      destruct (List_maybe xs) as [y|] eqn:Ly; cbn [bind] in H; [|discriminate].
      inversion H; subst rs. apply wf_Composition in W as [_ Wi].
      constructor; [|constructor]. unfold mkComposition. cbn [wf]. rewrite Z.eqb_refl.
      apply (List_maybe_wf xs); [exact Ly|]. exact (IH _ _ _ (Q_child _ _ _ HQ) Wi Ei).
    + apply wf_List in W as [_ [_ Wc]].
      eapply concat_mapM_Forall_inv; [|exact H]. intros c r Hc Er.
      rewrite Forall_forall in Wc. exact (IH _ _ _ (Q_child _ _ _ HQ) (Wc c Hc) Er).
    + cbn [deepcopy bind] in H. inversion H; subst rs. repeat constructor.
    + apply wf_Concatenation in W as [_ [_ [_ Wc]]].
      destruct (mapM _ cs) as [ys|] eqn:Ey; cbn [bind] in H; [|discriminate].
      destruct (mkConcatenation _) as [c|] eqn:Ec; cbn [bind] in H; [|discriminate].
      inversion H; subst rs. constructor; [|constructor].
      apply (mkConcatenation_wf _ _ Ec). rewrite Forall_map.
      eapply mapM_Forall_inv; [|exact Ey]. intros c' y Hc Ey'. cbv beta in Ey'.
      destruct (_expr_map fid n F _ c') as [xs|] eqn:Ex; cbn [bind] in Ey'; [|discriminate].
      rewrite Forall_forall in Wc.
      assert (Wy : wf y = true)
        by (apply (List_maybe_wf xs); [exact Ey'|exact (IH _ _ _ (Q_child _ _ _ HQ) (Wc c' Hc) Ex)]).
      destruct (Nat.ltb 0 (len y)); [exact Wy|reflexivity].
    + destruct (_expr_map fid n F (Marker v i :: anc) i) as [xs|] eqn:Ei;
        cbn [bind] in H; [|discriminate].
      assert (Wx := IH _ _ _ (Q_child _ _ _ HQ) (proj2 (proj2 (wf_Marker _ _ W))) Ei).
      destruct xs as [|x xs]; [inversion H; constructor|].
      destruct (List_maybe (x :: xs)) as [y|] eqn:Ly; cbn [bind] in H; [|discriminate].
      destruct (mkMarker y) as [m|] eqn:Em; cbn [bind] in H; [|discriminate].
      inversion H; subst rs. constructor; [|constructor].
      apply (mkMarker_wf _ _ Em), (List_maybe_wf _ _ Ly Wx).
  - destruct (deepcopy e) as [c|] eqn:Ec; cbn [bind] in H; [|discriminate].
    rewrite deepcopy_wf in Ec by exact W. inversion Ec; inversion H; subst. repeat constructor.
    exact W.
  - destruct exprs as [xs|]; [|discriminate]. inversion H; subst rs.
    rewrite Forall_map. exact (F_wf_stop _ _ _ HQ W EF).
  - destruct exprs as [xs|]; [|discriminate].
    destruct (proj2 (F_range _ _ _ _ HQ W EF) eq_refl) as [Fx _].
    eapply concat_mapM_Forall_inv; [|exact H]. intros x r Hx Er.
    rewrite Forall_forall in Fx. destruct (Fx x Hx) as [Qx [Wx _]].
    exact (IH _ _ _ Qx Wx Er).
Qed.
End RangeEngine.

(** The located nodes [wrap_visitor] makes of a returned expression. *)
Lemma wrap_RetExpr_range : forall (Q : list expr -> expr -> Prop) e a x,
  wf x = true -> (int_fits (value x) = true \/ value x = value e) ->
  (forall anc' c, Q anc' c) ->
  let ys := match x with List v cs => map (fun c => (List v cs :: a, c)) cs | _ => [(a, x)] end in
  Forall (fun y => Q (fst y) (snd y) /\ wf (snd y) = true /\
                   (int_fits (value (snd y)) = true \/ value (snd y) = value e)) ys /\
  ((List.length ys <= 1)%nat \/ fits_all (map snd ys)).
Proof.
  intros Q e a x W V HQ ys. subst ys.
  destruct x as [v i|v cs|n v|v cs|v i];
    try (split; [constructor; [split; [apply HQ|split; assumption]|constructor]|left; cbn; lia]).
  pose proof (wf_List_fits _ _ W) as Fc. apply wf_List in W as [_ [_ Wc]].
  unfold fits_all in Fc |- *. split.
  - rewrite Forall_map. rewrite Forall_forall in Fc, Wc |- *. intros c Hc.
    cbn [fst snd]. split; [apply HQ|]. split; [apply Wc, Hc|left; apply Fc, Hc].
  - right. rewrite map_map. cbn [snd]. rewrite map_id. exact Fc.
Qed.

(** *** [mark] *)

Lemma mark_visit_eq : forall p anc e,
  mark_visit p anc e =
  if mark_cond p anc e then [Marker_pure (List_maybe_pure (mark_default p [Marker_pure e] e))]
  else mark_default p anc e.
Proof. intros p anc [] ; reflexivity. Qed.

Lemma mark_cond_under_marker : forall p e, mark_cond p [Marker_pure e] e = false.
Proof. intros p e. unfold mark_cond. simpl. rewrite andb_false_r. reflexivity. Qed.

Lemma mark_visit_under_marker : forall p e,
  mark_visit p [Marker_pure e] e = mark_default p [Marker_pure e] e.
Proof. intros. rewrite mark_visit_eq, mark_cond_under_marker. reflexivity. Qed.

Lemma len_Marker_pure : forall i, len (Marker_pure i) = len i.
Proof. reflexivity. Qed.

Lemma nonlist_sum_flat_map : forall (g : expr -> list expr) cs,
  Forall (fun c => nonlist_sum (g c) (len c)) cs ->
  nonlist_sum (flat_map g cs) (sum_len cs).
Proof.
  intros g cs H. induction H as [|c cs [H1 H2] _ [IH1 IH2]]; simpl.
  - split; [constructor|reflexivity].
  - split; [apply Forall_app; auto|]. rewrite sum_len_app. lia.
Qed.

Section MarkEngine.
Variable fid : string.
Variable p : list expr -> expr -> bool.
Hypothesis p_nonempty : forall anc e, len e = 0%nat -> p anc e = false.

Lemma mark_inv : forall e anc,
  nonlist_sum (mark_default p anc e) (len e) /\ nonlist_sum (mark_visit p anc e) (len e).
Proof.
  assert (W : forall e, (forall anc, nonlist_sum (mark_default p anc e) (len e)) ->
                forall anc, nonlist_sum (mark_visit p anc e) (len e)).
  { intros e H anc. rewrite mark_visit_eq. destruct (mark_cond p anc e); [|apply H].
    destruct (H [Marker_pure e]) as [_ L].
    split; [repeat constructor|]. unfold sum_len; cbn [fold_right].
    rewrite len_Marker_pure, len_List_maybe_pure, L. lia. }
  intro e. enough (forall anc, nonlist_sum (mark_default p anc e) (len e)) by eauto.
  induction e using expr_ind'; intro anc; cbn [mark_default].
  - split; [repeat constructor|reflexivity].
  - apply nonlist_sum_flat_map.
    rewrite Forall_forall in H |- *. intros c Hc. apply W, H, Hc.
  - split; [repeat constructor|reflexivity].
  - split; [repeat constructor|reflexivity].
  - destruct (W e IHe (Marker v e :: anc)) as [N L].
    destruct (mark_visit p (Marker v e :: anc) e) as [|x xs] eqn:E.
    + split; [constructor|]. exact L.
    + split; [repeat constructor|]. unfold sum_len; cbn [fold_right].
      rewrite len_Marker_pure, len_List_maybe_pure, L. simpl. lia.
Qed.

Lemma mark_visit_inv : forall e anc, nonlist_sum (mark_visit p anc e) (len e).
Proof. intros. apply mark_inv. Qed.

Let F := wrap_visitor (mark_f p).

Lemma mark_F_false : forall anc e, mark_cond p anc e = false -> F anc e = Ok (None, CONTINUE).
Proof.
  intros anc e H. unfold F, wrap_visitor, mark_f. unfold mark_cond in H. rewrite H. reflexivity.
Qed.

Lemma mark_F_true : forall anc e, wf e = true -> mark_cond p anc e = true ->
  F anc e = Ok (Some [([], Marker_pure e)], REPLACE_AND_CONTINUE).
Proof.
  intros anc e W H. unfold F, wrap_visitor, mark_f. unfold mark_cond in H. rewrite H.
  rewrite deepcopy_wf by exact W. cbn [bind].
  rewrite mkMarker_ok.
  - reflexivity.
  - intro L. apply andb_true_iff in H as [_ H]. rewrite p_nonempty in H by exact L. discriminate.
Qed.

Lemma mark_F_range : forall anc e xs sig, True -> wf e = true -> F anc e = Ok (Some xs, sig) ->
  (sig = REPLACE_AND_STOP -> range_inv e (map snd xs)) /\
  (sig = REPLACE_AND_CONTINUE ->
     Forall (fun x => True /\ wf (snd x) = true /\
                      (int_fits (value (snd x)) = true \/ value (snd x) = value e)) xs /\
     ((List.length xs <= 1)%nat \/ fits_all (map snd xs))).
Proof.
  intros anc e xs sig _ W H. destruct (mark_cond p anc e) eqn:C.
  - rewrite mark_F_true in H by assumption. inversion H; subst. split; [discriminate|intros _].
    split; [constructor; [|constructor]|left; cbn; lia]. cbn [fst snd].
    split; [exact I|]. split; [|right; reflexivity].
    unfold Marker_pure. cbn [wf]. rewrite Z.eqb_refl, W.
    replace (Nat.eqb (len e) 0) with false; [reflexivity|]. symmetry. apply Nat.eqb_neq.
    intro L. unfold mark_cond in C. apply andb_true_iff in C as [_ C].
    rewrite p_nonempty in C by exact L. discriminate.
  - rewrite mark_F_false in H by exact C. discriminate.
Qed.

Lemma mark_range : forall n anc e rs, wf e = true ->
  _expr_map fid n F anc e = Ok rs -> range_inv e rs.
Proof.
  intros n anc e rs W E.
  exact (expr_map_range fid F (fun _ _ => True) (fun _ _ _ _ => I) mark_F_range n anc e rs I W E).
Qed.

Lemma mark_F_stop : forall anc e xs, True -> wf e = true ->
  F anc e = Ok (Some xs, REPLACE_AND_STOP) -> Forall (fun x => wf (snd x) = true) xs.
Proof.
  intros anc e xs _ W H. destruct (mark_cond p anc e) eqn:C.
  - rewrite mark_F_true in H by assumption. discriminate.
  - rewrite mark_F_false in H by exact C. discriminate.
Qed.

Lemma mark_wf : forall n anc e rs, wf e = true ->
  _expr_map fid n F anc e = Ok rs -> Forall (fun r => wf r = true) rs.
Proof.
  intros n anc e rs W E.
  exact (expr_map_wf fid F (fun _ _ => True) (fun _ _ _ _ => I) mark_F_range mark_F_stop
           n anc e rs I W E).
Qed.

Lemma mark_engine_wrap : forall e, wf e = true ->
  (forall anc, mark_cond p anc e = false -> forall n, (3 * expr_size e <= n + 2)%nat ->
     _expr_map fid n F anc e = Ok (mark_default p anc e)) ->
  forall anc n, (3 * expr_size e <= n)%nat -> _expr_map fid n F anc e = Ok (mark_visit p anc e).
Proof.
  intros e We H anc n Hn. rewrite mark_visit_eq.
  destruct (mark_cond p anc e) eqn:C; [|apply H; [exact C|lia]].
  pose proof (expr_size_pos e).
  destruct n as [|n]; [lia|]. cbn [_expr_map]. rewrite mark_F_true by assumption.
  cbn [bind concat_mapM fst snd].
  destruct n as [|n]; [lia|]. cbn [_expr_map].
  rewrite mark_F_false by reflexivity. cbn [bind].
  unfold Marker_pure at 1.
  rewrite H by (try apply mark_cond_under_marker; lia). cbn [bind].
  destruct (mark_inv e [Marker_pure e]) as [[N L] _].
  destruct (mark_default p [Marker_pure e] e) as [|x xs] eqn:D.
  { exfalso. unfold mark_cond in C. apply andb_true_iff in C as [_ C].
    rewrite p_nonempty in C; [discriminate|]. rewrite <- L. reflexivity. }
  rewrite <- D. rewrite List_maybe_ok; cycle 1.
  { rewrite D. exact N. }
  { apply (proj2 (mark_range n [Marker_pure e] e _ We
      (H [Marker_pure e] (mark_cond_under_marker p e) n ltac:(lia)))). }
  cbn [bind].
  rewrite mkMarker_ok by (rewrite len_List_maybe_pure; try rewrite D; rewrite L; unfold mark_cond in C;
    apply andb_true_iff in C as [_ C]; intro E; rewrite p_nonempty in C; congruence).
  reflexivity.
Qed.

Lemma mark_visit_range_of : forall e, wf e = true ->
  (forall anc, mark_cond p anc e = false -> forall n, (3 * expr_size e <= n + 2)%nat ->
     _expr_map fid n F anc e = Ok (mark_default p anc e)) ->
  forall anc, range_inv e (mark_visit p anc e).
Proof.
  intros e W H anc. apply (mark_range (3 * expr_size e) anc e); [exact W|].
  apply mark_engine_wrap; [exact W|exact H|lia].
Qed.

Lemma mark_engine_default : forall e, wf e = true -> forall anc,
  mark_cond p anc e = false -> forall n, (3 * expr_size e <= n + 2)%nat ->
  _expr_map fid n F anc e = Ok (mark_default p anc e).
Proof.
  induction e using expr_ind'; intros We anc C k Hn;
    (destruct k as [|k]; [simpl in Hn; lia|]);
    cbn [_expr_map]; rewrite mark_F_false by exact C; cbn [bind].
  - apply wf_Composition in We as [-> Wi]. cbn [expr_size] in Hn.
    rewrite (mark_engine_wrap e Wi (IHe Wi)) by lia. cbn [bind].
    rewrite List_maybe_ok; [reflexivity|apply mark_visit_inv|].
    exact (proj2 (mark_visit_range_of e Wi (IHe Wi) _)).
  - apply wf_List in We as [-> [NL Wc]].
    change (expr_size (List _ cs)) with (S (sum_size cs)) in Hn.
    apply concat_mapM_ok. intros c Hc. rewrite Forall_forall in H, Wc.
    pose proof (size_In c cs Hc).
    apply mark_engine_wrap; [auto|apply H; auto|lia].
  - reflexivity.
  - pose proof (wf_Concatenation_fits _ _ We) as Fc.
    apply wf_Concatenation in We as [NE [-> [L1 Wc]]].
    change (expr_size (Concatenation _ cs)) with (S (sum_size cs)) in Hn.
    rewrite (mapM_ok _ (fun c => List_maybe_pure (mark_visit p
               (Concatenation (np_sum_astype_int32 (map value cs)) cs :: anc) c))).
    + cbn [bind]. rewrite map_map.
      rewrite (map_ext_in _ (fun c => List_maybe_pure (mark_visit p
               (Concatenation (np_sum_astype_int32 (map value cs)) cs :: anc) c))).
      * rewrite mkConcatenation_ok; [reflexivity| | |].
        { destruct cs; [congruence|discriminate]. }
        2:{ unfold fits_all in Fc |- *. rewrite Forall_map. rewrite Forall_forall in Fc, H, Wc |- *.
            intros c Hc. apply List_maybe_pure_fits, (range_inv_fits c); [apply Fc, Hc|].
            apply (mark_visit_range_of c (Wc c Hc) (H c Hc (Wc c Hc))). }
        { apply Forall_forall. intros x Hx. apply in_map_iff in Hx as [c [<- Hc]].
          rewrite len_List_maybe_pure. destruct (mark_visit_inv c
            (Concatenation (np_sum_astype_int32 (map value cs)) cs :: anc)) as [_ ->].
          rewrite Forall_forall in L1. apply L1, Hc. }
      * intros c Hc. rewrite len_List_maybe_pure. destruct (mark_visit_inv c
          (Concatenation (np_sum_astype_int32 (map value cs)) cs :: anc)) as [_ ->].
        rewrite Forall_forall in L1. rewrite (L1 c Hc). reflexivity.
    + intros c Hc. rewrite Forall_forall in H, Wc.
      pose proof (size_In c cs Hc).
      rewrite mark_engine_wrap; [|auto|apply H; auto|lia]. cbn [bind].
      apply List_maybe_ok; [apply mark_visit_inv|].
      exact (proj2 (mark_visit_range_of c (Wc c Hc) (H c Hc (Wc c Hc)) _)).
  - apply wf_Marker in We as [-> [Li Wi]]. cbn [expr_size] in Hn.
    rewrite (mark_engine_wrap e Wi (IHe Wi)) by lia. cbn [bind mark_default].
    destruct (mark_visit_inv e (Marker (value e) e :: anc)) as [N L].
    pose proof (mark_visit_range_of e Wi (IHe Wi) (Marker (value e) e :: anc)) as R.
    destruct (mark_visit p (Marker (value e) e :: anc) e) as [|x xs] eqn:D; [reflexivity|].
    rewrite <- D. rewrite List_maybe_ok; [|rewrite D; exact N|first [exact (proj2 R)|rewrite D; exact (proj2 R)]].
    cbn [bind].
    rewrite mkMarker_ok by (rewrite len_List_maybe_pure, D, L; exact Li).
    reflexivity.
Qed.

Lemma mark_engine : forall e anc n, wf e = true -> (3 * expr_size e <= n)%nat ->
  _expr_map fid n F anc e = Ok (mark_visit p anc e).
Proof.
  intros e anc n We Hn. apply mark_engine_wrap; [exact We| |exact Hn].
  intros. apply mark_engine_default; assumption.
Qed.
End MarkEngine.

Lemma mark_visit_range : forall p, (forall anc e, len e = 0%nat -> p anc e = false) ->
  forall anc e, wf e = true -> range_inv e (mark_visit p anc e).
Proof.
  intros p Hp anc e W. apply (mark_range ""%string p Hp (3 * expr_size e) anc e); [exact W|].
  apply (mark_engine _ p Hp); [exact W|lia].
Qed.

(** C9 (corrected): on a constructed tree, and for a predicate that selects
    no empty node, [mark t p] is [List.maybe] of [mark_visit p [] t]: a node
    is wrapped when it satisfies [p], is not a Marker and its direct parent
    is not a Marker, and the traversal continues inside the fresh Marker, so
    Markers can nest. *)
Theorem C9_mark_refines : forall fid p t,
  wf t = true -> (forall anc e, len e = 0%nat -> p anc e = false) ->
  mark fid t p = Ok (List_maybe_pure (mark_visit p [] t)).
Proof.
  intros fid p t Wt Hp. unfold mark, expr_map.
  rewrite (mark_engine fid p Hp t [] (fuel_for t) Wt) by (unfold fuel_for; lia).
  cbn [bind]. apply List_maybe_ok; [apply (mark_visit_inv p)|].
  exact (proj2 (mark_visit_range p Hp [] t Wt)).
Qed.

(** *** [demark] *)

Lemma demarked_not_List : forall e, demarked false e = true -> is_List e = false.
Proof. intros [] H; simpl in *; try reflexivity; discriminate. Qed.

Lemma demarked_len : forall e, demarked false e = true -> len e = 1%nat.
Proof. intros [] H; simpl in *; try reflexivity; discriminate. Qed.

Lemma demarked_true : forall e, demarked false e = true -> demarked true e = true.
Proof. intros [] H; simpl in *; try reflexivity; try discriminate; exact H. Qed.

Lemma demarked_true_nonList : forall e, is_List e = false -> demarked true e = demarked false e.
Proof. intros [] H; simpl in *; try reflexivity; discriminate. Qed.

Lemma demarked_List_maybe_pure : forall xs,
  Forall (fun x => demarked false x = true) xs -> demarked true (List_maybe_pure xs) = true.
Proof.
  intros [|x [|y xs]] H; simpl.
  - reflexivity.
  - inversion H; subst. apply demarked_true. assumption.
  - inversion H as [|? ? Hx H']; subst. inversion H' as [|? ? Hy H'']; subst.
    rewrite Hx, Hy. simpl. apply forallb_forall. rewrite Forall_forall in H''. exact H''.
Qed.

Lemma Forall_demarked_not_List : forall xs,
  Forall (fun x => demarked false x = true) xs -> Forall (fun x => is_List x = false) xs.
Proof. intros xs H. eapply Forall_impl; [|exact H]. apply demarked_not_List. Qed.

Lemma expr_eqb_refl : forall e, expr_eqb e e = true.
Proof.
  assert (A : forall n v, Axis_eqb n v n v = true).
  { intros n v. unfold Axis_eqb. rewrite Bool.eqb_reflx, Z.eqb_refl. simpl.
    destruct (is_unnamed_name n); [reflexivity|apply String.eqb_refl]. }
  induction e using expr_ind'; simpl; try assumption; try apply A;
    induction H; simpl; try reflexivity; rewrite H; exact IHForall.
Qed.

Lemma expr_eqb_children : forall xs ys,
  Forall2 (fun x y => expr_eqb x y = true) xs ys ->
  forall v w, expr_eqb (List v xs) (List w ys) = true /\
              expr_eqb (Concatenation v xs) (Concatenation w ys) = true.
Proof.
  intros xs ys H. induction H as [|x y xs ys Hxy _ IH]; intros v w; simpl; [auto|].
  destruct (IH v w) as [IH1 IH2]. simpl in IH1, IH2. rewrite Hxy. auto.
Qed.

Lemma concat_mapM_map : forall {A B C} (g : B -> res (list C)) (h : A -> B) xs,
  concat_mapM g (map h xs) = concat_mapM (fun x => g (h x)) xs.
Proof. intros. induction xs as [|x xs IH]; simpl; [reflexivity|]. rewrite IH. reflexivity. Qed.

Lemma concat_mapM_exists : forall {A B} (g : A -> res (list B)) (Q : B -> Prop) (m : A -> nat) xs,
  (forall x, In x xs -> exists r, g x = Ok r /\ Forall Q r /\ List.length r = m x) ->
  exists rs, concat_mapM g xs = Ok rs /\ Forall Q rs /\
             List.length rs = fold_right (fun x n => (m x + n)%nat) 0%nat xs.
Proof.
  intros A B g Q m xs H. induction xs as [|x xs IH]; simpl.
  - exists []. auto.
  - destruct (H x (or_introl eq_refl)) as [r [E [F L]]]. rewrite E. cbn [bind].
    destruct IH as [rs [E' [F' L']]]; [intros; apply H; right; assumption|].
    rewrite E'. cbn [bind]. exists (r ++ rs). split; [reflexivity|].
    split; [apply Forall_app; auto|]. rewrite length_app. lia.
Qed.

Lemma concat_mapM_singletons : forall {A B} (g : A -> res (list B)) (R : B -> A -> Prop) xs,
  (forall x, In x xs -> exists y, g x = Ok [y] /\ R y x) ->
  exists ys, concat_mapM g xs = Ok ys /\ Forall2 R ys xs.
Proof.
  intros A B g R xs H. induction xs as [|x xs IH]; simpl.
  - exists []. auto.
  - destruct (H x (or_introl eq_refl)) as [y [E Ry]]. rewrite E. cbn [bind].
    destruct IH as [ys [E' F']]; [intros; apply H; right; assumption|].
    rewrite E'. cbn [bind]. exists (y :: ys). auto.
Qed.

Lemma mapM_exists : forall {A B} (g : A -> res B) (R : B -> A -> Prop) xs,
  (forall x, In x xs -> exists y, g x = Ok y /\ R y x) ->
  exists ys, mapM g xs = Ok ys /\ Forall2 R ys xs.
Proof.
  intros A B g R xs H. induction xs as [|x xs IH]; simpl.
  - exists []. auto.
  - destruct (H x (or_introl eq_refl)) as [y [E Ry]]. rewrite E. cbn [bind].
    destruct IH as [ys [E' F']]; [intros; apply H; right; assumption|].
    rewrite E'. cbn [bind]. exists (y :: ys). auto.
Qed.

Lemma Forall2_Forall_l : forall {A B} (R : A -> B -> Prop) (Q : A -> Prop) xs ys,
  Forall2 R xs ys -> (forall x y, R x y -> Q x) -> Forall Q xs.
Proof. intros A B R Q xs ys H HQ. induction H; constructor; eauto. Qed.

Lemma Forall2_length' : forall {A B} (R : A -> B -> Prop) xs ys,
  Forall2 R xs ys -> List.length xs = List.length ys.
Proof. intros A B R xs ys H. induction H; simpl; congruence. Qed.

(** The placeholder substitution in the Concatenation case of [_expr_map]
    leaves children of length 1 alone. *)
Lemma placeholder_noop : forall fid xs,
  Forall (fun x => len x = 1%nat) xs ->
  map (fun c => if Nat.ltb 0 (len c) then c else mkAxis None fid 1) xs = xs.
Proof.
  intros fid xs H. induction H as [|x xs Hx _ IH]; simpl; [reflexivity|].
  rewrite Hx, IH. reflexivity.
Qed.

Section DemarkEngine.
Variable fid : string.
Let F := wrap_visitor demark_f.

Lemma demark_F_nonMarker : forall anc e, is_Marker e = false -> F anc e = Ok (None, CONTINUE).
Proof. intros anc [] H; try reflexivity; discriminate. Qed.

Lemma demark_F_range : forall anc e xs sig, True -> wf e = true -> F anc e = Ok (Some xs, sig) ->
  (sig = REPLACE_AND_STOP -> range_inv e (map snd xs)) /\
  (sig = REPLACE_AND_CONTINUE ->
     Forall (fun x => True /\ wf (snd x) = true /\
                      (int_fits (value (snd x)) = true \/ value (snd x) = value e)) xs /\
     ((List.length xs <= 1)%nat \/ fits_all (map snd xs))).
Proof.
  intros anc [v i|v cs|m v|v cs|v i] xs sig _ W H; try discriminate.
  pose proof (proj2 (proj2 (wf_Marker _ _ W))) as Wi. apply wf_Marker in W as [-> _].
  pose proof (wrap_RetExpr_range (fun _ _ => True) (Marker (value i) i) (Marker (value i) i :: anc) i
                Wi (or_intror eq_refl) (fun _ _ => I)) as R.
  unfold F, wrap_visitor, demark_f in H. cbn [bind] in H.
  destruct i; cbv beta iota zeta in R; inversion H; subst; (split; [discriminate|intros _; exact R]).
Qed.

Lemma demark_F_stop : forall anc e xs, True -> wf e = true ->
  F anc e = Ok (Some xs, REPLACE_AND_STOP) -> Forall (fun x => wf (snd x) = true) xs.
Proof.
  intros anc [v i|v cs|m v|v cs|v i] xs _ W H; try discriminate.
  unfold F, wrap_visitor, demark_f in H. cbn [bind] in H. destruct i; discriminate.
Qed.

Lemma demark_range : forall n anc e rs, wf e = true ->
  _expr_map fid n F anc e = Ok rs -> range_inv e rs /\ Forall (fun r => wf r = true) rs.
Proof.
  intros n anc e rs W E. split.
  - exact (expr_map_range fid F (fun _ _ => True) (fun _ _ _ _ => I) demark_F_range n anc e rs I W E).
  - exact (expr_map_wf fid F (fun _ _ => True) (fun _ _ _ _ => I) demark_F_range demark_F_stop
             n anc e rs I W E).
Qed.

Lemma demark_engine_wf : forall e, wf e = true -> forall anc n, (expr_size e <= n)%nat ->
  exists rs, _expr_map fid n F anc e = Ok rs /\
    Forall (fun r => demarked false r = true) rs /\ List.length rs = len e.
Proof.
  induction e using expr_ind'; intros We anc k Hn;
    (destruct k as [|k]; [simpl in Hn; lia|]).
  - apply wf_Composition in We as [-> Wi]. cbn [expr_size] in Hn.
    cbn [_expr_map]. rewrite demark_F_nonMarker by reflexivity. cbn [bind].
    destruct (IHe Wi (Composition (value e) e :: anc) k) as [rs [E [N L]]]; [lia|].
    rewrite E. cbn [bind].
    rewrite List_maybe_ok; [|apply Forall_demarked_not_List; exact N|apply (demark_range _ _ _ _ Wi E)].
    cbn [bind]. eexists. split; [reflexivity|]. split; [|reflexivity].
    constructor; [|constructor]. simpl. apply demarked_List_maybe_pure, N.
  - apply wf_List in We as [-> [NL Wc]].
    change (expr_size (List _ cs)) with (S (sum_size cs)) in Hn.
    cbn [_expr_map]. rewrite demark_F_nonMarker by reflexivity. cbn [bind].
    apply (concat_mapM_exists _ _ len). intros c Hc. rewrite Forall_forall in H, Wc.
    pose proof (size_In c cs Hc). apply H; auto. lia.
  - cbn [_expr_map]. rewrite demark_F_nonMarker by reflexivity. cbn [bind deepcopy].
    eexists. split; [reflexivity|]. split; [repeat constructor|reflexivity].
  - pose proof (wf_Concatenation_fits _ _ We) as Fc.
    apply wf_Concatenation in We as [NE [-> [L1 Wc]]].
    change (expr_size (Concatenation _ cs)) with (S (sum_size cs)) in Hn.
    cbn [_expr_map]. rewrite demark_F_nonMarker by reflexivity. cbn [bind].
    set (e0 := Concatenation (np_sum_astype_int32 (map value cs)) cs).
    destruct (mapM_exists (fun c => let* xs := _expr_map fid k F (e0 :: anc) c in List_maybe xs)
                (fun y c => demarked false y = true /\ int_fits (value y) = true) cs) as [ys [E R]].
    { intros c Hc. unfold fits_all in Fc. rewrite Forall_forall in H, Wc, L1, Fc.
      pose proof (size_In c cs Hc).
      destruct (H c Hc (Wc c Hc) (e0 :: anc) k)
        as [rs [E [N L]]]; [lia|].
      pose proof (range_inv_fits c rs (Fc c Hc) (proj1 (demark_range _ _ _ _ (Wc c Hc) E))) as Fr.
      rewrite E. cbn [bind]. rewrite L1 in L by exact Hc.
      destruct rs as [|x [|y rs]]; try discriminate. inversion N; inversion Fr; subst.
      exists x. auto. }
    rewrite E. cbn [bind].
    assert (Ny : Forall (fun y => demarked false y = true) ys)
      by (eapply Forall2_Forall_l; [exact R|]; intros x y [? ?]; assumption).
    assert (Fy : fits_all ys)
      by (eapply Forall2_Forall_l; [exact R|]; intros x y [? ?]; assumption).
    rewrite placeholder_noop
      by (eapply Forall_impl; [|exact Ny]; apply demarked_len).
    rewrite mkConcatenation_ok.
    + cbn [bind]. eexists. split; [reflexivity|]. split; [|reflexivity].
      constructor; [|constructor]. simpl. apply andb_true_iff. split.
      * apply Forall2_length' in R. destruct ys; [destruct cs; simpl in R; congruence|].
        reflexivity.
      * apply forallb_forall. rewrite Forall_forall in Ny. exact Ny.
    + apply Forall2_length' in R. destruct ys; [destruct cs; simpl in R; congruence|].
      discriminate.
    + eapply Forall_impl; [|exact Ny]. apply demarked_len.
    + exact Fy.
  - apply wf_Marker in We as [-> [Li Wi]]. cbn [expr_size] in Hn.
    destruct (IHe Wi (Marker (value e) e :: anc) (S k)) as [rs [E [N L]]]; [lia|].
    destruct e as [w i|w cs|m w|w cs|w i];
      cbn [_expr_map F wrap_visitor demark_f bind concat_mapM fst snd].
    + destruct (IHe Wi (Marker (value (Composition w i)) (Composition w i) :: anc) k)
        as [rs' [E' [N' L']]]; [cbn [expr_size] in Hn |- *; lia|].
      rewrite E'. cbn [bind]. exists (rs' ++ []). rewrite app_nil_r. auto.
    + rewrite concat_mapM_map. cbn [fst snd].
      cbn [_expr_map] in E. rewrite demark_F_nonMarker in E by reflexivity.
      cbn [bind] in E. exists rs. split; [exact E|]. auto.
    + destruct (IHe Wi (Marker (value (Axis m w)) (Axis m w) :: anc) k)
        as [rs' [E' [N' L']]]; [cbn [expr_size] in Hn |- *; lia|].
      rewrite E'. cbn [bind]. exists (rs' ++ []). rewrite app_nil_r. auto.
    + destruct (IHe Wi (Marker (value (Concatenation w cs)) (Concatenation w cs) :: anc) k)
        as [rs' [E' [N' L']]]; [cbn [expr_size] in Hn |- *; lia|].
      rewrite E'. cbn [bind]. exists (rs' ++ []). rewrite app_nil_r. auto.
    + destruct (IHe Wi (Marker (value (Marker w i)) (Marker w i) :: anc) k)
        as [rs' [E' [N' L']]]; [cbn [expr_size] in Hn |- *; lia|].
      rewrite E'. cbn [bind]. exists (rs' ++ []). rewrite app_nil_r. auto.
Qed.

Lemma demark_engine_nf : forall e anc n, wf e = true -> (expr_size e <= n)%nat ->
  (demarked false e = true -> exists x, _expr_map fid n F anc e = Ok [x] /\
     demarked false x = true /\ expr_eqb x e = true) /\
  (demarked true e = true -> exists rs, _expr_map fid n F anc e = Ok rs /\
     Forall (fun r => demarked false r = true) rs /\ expr_eqb (List_maybe_pure rs) e = true).
Proof.
  assert (Lift : forall e anc n, is_List e = false ->
    (demarked false e = true -> exists x, _expr_map fid n F anc e = Ok [x] /\
       demarked false x = true /\ expr_eqb x e = true) ->
    (demarked true e = true -> exists rs, _expr_map fid n F anc e = Ok rs /\
       Forall (fun r => demarked false r = true) rs /\ expr_eqb (List_maybe_pure rs) e = true)).
  { intros e anc n NL H D. rewrite demarked_true_nonList in D by exact NL.
    destruct (H D) as [x [E [Dx Q]]]. exists [x]. auto. }
  induction e using expr_ind'; intros anc k W Hn;
    (destruct k as [|k]; [simpl in Hn; lia|]).
  - cbn [expr_size] in Hn. apply wf_Composition in W as [Ve We]. subst v.
    enough (A : demarked false (Composition (value e) e) = true -> exists x,
      _expr_map fid (S k) F anc (Composition (value e) e) = Ok [x] /\
      demarked false x = true /\ expr_eqb x (Composition (value e) e) = true)
      by (split; [exact A|apply Lift; [reflexivity|exact A]]).
    intro D. cbn [demarked] in D.
    destruct (IHe (Composition (value e) e :: anc) k We) as [_ IH2]; [lia|].
    destruct (IH2 D) as [rs [E [N Q]]].
    cbn [_expr_map]. rewrite demark_F_nonMarker by reflexivity. cbn [bind].
    rewrite E. cbn [bind].
    rewrite List_maybe_ok; [|apply Forall_demarked_not_List; exact N|apply (demark_range _ _ _ _ We E)].
    cbn [bind]. eexists. split; [reflexivity|]. split; [apply demarked_List_maybe_pure, N|].
    exact Q.
  - change (expr_size (List _ cs)) with (S (sum_size cs)) in Hn.
    apply wf_List in W as [_ [_ Wc]]. rewrite Forall_forall in Wc.
    split; [discriminate|]. intro D. cbn [demarked] in D.
    apply andb_true_iff in D as [D1 D2]. rewrite forallb_forall in D2.
    cbn [_expr_map]. rewrite demark_F_nonMarker by reflexivity. cbn [bind].
    destruct (concat_mapM_singletons (_expr_map fid k F (List v cs :: anc))
                (fun x c => demarked false x = true /\ expr_eqb x c = true) cs) as [xs [E R]].
    { intros c Hc. rewrite Forall_forall in H. pose proof (size_In c cs Hc).
      destruct (H c Hc (List v cs :: anc) k (Wc c Hc)) as [IH1 _]; [lia|].
      destruct (IH1 (D2 c Hc)) as [x [Ex [Dx Qx]]]. eauto. }
    exists xs. split; [exact E|]. split.
    + eapply Forall2_Forall_l; [exact R|]. intros x y [? ?]; assumption.
    + assert (Lx : List.length xs <> 1%nat).
      { apply Forall2_length' in R. rewrite R. apply negb_true_iff, Nat.eqb_neq in D1.
        exact D1. }
      replace (List_maybe_pure xs) with (List_pure xs)
        by (destruct xs as [|x [|y xs]]; simpl in Lx; [reflexivity|lia|reflexivity]).
      apply expr_eqb_children. eapply Forall2_impl; [|exact R]. intros x y [_ Q]. exact Q.
  - enough (A : demarked false (Axis n v) = true -> exists x,
      _expr_map fid (S k) F anc (Axis n v) = Ok [x] /\
      demarked false x = true /\ expr_eqb x (Axis n v) = true)
      by (split; [exact A|apply Lift; [reflexivity|exact A]]).
    intros _. exists (Axis n v). split; [reflexivity|]. split; [reflexivity|].
    apply expr_eqb_refl.
  - change (expr_size (Concatenation _ cs)) with (S (sum_size cs)) in Hn.
    pose proof (wf_Concatenation_fits _ _ W) as Fc. unfold fits_all in Fc.
    apply wf_Concatenation in W as [_ [_ [_ Wc]]]. rewrite Forall_forall in Wc, Fc.
    enough (A : demarked false (Concatenation v cs) = true -> exists x,
      _expr_map fid (S k) F anc (Concatenation v cs) = Ok [x] /\
      demarked false x = true /\ expr_eqb x (Concatenation v cs) = true)
      by (split; [exact A|apply Lift; [reflexivity|exact A]]).
    intro D. cbn [demarked] in D. apply andb_true_iff in D as [D1 D2].
    rewrite forallb_forall in D2.
    cbn [_expr_map]. rewrite demark_F_nonMarker by reflexivity. cbn [bind].
    destruct (mapM_exists
      (fun c => let* xs := _expr_map fid k F (Concatenation v cs :: anc) c in List_maybe xs)
      (fun x c => demarked false x = true /\ expr_eqb x c = true /\ int_fits (value x) = true) cs)
      as [xs [E R]].
    { intros c Hc. rewrite Forall_forall in H. pose proof (size_In c cs Hc).
      destruct (H c Hc (Concatenation v cs :: anc) k (Wc c Hc)) as [IH1 _]; [lia|].
      destruct (IH1 (D2 c Hc)) as [x [Ex [Dx Qx]]].
      pose proof (range_inv_fits c _ (Fc c Hc) (proj1 (demark_range _ _ _ _ (Wc c Hc) Ex))) as Fx.
      inversion Fx; subst.
      rewrite Ex. cbn [bind List_maybe]. eauto. }
    rewrite E. cbn [bind].
    assert (Nx : Forall (fun y => demarked false y = true) xs)
      by (eapply Forall2_Forall_l; [exact R|]; intros x y [? ?]; assumption).
    rewrite placeholder_noop
      by (eapply Forall_impl; [|exact Nx]; apply demarked_len).
    assert (NE : xs <> []).
    { apply Forall2_length' in R. destruct xs; [|discriminate].
      destruct cs; [discriminate|discriminate]. }
    rewrite mkConcatenation_ok; [| exact NE | |].
    + cbn [bind]. eexists. split; [reflexivity|]. split.
      * simpl. apply andb_true_iff. split.
        { destruct xs; [congruence|reflexivity]. }
        { apply forallb_forall. rewrite Forall_forall in Nx. exact Nx. }
      * apply expr_eqb_children. eapply Forall2_impl; [|exact R]. intros x y [_ [Q _]]. exact Q.
    + eapply Forall_impl; [|exact Nx]. apply demarked_len.
    + eapply Forall2_Forall_l; [exact R|]. intros x y [_ [_ Q]]. exact Q.
  - split; discriminate.
Qed.
End DemarkEngine.

(** C6: for every tree the constructors can build, [demark] succeeds on it
    and on its result, and [demark (demark t) == demark t]. *)
Theorem C6_demark_idempotent : forall fid t, wf t = true ->
  exists d, demark fid t = Ok d /\
  exists d', demark fid d = Ok d' /\ expr_eqb d' d = true.
Proof.
  intros fid t Wt. unfold demark, expr_map.
  destruct (demark_engine_wf fid t Wt [] (fuel_for t)) as [rs [E [N _]]];
    [unfold fuel_for; lia|].
  destruct (demark_range fid _ _ _ _ Wt E) as [Rt Wr].
  assert (M : List_maybe rs = Ok (List_maybe_pure rs))
    by (apply List_maybe_ok; [apply Forall_demarked_not_List; exact N|apply Rt]).
  rewrite E. cbn [bind]. rewrite M.
  eexists. split; [reflexivity|].
  destruct (demark_engine_nf fid (List_maybe_pure rs) [] (fuel_for (List_maybe_pure rs)))
    as [_ B]; [apply (List_maybe_wf rs _ M Wr)|unfold fuel_for; lia|].
  destruct (B (demarked_List_maybe_pure rs N)) as [rs' [E' [N' Q]]].
  rewrite E'. cbn [bind].
  rewrite List_maybe_ok; [|apply Forall_demarked_not_List; exact N'|].
  2:{ apply (demark_range fid _ _ _ _ (List_maybe_wf rs _ M Wr) E'). }
  eexists. split; [reflexivity|exact Q].
Qed.

(** *** [remove_unnamed_trivial_axes] *)

Lemma survivors_children : forall anc e cs,
  flat_map (fun p => axis_key (snd p))
    (filter (fun p => negb (unnamed_trivial (snd p)) || reaches_concatenation (fst p))
       (flat_map (located_axes (e :: anc)) cs)) = flat_map (survivors (e :: anc)) cs.
Proof.
  intros anc e cs. induction cs as [|c cs IH]; cbn [flat_map]; [reflexivity|].
  rewrite filter_app, flat_map_app. f_equal. exact IH.
Qed.

Lemma axis_keys_children : forall cs,
  flat_map axis_key (filter is_Axis (flat_map all cs)) = flat_map axis_keys cs.
Proof.
  intros cs. induction cs as [|c cs IH]; cbn [flat_map]; [reflexivity|].
  rewrite filter_app, flat_map_app. f_equal. exact IH.
Qed.

Lemma axis_keys_List : forall v cs, axis_keys (List v cs) = keys cs.
Proof. intros. apply axis_keys_children. Qed.

Lemma axis_keys_Concatenation : forall v cs, axis_keys (Concatenation v cs) = keys cs.
Proof. intros. apply axis_keys_children. Qed.

Lemma keys_app : forall xs ys, keys (xs ++ ys) = keys xs ++ keys ys.
Proof. intros. apply flat_map_app. Qed.

Lemma keys_single : forall x, keys [x] = axis_keys x.
Proof. intros. unfold keys. simpl. apply app_nil_r. Qed.

Lemma axis_keys_List_maybe_pure : forall xs, axis_keys (List_maybe_pure xs) = keys xs.
Proof.
  intros [|x [|y xs]]; try apply axis_keys_List. exact (eq_sym (keys_single x)).
Qed.

Lemma is_concat_child_reaches : forall anc,
  is_concat_child anc = true -> reaches_concatenation anc = true.
Proof.
  induction anc as [|p rest IH]; simpl; [discriminate|].
  destruct p; simpl; try discriminate; auto.
Qed.

Lemma sum_len_one : forall cs, Forall (fun c => (1 <= len c)%nat) cs ->
  sum_len cs = 1%nat -> List.length cs = 1%nat.
Proof.
  intros cs H. inversion H as [|c cs' Hc H' E]; subst; [discriminate|].
  inversion H' as [|d ds Hd _ E']; subst; [reflexivity|]. simpl. lia.
Qed.

Lemma concat_mapM_Forall2 : forall {A B} (g : A -> res (list B)) (R : list B -> A -> Prop) xs,
  (forall x, In x xs -> exists r, g x = Ok r /\ R r x) ->
  exists rss, concat_mapM g xs = Ok (List.concat rss) /\ Forall2 R rss xs.
Proof.
  intros A B g R xs H. induction xs as [|x xs IH]; simpl.
  - exists []. auto.
  - destruct (H x (or_introl eq_refl)) as [r [E Rr]]. rewrite E. cbn [bind].
    destruct IH as [rss [E' F']]; [intros; apply H; right; assumption|].
    rewrite E'. cbn [bind]. exists (r :: rss). auto.
Qed.

Lemma prefix_app : forall s t, String.prefix s (s ++ t) = true.
Proof.
  induction s as [|a s IH]; intro t; simpl; [destruct t; reflexivity|].
  destruct (ascii_dec a a) as [_|N]; [apply IH|congruence].
Qed.

Lemma unnamed_placeholder : forall fid, axis_keys (mkAxis None fid 1) = [(None, 1)].
Proof.
  intros fid. unfold axis_keys, get_axes, mkAxis, axis_name. cbn [all filter is_Axis flat_map].
  unfold axis_key, is_unnamed_name. rewrite prefix_app. reflexivity.
Qed.

Lemma sum_len_pos : forall rs, Forall (fun r => is_List r = false /\ (1 <= len r)%nat) rs ->
  rs <> [] -> (1 <= sum_len rs)%nat.
Proof. intros rs H NE. destruct H as [|r rs [_ L] _]; [congruence|]. simpl. lia. Qed.

Lemma removal_inv_concat : forall anc' rss cs,
  Forall2 (fun r c => removal_inv anc' c r) rss cs ->
  Forall (fun r => is_List r = false /\ (1 <= len r)%nat) (List.concat rss) /\
  (sum_len (List.concat rss) <= sum_len cs)%nat /\
  (reaches_concatenation anc' = false -> keys (List.concat rss) = flat_map (survivors anc') cs).
Proof.
  intros anc' rss cs H. induction H as [|r c rss cs [N [S [_ K]]] _ [IH1 [IH2 IH3]]].
  - split; [constructor|]. split; [simpl; lia|]. reflexivity.
  - cbn [List.concat flat_map]. split; [apply Forall_app; auto|].
    split; [rewrite sum_len_app; simpl; lia|].
    intro R. rewrite keys_app, IH3 by exact R. rewrite K by auto. reflexivity.
Qed.

Lemma survivors_List : forall anc v cs,
  survivors anc (List v cs) = flat_map (survivors (List v cs :: anc)) cs.
Proof. intros. unfold survivors at 1. cbn [located_axes]. apply survivors_children. Qed.

Lemma survivors_Concatenation : forall anc v cs,
  survivors anc (Concatenation v cs) = flat_map (survivors (Concatenation v cs :: anc)) cs.
Proof. intros. unfold survivors at 1. cbn [located_axes]. apply survivors_children. Qed.

Lemma keys_placeholders : forall fid anc' ys cs,
  Forall2 (fun y c => axis_keys (placeholder fid y) = survivors anc' c) ys cs ->
  keys (map (placeholder fid) ys) = flat_map (survivors anc') cs.
Proof.
  intros fid anc' ys cs H. induction H as [|y c ys cs Q _ IH]; [reflexivity|].
  cbn [map flat_map]. unfold keys in *. cbn [flat_map]. rewrite Q, IH. reflexivity.
Qed.

Lemma Forall2_In_l : forall {A B} {R : A -> B -> Prop} {xs ys} x,
  Forall2 R xs ys -> In x xs -> exists y, In y ys /\ R x y.
Proof.
  intros A B R xs ys x H. induction H as [|a b xs ys Rab _ IH]; simpl; [tauto|].
  intros [<-|Hx]; [eauto|]. destruct (IH Hx) as [y [Hy Ry]]. eauto.
Qed.

Lemma placeholder_fits : forall fid y, int_fits (value y) = true ->
  int_fits (value (placeholder fid y)) = true.
Proof. intros fid y H. unfold placeholder. destruct (Nat.ltb 0 (len y)); [exact H|reflexivity]. Qed.

Lemma remove_F_range : forall pred anc e xs sig, True -> wf e = true ->
  wrap_visitor (remove_f pred) anc e = Ok (Some xs, sig) ->
  (sig = REPLACE_AND_STOP -> range_inv e (map snd xs)) /\
  (sig = REPLACE_AND_CONTINUE ->
     Forall (fun x => True /\ wf (snd x) = true /\
                      (int_fits (value (snd x)) = true \/ value (snd x) = value e)) xs /\
     ((List.length xs <= 1)%nat \/ fits_all (map snd xs))).
Proof.
  intros pred anc e xs sig _ _ H. unfold wrap_visitor, remove_f in H.
  destruct (pred anc e); cbn [bind] in H; inversion H; subst.
  split; [intros _; split; [constructor|left; cbn; lia]|discriminate].
Qed.

Lemma remove_F_stop : forall pred anc e xs, True -> wf e = true ->
  wrap_visitor (remove_f pred) anc e = Ok (Some xs, REPLACE_AND_STOP) ->
  Forall (fun x => wf (snd x) = true) xs.
Proof.
  intros pred anc e xs _ _ H. unfold wrap_visitor, remove_f in H.
  destruct (pred anc e); cbn [bind] in H; inversion H; subst. constructor.
Qed.

Lemma remove_range : forall fid pred n anc e rs, wf e = true ->
  _expr_map fid n (wrap_visitor (remove_f pred)) anc e = Ok rs ->
  range_inv e rs /\ Forall (fun r => wf r = true) rs.
Proof.
  intros fid pred n anc e rs W E. split.
  - exact (expr_map_range fid _ (fun _ _ => True) (fun _ _ _ _ => I) (remove_F_range pred)
             n anc e rs I W E).
  - exact (expr_map_wf fid _ (fun _ _ => True) (fun _ _ _ _ => I) (remove_F_range pred)
             (remove_F_stop pred) n anc e rs I W E).
Qed.

Section RemoveEngine.
Variable fid : string.
Let F := wrap_visitor (remove_f trivial_pred).

Lemma remove_F_true : forall anc e, trivial_pred anc e = true ->
  F anc e = Ok (Some [], REPLACE_AND_STOP).
Proof. intros anc e H. unfold F, wrap_visitor, remove_f. rewrite H. reflexivity. Qed.

Lemma remove_F_false : forall anc e, trivial_pred anc e = false ->
  F anc e = Ok (None, CONTINUE).
Proof. intros anc e H. unfold F, wrap_visitor, remove_f. rewrite H. reflexivity. Qed.

Lemma remove_engine : forall e, wf e = true -> forall anc n, (expr_size e <= n)%nat ->
  exists rs, _expr_map fid n F anc e = Ok rs /\ removal_inv anc e rs.
Proof.
  induction e using expr_ind'; intros We anc k Hn;
    (destruct k as [|k]; [simpl in Hn; lia|]).
  - (* Composition *)
    apply wf_Composition in We as [-> Wi]. cbn [expr_size] in Hn.
    cbn [_expr_map]. rewrite remove_F_false by reflexivity. cbn [bind].
    destruct (IHe Wi (Composition (value e) e :: anc) k) as [rs [E [N [S [X K]]]]]; [lia|].
    rewrite E. cbn [bind].
    rewrite List_maybe_ok; [|eapply Forall_impl; [|exact N]; intros r [? ?]; assumption|].
    2:{ apply (remove_range fid trivial_pred _ _ _ _ Wi E). }
    cbn [bind]. eexists. split; [reflexivity|].
    split; [repeat constructor|]. split; [simpl; lia|]. split; [discriminate|].
    intros _. rewrite keys_single. unfold mkComposition.
    change (axis_keys (Composition (value (List_maybe_pure rs)) (List_maybe_pure rs)))
      with (axis_keys (List_maybe_pure rs)).
    rewrite axis_keys_List_maybe_pure. apply K. right. left. reflexivity.
  - (* List *)
    apply wf_List in We as [-> [NL Wc]].
    change (expr_size (List _ cs)) with (S (sum_size cs)) in Hn.
    cbn [_expr_map]. rewrite remove_F_false by reflexivity. cbn [bind].
    set (e0 := List (np_prod_astype_int (map value cs)) cs).
    destruct (concat_mapM_Forall2 (_expr_map fid k F (e0 :: anc))
                (fun r c => removal_inv (e0 :: anc) c r) cs) as [rss [E R]].
    { intros c Hc. rewrite Forall_forall in H, Wc. pose proof (size_In c cs Hc).
      apply H; [exact Hc|apply Wc, Hc|lia]. }
    exists (List.concat rss). split; [exact E|].
    assert (Pos : Forall (fun c => (1 <= len c)%nat) cs).
    { apply Forall_forall. intros c Hc. rewrite Forall_forall in NL, Wc.
      apply wf_len_pos; auto. }
    destruct (removal_inv_concat (e0 :: anc) rss cs R) as [C1 [C2 C3]].
    assert (Se : survivors anc e0 = flat_map (survivors (e0 :: anc)) cs)
      by apply survivors_List.
    assert (Le : len e0 = sum_len cs) by reflexivity.
    destruct cs as [|c [|c2 cs']].
    + inversion R; subst. split; [constructor|]. split; [simpl; lia|]. split.
      * intros _ _ L. rewrite Le in L. discriminate.
      * intros _. rewrite Se. reflexivity.
    + inversion R as [|r c' rss' cs'' Rc R' E1 E2]; subst. inversion R'; subst.
      destruct Rc as [N [S [X K]]].
      assert (Re : reaches_concatenation (e0 :: anc) = reaches_concatenation anc)
        by reflexivity.
      assert (Lc : len e0 = len c) by (rewrite Le; simpl; lia).
      cbn [List.concat]. rewrite app_nil_r.
      split; [exact N|]. split; [lia|]. rewrite Se. cbn [flat_map]. rewrite app_nil_r.
      split.
      * intros Er R1 L1. apply X; [exact Er|rewrite Re; exact R1|lia].
      * intros Cn. apply K. rewrite Re. rewrite Lc in Cn. exact Cn.
    + assert (Re : reaches_concatenation (e0 :: anc) = false) by reflexivity.
      split; [exact C1|]. split; [rewrite Le; exact C2|]. split.
      * intros _ _ L. rewrite Le in L. pose proof (Forall_inv Pos) as P1.
        pose proof (Forall_inv (Forall_inv_tail Pos)) as P2. simpl in L, P1, P2. lia.
      * intros _. rewrite Se. apply C3, Re.
  - (* Axis *)
    destruct (trivial_pred anc (Axis n v)) eqn:T.
    + cbn [_expr_map]. rewrite remove_F_true by exact T. cbn [bind map].
      exists []. split; [reflexivity|].
      unfold trivial_pred in T. apply andb_true_iff in T as [T T3].
      apply andb_true_iff in T as [T1 T2]. apply Z.eqb_eq in T2. subst v.
      unfold removal_inv, survivors. cbn [located_axes filter fst snd unnamed_trivial].
      rewrite T1. cbn [Z.eqb andb negb orb].
      split; [constructor|]. split; [simpl; lia|]. split.
      * intros _ R _. rewrite R. simpl. unfold axis_key. rewrite T1. reflexivity.
      * intros [C|[R|L]]; [congruence| |simpl in L; lia]. rewrite R. reflexivity.
    + cbn [_expr_map]. rewrite remove_F_false by exact T. cbn [bind deepcopy].
      exists [Axis n v]. split; [reflexivity|].
      split; [repeat constructor|]. split; [simpl; lia|]. split; [discriminate|].
      intros _. unfold keys, survivors. cbn [located_axes filter fst snd flat_map].
      unfold trivial_pred in T. unfold unnamed_trivial.
      destruct (is_unnamed_name n && (v =? 1)) eqn:U; cbn [negb orb].
      * cbn [andb] in T. apply negb_false_iff, is_concat_child_reaches in T. rewrite T.
        reflexivity.
      * reflexivity.
  - (* Concatenation *)
    pose proof (wf_Concatenation_fits _ _ We) as Fc. unfold fits_all in Fc.
    apply wf_Concatenation in We as [NE [-> [L1 Wc]]].
    change (expr_size (Concatenation _ cs)) with (S (sum_size cs)) in Hn.
    cbn [_expr_map]. rewrite remove_F_false by reflexivity. cbn [bind].
    set (e0 := Concatenation (np_sum_astype_int32 (map value cs)) cs).
    destruct (mapM_exists
      (fun c => let* xs := _expr_map fid k F (e0 :: anc) c in List_maybe xs)
      (fun y c => len (placeholder fid y) = 1%nat /\
                  axis_keys (placeholder fid y) = survivors (e0 :: anc) c /\
                  int_fits (value (placeholder fid y)) = true) cs) as [ys [E R]].
    { intros c Hc. rewrite Forall_forall in H, Wc, L1, Fc. pose proof (size_In c cs Hc).
      destruct (H c Hc (Wc c Hc) (e0 :: anc) k) as [r [Er [N [S [X K]]]]]; [lia|].
      pose proof (range_inv_fits c r (Fc c Hc) (proj1 (remove_range fid trivial_pred _ _ _ _ (Wc c Hc) Er))) as Fr.
      rewrite Er. cbn [bind].
      rewrite List_maybe_ok; [|eapply Forall_impl; [|exact N]; intros x [? ?]; assumption|right; exact Fr].
      eexists. split; [reflexivity|].
      cut (len (placeholder fid (List_maybe_pure r)) = 1%nat /\
           axis_keys (placeholder fid (List_maybe_pure r)) = survivors (e0 :: anc) c).
      { intros [A B]. split; [exact A|]. split; [exact B|]. apply placeholder_fits, List_maybe_pure_fits, Fr. }
      assert (Rt : reaches_concatenation (e0 :: anc) = true) by reflexivity.
      destruct r as [|x r'] eqn:Dr.
      - unfold placeholder. cbn [List_maybe_pure List_pure len fold_right Nat.ltb Nat.leb].
        split; [reflexivity|]. rewrite unnamed_placeholder. symmetry.
        apply X; [reflexivity|exact Rt|apply L1, Hc].
      - rewrite <- Dr in *.
        assert (P : (1 <= sum_len r)%nat) by (apply sum_len_pos; [exact N|rewrite Dr; discriminate]).
        assert (Lr : len (List_maybe_pure r) = 1%nat).
        { rewrite len_List_maybe_pure. rewrite (L1 c Hc) in S. lia. }
        unfold placeholder. rewrite Lr. cbn [Nat.ltb Nat.leb].
        split; [exact Lr|]. rewrite axis_keys_List_maybe_pure. apply K. left. rewrite Dr.
        discriminate. }
    rewrite E. cbn [bind].
    fold (placeholder fid).
    rewrite mkConcatenation_ok.
    + cbn [bind]. eexists. split; [reflexivity|].
      split; [repeat constructor|]. split; [simpl; lia|]. split; [discriminate|].
      intros _. rewrite keys_single. unfold Concatenation_pure. rewrite axis_keys_Concatenation.
      assert (Se : survivors anc e0 = flat_map (survivors (e0 :: anc)) cs)
        by apply survivors_Concatenation.
      rewrite Se.
      apply keys_placeholders. eapply Forall2_impl; [|exact R]. intros y c [_ [Q _]]. exact Q.
    + apply Forall2_length' in R. destruct ys; [|discriminate].
      destruct cs; [congruence|discriminate].
    + apply Forall_forall. intros z Hz. apply in_map_iff in Hz as [y [<- Hy]].
      destruct (Forall2_In_l y R Hy) as [c [_ [Lz _]]]. exact Lz.
    + unfold fits_all. apply Forall_forall. intros z Hz. apply in_map_iff in Hz as [y [<- Hy]].
      destruct (Forall2_In_l y R Hy) as [c [_ [_ [_ Fz]]]]. exact Fz.
  - (* Marker *)
    apply wf_Marker in We as [-> [Li Wi]]. cbn [expr_size] in Hn.
    cbn [_expr_map]. rewrite remove_F_false by reflexivity. cbn [bind].
    destruct (IHe Wi (Marker (value e) e :: anc) k) as [rs [E [N [S [X K]]]]]; [lia|].
    pose proof (remove_range fid trivial_pred _ _ _ _ Wi E) as [[_ Rr] _].
    rewrite E. cbn [bind].
    destruct rs as [|r rs'] eqn:D.
    + exists []. split; [reflexivity|].
      split; [constructor|]. split; [simpl; lia|]. split.
      * intros _ R L. apply X; [reflexivity|exact R|exact L].
      * intros C. apply K. destruct C as [C|[C|C]]; [congruence|right; left; exact C|].
        right; right; exact C.
    + rewrite <- D.
      assert (NL : Forall (fun x => is_List x = false) rs)
        by (rewrite D; eapply Forall_impl; [|exact N]; intros x [? ?]; assumption).
      assert (P : (1 <= sum_len rs)%nat) by (rewrite D; apply sum_len_pos; [exact N|discriminate]).
      rewrite List_maybe_ok; [|exact NL|first [exact Rr|rewrite D; exact Rr]]. cbn [bind].
      rewrite mkMarker_ok by (rewrite len_List_maybe_pure; lia). cbn [bind].
      eexists. split; [reflexivity|].
      split; [constructor; [split; [reflexivity|]|constructor]|].
      { change (1 <= len (List_maybe_pure rs))%nat. rewrite len_List_maybe_pure. lia. }
      split.
      { unfold sum_len. cbn [fold_right]. change (len (Marker_pure (List_maybe_pure rs)))
          with (len (List_maybe_pure rs)). rewrite len_List_maybe_pure. fold (sum_len rs).
        cbn [len]. rewrite D; lia. }
      split; [discriminate|]. intros _. rewrite keys_single.
      change (axis_keys (Marker_pure (List_maybe_pure rs))) with (axis_keys (List_maybe_pure rs)).
      rewrite axis_keys_List_maybe_pure, D. apply K. left. discriminate.
Qed.
End RemoveEngine.

(** C8 (corrected): on a constructed tree, [remove_unnamed_trivial_axes]
    succeeds, and the leaf axes of its result, compared as [__eq__] compares
    axes, are those of [t] minus the unnamed axes of value 1 that do not
    reach a Concatenation through Markers and single-child Lists only; on
    ["a 1 b"] it gives ["a b"], on ["a+1"] the [1] is kept. *)
Theorem C8_trivial_axes_removal : forall fid,
  remove_unnamed_trivial_axes fid (List_pure [Axis "a" 2; mkAxis None "1" 1; Axis "b" 3])
    = Ok (List_pure [Axis "a" 2; Axis "b" 3]) /\
  remove_unnamed_trivial_axes fid (Concatenation_pure [Axis "a" 2; mkAxis None "1" 1])
    = Ok (Concatenation_pure [Axis "a" 2; mkAxis None "1" 1]) /\
  (forall t, wf t = true ->
   exists r, remove_unnamed_trivial_axes fid t = Ok r /\ axis_keys r = kept_by_trivial_removal t).
Proof.
  intros fid. split; [reflexivity|]. split; [reflexivity|].
  intros t Wt. unfold remove_unnamed_trivial_axes, remove, expr_map.
  destruct (remove_engine fid t Wt [] (fuel_for t)) as [rs [E [N [_ [_ K]]]]];
    [unfold fuel_for; lia|].
  rewrite E. cbn [bind].
  rewrite List_maybe_ok; [|eapply Forall_impl; [|exact N]; intros x [? ?]; assumption|].
  2:{ apply (remove_range fid trivial_pred _ _ _ _ Wt E). }
  eexists. split; [reflexivity|]. rewrite axis_keys_List_maybe_pure.
  apply K. right. left. reflexivity.
Qed.

Lemma C8_trivial_axes_removal_witness :
  wf (Concatenation_pure [Axis "a" 2; List_pure [mkAxis None "1" 1]]) = true /\
  exists r, remove_unnamed_trivial_axes "0"
              (Concatenation_pure [Axis "a" 2; List_pure [mkAxis None "1" 1]]) = Ok r /\
            axis_keys r = kept_by_trivial_removal
                            (Concatenation_pure [Axis "a" 2; List_pure [mkAxis None "1" 1]]).
Proof.
  assert (W : wf (Concatenation_pure [Axis "a" 2; List_pure [mkAxis None "1" 1]]) = true)
    by (vm_compute; reflexivity).
  split; [exact W|]. exact (proj2 (proj2 (C8_trivial_axes_removal "0")) _ W).
Defined.

(** C8 counterexample: in [a + (1)], where the unnamed [1] sits in a
    single-child List under a Concatenation, the claim keeps only [a], but
    the result holds a fresh unnamed axis of value 1 in place of the emptied
    child. *)
Lemma C8_counterexample :
  wf (Concatenation_pure [Axis "a" 2; List_pure [mkAxis None "1" 1]]) = true /\
  kept_by_claim (Concatenation_pure [Axis "a" 2; List_pure [mkAxis None "1" 1]])
    = [(Some "a"%string, 2)] /\
  exists r, remove_unnamed_trivial_axes "0"
              (Concatenation_pure [Axis "a" 2; List_pure [mkAxis None "1" 1]]) = Ok r /\
            axis_keys r = [(Some "a"%string, 2); (None, 1)].
Proof.
  split; [vm_compute; reflexivity|]. split; [vm_compute; reflexivity|].
  exists (Concatenation_pure [Axis "a" 2; mkAxis None "0" 1]). split; [reflexivity|].
  unfold Concatenation_pure. rewrite axis_keys_Concatenation. unfold keys.
  cbn [flat_map]. rewrite unnamed_placeholder. reflexivity.
Qed.

(** *** Failures of [solve] *)





Lemma mapM_Forall2 : forall {A B} (g : A -> res B) xs ys,
  mapM g xs = Ok ys -> Forall2 (fun x y => g x = Ok y) xs ys.
Proof.
  intros A B g xs. induction xs as [|x xs IH]; intros ys H; simpl in H.
  - inversion H. constructor.
  - destruct (g x) as [y|ex] eqn:E; [|discriminate]. cbn [bind] in H.
    destruct (mapM g xs) as [ys'|ex] eqn:E'; [|discriminate]. cbn [bind] in H.
    inversion H; subst. constructor; [exact E|apply IH; reflexivity].
Qed.



Lemma mkList_Ok : forall cs e, mkList cs = Ok e -> e = List (np_prod_astype_int (map value cs)) cs.
Proof.
  intros cs e H. unfold mkList in H. destruct (np_object_dtype _); [discriminate|].
  destruct (existsb is_List cs); inversion H; auto.
Qed.

Lemma mkConcatenation_Ok : forall cs e, mkConcatenation cs = Ok e ->
  e = Concatenation (np_sum_astype_int32 (map value cs)) cs.
Proof.
  intros cs e H. unfold mkConcatenation in H. destruct cs; [discriminate|].
  destruct (np_object_dtype _); [discriminate|].
  destruct (existsb _ _); inversion H; auto.
Qed.

Lemma mkMarker_Ok : forall i e, mkMarker i = Ok e -> e = Marker (value i) i.
Proof. intros i e H. unfold mkMarker in H. destruct (Nat.eqb (len i) 0); inversion H; auto. Qed.












(** *** Claims checked on concrete trees *)

Lemma C9_mark_refines_witness :
  wf (Marker_pure (List_pure [Axis "a" 2; Axis "b" 3])) = true /\
  mark "0" (Marker_pure (List_pure [Axis "a" 2; Axis "b" 3]))
    (fun _ e => match e with Axis n _ => String.eqb n "a" | _ => false end)
  = Ok (List_maybe_pure (mark_visit
      (fun _ e => match e with Axis n _ => String.eqb n "a" | _ => false end) []
      (Marker_pure (List_pure [Axis "a" 2; Axis "b" 3])))).
Proof.
  assert (W : wf (Marker_pure (List_pure [Axis "a" 2; Axis "b" 3])) = true)
    by (vm_compute; reflexivity).
  split; [exact W|]. apply (C9_mark_refines "0"); [exact W|].
  intros anc e H. destruct e; simpl in H; try discriminate; reflexivity.
Defined.

(** C9 counterexample: marking every node of [a b] wraps the root List, then,
    inside that fresh Marker, each axis again: the result nests Markers. *)
Lemma C9_counterexample :
  wf (List_pure [Axis "a" 2; Axis "b" 3]) = true /\
  has_nested_marker false (List_pure [Axis "a" 2; Axis "b" 3]) = false /\
  mark "0" (List_pure [Axis "a" 2; Axis "b" 3]) (fun _ _ => true)
    = Ok (Marker_pure (List_pure [Marker_pure (Axis "a" 2); Marker_pure (Axis "b" 3)])) /\
  has_nested_marker false
    (Marker_pure (List_pure [Marker_pure (Axis "a" 2); Marker_pure (Axis "b" 3)])) = true.
Proof.
  split; [vm_compute; reflexivity|]. split; [reflexivity|].
  split; reflexivity.
Qed.

Lemma C6_demark_idempotent_witness :
  wf (List_pure [Marker_pure (List_pure [Axis "a" 2; Axis "b" 3]); Axis "c" 5]) = true /\
  exists d, demark "0" (List_pure [Marker_pure (List_pure [Axis "a" 2; Axis "b" 3]); Axis "c" 5])
              = Ok d /\
  exists d', demark "0" d = Ok d' /\ expr_eqb d' d = true.
Proof.
  assert (W : wf (List_pure [Marker_pure (List_pure [Axis "a" 2; Axis "b" 3]); Axis "c" 5])
                = true) by (vm_compute; reflexivity).
  split; [exact W|]. exact (C6_demark_idempotent "0" _ W).
Defined.

(** C7 (code bug): on ["[a] b"], with no nested Marker, [get_marked] gives
    [a] but [get_unmarked] removes the unmarked root and gives the empty
    List, so the unmarked axis [b] is in neither part. *)
Theorem C7_get_unmarked_drops_unmarked : forall fid,
  wf (List_pure [Marker_pure (Axis "a" 2); Axis "b" 3]) = true /\
  has_nested_marker false (List_pure [Marker_pure (Axis "a" 2); Axis "b" 3]) = false /\
  get_axes (List_pure [Marker_pure (Axis "a" 2); Axis "b" 3]) = [Axis "a" 2; Axis "b" 3] /\
  get_marked (List_pure [Marker_pure (Axis "a" 2); Axis "b" 3]) = Ok (Axis "a" 2) /\
  get_unmarked fid (List_pure [Marker_pure (Axis "a" 2); Axis "b" 3]) = Ok (List_pure []) /\
  get_axes (Axis "a" 2) ++ get_axes (List_pure []) = [Axis "a" 2].
Proof.
  intros fid. split; [vm_compute; reflexivity|].
  repeat split; reflexivity.
Qed.

(** *** Further properties of the expression classes and operations *)


(** *** Shape, value, printing and hashing *)

Lemma prod_Z_app : forall l1 l2, prod_Z (l1 ++ l2) = prod_Z l1 * prod_Z l2.
Proof.
  intros l1 l2. unfold prod_Z. induction l1 as [|x l1 IH]; cbn [fold_right app]; [ring|]. rewrite IH. ring.
Qed.

Lemma shape_List : forall v cs, shape (List v cs) = flat_map shape cs.
Proof.
  intros v cs. unfold shape. cbn [iter]. induction cs as [|c cs IH]; [reflexivity|].
  cbn [flat_map]. rewrite map_app, IH. reflexivity.
Qed.

Lemma wrap_mod : forall w z, 0 < w -> wrap w z mod 2 ^ w = z mod 2 ^ w.
Proof.
  intros w z Hw. pose proof (wrap_congruent w z Hw) as C.
  apply Zmod_divides in C as [k Hk]; [|apply Z.pow_nonzero; lia].
  replace (wrap w z) with (z + 2 ^ w * k) by lia.
  rewrite Z.mul_comm, Z_mod_plus_full. reflexivity.
Qed.

Lemma wrap_eq_mod : forall w a b, 0 < w -> a mod 2 ^ w = b mod 2 ^ w -> wrap w a = wrap w b.
Proof.
  intros w a b Hw H. unfold wrap. f_equal.
  rewrite (Zplus_mod a), (Zplus_mod b), H. reflexivity.
Qed.

Lemma prod_Z_mod : forall (l1 l2 : list Z) m,
  Forall2 (fun x y => x mod m = y mod m) l1 l2 -> prod_Z l1 mod m = prod_Z l2 mod m.
Proof.
  intros l1 l2 m H. induction H as [|x y l1 l2 Hxy _ IH]; [reflexivity|].
  cbn [prod_Z fold_right]. fold (prod_Z l1) (prod_Z l2).
  rewrite Zmult_mod, Hxy, IH, <- Zmult_mod. reflexivity.
Qed.

Lemma shape_prod_mod : forall e, wf e = true -> int_products e = true ->
  prod_Z (shape e) mod 2 ^ 64 = value e mod 2 ^ 64.
Proof.
  induction e using expr_ind'; intros W I; try (cbn; rewrite Z.mul_1_r; reflexivity).
  - apply wf_List in W as [-> [_ Wc]]. rewrite shape_List. cbn [value].
    cbn [int_products] in I. apply andb_true_iff in I as [Ia Ic].
    rewrite (np_prod_int _ Ia). unfold wrap64. rewrite wrap_mod by lia.
    rewrite forallb_forall in Ic. rewrite Forall_forall in H, Wc.
    assert (D : forall xs, incl xs cs ->
      prod_Z (flat_map shape xs) mod 2 ^ 64 = prod_Z (map value xs) mod 2 ^ 64).
    { intros xs. induction xs as [|x xs IH]; intros Inc; [reflexivity|].
      cbn [flat_map map]. rewrite prod_Z_app. cbn [prod_Z fold_right]. fold (prod_Z (map value xs)).
      rewrite Zmult_mod, IH by (intros y Hy; apply Inc; right; exact Hy).
      rewrite (H x (Inc x (or_introl eq_refl)) (Wc x (Inc x (or_introl eq_refl)))
                 (Ic x (Inc x (or_introl eq_refl)))).
      rewrite <- Zmult_mod. reflexivity. }
    apply D. intros x Hx. exact Hx.
  - apply wf_Marker in W as [-> [_ Wi]]. exact (IHe Wi I).
Qed.

Lemma expr_eqb_List_inv : forall cs ds v w,
  expr_eqb (List v cs) (List w ds) = true -> Forall2 (fun x y => expr_eqb x y = true) cs ds.
Proof.
  induction cs as [|c cs IH]; intros [|d ds] v w H; simpl in H; try discriminate; [constructor|].
  apply andb_true_iff in H as [H1 H2]. constructor; [exact H1|]. apply (IH ds v w). exact H2.
Qed.

Lemma expr_eqb_Concatenation_inv : forall cs ds v w,
  expr_eqb (Concatenation v cs) (Concatenation w ds) = true ->
  Forall2 (fun x y => expr_eqb x y = true) cs ds.
Proof.
  induction cs as [|c cs IH]; intros [|d ds] v w H; simpl in H; try discriminate; [constructor|].
  apply andb_true_iff in H as [H1 H2]. constructor; [exact H1|]. apply (IH ds v w). exact H2.
Qed.

Lemma Forall2_map_eq : forall {A B} (g : A -> B) (xs ys : list A),
  Forall2 (fun x y => g x = g y) xs ys -> map g xs = map g ys.
Proof. intros A B g xs ys H. induction H; simpl; congruence. Qed.

Lemma Forall2_impl_In : forall {A B} (R S : A -> B -> Prop) xs ys,
  (forall x y, In x xs -> R x y -> S x y) -> Forall2 R xs ys -> Forall2 S xs ys.
Proof.
  intros A B R S xs ys H F. induction F as [|x y xs ys Rxy _ IH]; constructor.
  - apply H; [left; reflexivity|exact Rxy].
  - apply IH. intros x' y' Hx. apply H. right. exact Hx.
Qed.

(** Two expressions equal by [==] are equal by any function that reads
    only what [__eq__] compares, node by node. *)
Section EqbInvariant.
Variable B : Type.
Variable g : expr -> B.
Hypothesis g_Axis : forall n1 v1 n2 v2, Axis_eqb n1 v1 n2 v2 = true -> g (Axis n1 v1) = g (Axis n2 v2).
Hypothesis g_Composition : forall v w i j, g i = g j -> g (Composition v i) = g (Composition w j).
Hypothesis g_Marker : forall v w i j, g i = g j -> g (Marker v i) = g (Marker w j).
Hypothesis g_List : forall v w cs ds, map g cs = map g ds -> g (List v cs) = g (List w ds).
Hypothesis g_Concatenation : forall v w cs ds,
  map g cs = map g ds -> g (Concatenation v cs) = g (Concatenation w ds).

Lemma eqb_invariant : forall a b, expr_eqb a b = true -> g a = g b.
Proof.
  induction a as [v i IH|v cs IH|n v|v cs IH|v i IH] using expr_ind';
    intros [w j|w ds|m u|w ds|w j] E; try discriminate.
  - apply g_Composition, IH. exact E.
  - apply g_List, Forall2_map_eq. apply expr_eqb_List_inv in E.
    rewrite Forall_forall in IH. eapply Forall2_impl_In; [|exact E]. intros x y Hx. apply IH, Hx.
  - apply g_Axis. exact E.
  - apply g_Concatenation, Forall2_map_eq. apply expr_eqb_Concatenation_inv in E.
    rewrite Forall_forall in IH. eapply Forall2_impl_In; [|exact E]. intros x y Hx. apply IH, Hx.
  - apply g_Marker, IH. exact E.
Qed.
End EqbInvariant.

Lemma Axis_eqb_cases : forall n1 v1 n2 v2, Axis_eqb n1 v1 n2 v2 = true ->
  v1 = v2 /\ is_unnamed_name n1 = is_unnamed_name n2 /\
  (is_unnamed_name n1 = false -> n1 = n2).
Proof.
  intros n1 v1 n2 v2 H. unfold Axis_eqb in H.
  destruct (is_unnamed_name n1), (is_unnamed_name n2); cbn in H; try discriminate;
    destruct (Z.eqb_spec v1 v2); try discriminate; subst; repeat split; auto;
    intros; try discriminate; apply String.eqb_eq; exact H.
Qed.

(** [__eq__] and [__hash__] agree: expressions that compare equal have the same hash, whatever the hashes of strings and tuples. *)
Theorem hash_consistent_with_eq : forall (hash_str : string -> Z) (hash_tuple : list Z -> Z) a b,
  expr_eqb a b = true -> expr_hash hash_str hash_tuple a = expr_hash hash_str hash_tuple b.
Proof.
  intros hs ht. apply eqb_invariant.
  - intros n1 v1 n2 v2 E. apply Axis_eqb_cases in E as [-> [U N]]. cbn [expr_hash].
    unfold Axis_hash. rewrite U. destruct (is_unnamed_name n2) eqn:U2; [reflexivity|].
    rewrite (N U). reflexivity.
  - intros v w i j E. cbn [expr_hash]. rewrite E. reflexivity.
  - intros v w i j E. cbn [expr_hash]. rewrite E. reflexivity.
  - intros v w cs ds E. cbn [expr_hash].
    rewrite <- (map_map (expr_hash hs ht) hash_of_dunder), E, map_map. reflexivity.
  - intros v w cs ds E. cbn [expr_hash].
    rewrite <- (map_map (expr_hash hs ht) hash_of_dunder), E, map_map. reflexivity.
Qed.

(** Expressions that compare equal print the same string. *)
Theorem str_consistent_with_eq : forall a b, expr_eqb a b = true -> expr_str a = expr_str b.
Proof.
  apply eqb_invariant.
  - intros n1 v1 n2 v2 E. apply Axis_eqb_cases in E as [-> [U N]]. cbn [expr_str].
    rewrite U. destruct (is_unnamed_name n2) eqn:U2; [reflexivity|]. exact (N U).
  - intros v w i j E. cbn [expr_str]. rewrite E. reflexivity.
  - intros v w i j E. cbn [expr_str]. rewrite E. reflexivity.
  - intros v w cs ds E. cbn [expr_str]. rewrite E. reflexivity.
  - intros v w cs ds E. cbn [expr_str]. rewrite E. reflexivity.
Qed.

(** [shape] has one entry per element of the expression: its length is [len e]. *)
Theorem shape_len : forall e, List.length (shape e) = len e.
Proof.
  unfold shape. intro e. rewrite length_map.
  induction e as [v i IH|v cs IH|n v|v cs IH|v i IH] using expr_ind'; try reflexivity.
  - cbn [iter len]. induction IH as [|c cs Hc _ IHcs]; [reflexivity|].
    cbn [flat_map fold_right]. rewrite length_app, Hc, IHcs. reflexivity.
  - exact IH.
Qed.

(** For a well-formed expression whose [List] nodes all multiply as numpy
    integers, the product of [shape] equals [value] (both taken as numpy int64). *)
Theorem shape_prod_value : forall e, wf e = true -> int_products e = true ->
  wrap64 (prod_Z (shape e)) = wrap64 (value e).
Proof.
  intros e W I. unfold wrap64. apply wrap_eq_mod; [lia|]. apply shape_prod_mod; [exact W|exact I].
Qed.

Lemma shape_prod_value_witness :
  wf (List_pure [Axis "a" (2 ^ 32); Axis "b" (2 ^ 32)]) = true /\
  int_products (List_pure [Axis "a" (2 ^ 32); Axis "b" (2 ^ 32)]) = true /\
  wrap64 (prod_Z (shape (List_pure [Axis "a" (2 ^ 32); Axis "b" (2 ^ 32)])))
    = wrap64 (value (List_pure [Axis "a" (2 ^ 32); Axis "b" (2 ^ 32)])).
Proof.
  assert (W : wf (List_pure [Axis "a" (2 ^ 32); Axis "b" (2 ^ 32)]) = true)
    by (vm_compute; reflexivity).
  assert (I : int_products (List_pure [Axis "a" (2 ^ 32); Axis "b" (2 ^ 32)]) = true)
    by (vm_compute; reflexivity).
  split; [exact W|]. split; [exact I|]. exact (shape_prod_value _ W I).
Defined.

Lemma hash_consistent_with_eq_witness :
  expr_eqb (List_pure [Axis "a" 2; Axis "unnamed.1" 1]) (List_pure [Axis "a" 2; Axis "unnamed.2" 1])
    = true /\
  expr_hash (fun _ => 5) (fun l => fold_right Z.add 0 l)
    (List_pure [Axis "a" 2; Axis "unnamed.1" 1])
  = expr_hash (fun _ => 5) (fun l => fold_right Z.add 0 l)
    (List_pure [Axis "a" 2; Axis "unnamed.2" 1]).
Proof.
  assert (E : expr_eqb (List_pure [Axis "a" 2; Axis "unnamed.1" 1])
                (List_pure [Axis "a" 2; Axis "unnamed.2" 1]) = true) by (vm_compute; reflexivity).
  split; [exact E|]. exact (hash_consistent_with_eq _ _ _ _ E).
Defined.

Lemma str_consistent_with_eq_witness :
  expr_eqb (Composition 3 (Axis "unnamed.1" 3)) (Composition 3 (Axis "unnamed.7" 3)) = true /\
  expr_str (Composition 3 (Axis "unnamed.1" 3)) = expr_str (Composition 3 (Axis "unnamed.7" 3)).
Proof.
  assert (E : expr_eqb (Composition 3 (Axis "unnamed.1" 3)) (Composition 3 (Axis "unnamed.7" 3))
                = true) by (vm_compute; reflexivity).
  split; [exact E|]. exact (str_consistent_with_eq _ _ E).
Defined.

(** [__deepcopy__] of a well-formed expression succeeds and rebuilds the same tree. *)
Theorem deepcopy_identity : forall e, wf e = true -> deepcopy e = Ok e.
Proof. exact deepcopy_wf. Qed.

Lemma deepcopy_identity_witness :
  wf (Marker_pure (Concatenation_pure [Axis "a" 2; Axis "b" 3])) = true /\
  deepcopy (Marker_pure (Concatenation_pure [Axis "a" 2; Axis "b" 3]))
    = Ok (Marker_pure (Concatenation_pure [Axis "a" 2; Axis "b" 3])).
Proof.
  assert (W : wf (Marker_pure (Concatenation_pure [Axis "a" 2; Axis "b" 3])) = true)
    by (vm_compute; reflexivity).
  split; [exact W|]. exact (deepcopy_identity _ W).
Defined.

(** *** Traversals whose visitor never fires *)

Lemma forallb_all_List : forall (P : expr -> bool) v cs,
  forallb P (all (List v cs)) = true -> P (List v cs) = true /\ Forall (fun c => forallb P (all c) = true) cs.
Proof.
  intros P v cs H. cbn [all forallb] in H. apply andb_true_iff in H as [H1 H2]. split; [exact H1|].
  apply Forall_forall. intros c Hc. rewrite forallb_forall in H2 |- *. intros x Hx.
  apply H2, in_flat_map. eauto.
Qed.

Lemma forallb_all_Concatenation : forall (P : expr -> bool) v cs,
  forallb P (all (Concatenation v cs)) = true -> Forall (fun c => forallb P (all c) = true) cs.
Proof.
  intros P v cs H. cbn [all forallb] in H. apply andb_true_iff in H as [_ H2].
  apply Forall_forall. intros c Hc. rewrite forallb_forall in H2 |- *. intros x Hx.
  apply H2, in_flat_map. eauto.
Qed.

Lemma expand_maybe : forall e, wf e = true -> no_single_list e = true -> List_maybe (expand e) = Ok e.
Proof.
  intros [v i|v cs|n v|v cs|v i] W N; try reflexivity.
  pose proof (wf_List_fits _ _ W) as Fc.
  apply wf_List in W as [-> [NL _]]. apply forallb_all_List in N as [N _].
  cbn [expand List_maybe]. destruct cs as [|c [|d cs]]; try discriminate;
    (apply mkList_ok; [exact NL|exact Fc]).
Qed.

Lemma flat_map_expand : forall cs, Forall (fun c => is_List c = false) cs -> flat_map expand cs = cs.
Proof.
  intros cs H. induction H as [|x cs Hc _ IH]; [reflexivity|].
  destruct x; try discriminate; cbn [flat_map expand app]; rewrite IH; reflexivity.
Qed.

Section IdentityEngine.
Variable fid : string.
Variable F : list expr -> expr -> res (option (list located) * signal).
(** The visitor continues on every node satisfying [Q], and [Q] passes from
    a node to its children. *)
Variable Q : list expr -> expr -> Prop.
Hypothesis F_continue : forall anc e, Q anc e -> F anc e = Ok (None, CONTINUE).
Hypothesis Q_child : forall anc e c, Q anc e -> Q (e :: anc) c.

Lemma identity_engine : forall e, wf e = true -> no_single_list e = true ->
  forall anc n, Q anc e -> (expr_size e <= n)%nat -> _expr_map fid n F anc e = Ok (expand e).
Proof.
  induction e as [v i IH|v cs IH|m v|v cs IH|v i IH] using expr_ind';
    intros W N anc k HQ Hn; (destruct k as [|k]; [pose proof (expr_size_pos (List 0 [])); simpl in Hn; lia|]);
    cbn [_expr_map]; rewrite (F_continue _ _ HQ); cbn [bind].
  - apply wf_Composition in W as [-> Wi]. cbn [expr_size] in Hn.
    unfold no_single_list in N. cbn [all forallb] in N. fold (no_single_list i) in N.
    rewrite (IH Wi N) by first [apply Q_child, HQ|lia].
    cbn [bind]. rewrite expand_maybe by assumption. reflexivity.
  - pose proof W as W'. apply wf_List in W as [-> [NL Wc]].
    apply forallb_all_List in N as [_ Nc].
    change (expr_size (List _ cs)) with (S (sum_size cs)) in Hn.
    rewrite (concat_mapM_ok _ expand).
    + cbn [expand]. rewrite flat_map_expand by exact NL. reflexivity.
    + intros c Hc. rewrite Forall_forall in IH, Wc, Nc. pose proof (size_In c cs Hc).
      apply IH; [exact Hc|exact (Wc c Hc)|exact (Nc c Hc)|apply Q_child, HQ|lia].
  - reflexivity.
  - pose proof (wf_Concatenation_fits _ _ W) as Fc.
    pose proof W as W'. apply wf_Concatenation in W as [NE [-> [L1 Wc]]].
    apply forallb_all_Concatenation in N.
    change (expr_size (Concatenation _ cs)) with (S (sum_size cs)) in Hn.
    rewrite (mapM_ok _ (fun c => c)).
    + cbn [bind]. rewrite map_id. rewrite placeholder_noop by exact L1.
      rewrite mkConcatenation_ok by assumption. reflexivity.
    + intros c Hc. rewrite Forall_forall in IH, Wc, N. pose proof (size_In c cs Hc).
      rewrite IH by first [exact Hc|exact (Wc c Hc)|exact (N c Hc)|apply Q_child, HQ|lia].
      cbn [bind]. apply expand_maybe; [exact (Wc c Hc)|exact (N c Hc)].
  - apply wf_Marker in W as [-> [Li Wi]]. cbn [expr_size] in Hn.
    unfold no_single_list in N. cbn [all forallb] in N. fold (no_single_list i) in N.
    rewrite (IH Wi N) by first [apply Q_child, HQ|lia]. cbn [bind].
    assert (NE : expand i <> []).
    { destruct i as [|w [|c cs]| | |]; discriminate || (cbn in Li; congruence). }
    destruct (expand i) as [|y ys] eqn:Ei; [contradiction|]. rewrite <- Ei.
    rewrite expand_maybe by assumption. cbn [bind]. rewrite mkMarker_ok by exact Li. reflexivity.
Qed.
End IdentityEngine.

Lemma identity_expr_map : forall fid f t, wf t = true -> no_single_list t = true ->
  (forall anc e, f anc e = Ok None) -> expr_map fid f t = Ok t.
Proof.
  intros fid f t W N Hf. unfold expr_map.
  rewrite (identity_engine fid (wrap_visitor f) (fun _ _ => True)).
  - cbn [bind]. apply expand_maybe; assumption.
  - intros anc e _. unfold wrap_visitor. rewrite Hf. reflexivity.
  - intros; exact I.
  - exact W.
  - exact N.
  - exact I.
  - unfold fuel_for. lia.
Qed.

(** On a well-formed tree without a single-child List, [remove], [replace] and [mark] with a function that never matches return the tree unchanged. *)
Theorem traversal_without_match_is_identity : forall fid t,
  wf t = true -> no_single_list t = true ->
  remove fid t (fun _ _ => false) = Ok t /\
  replace fid t (fun _ _ => RetNone) = Ok t /\
  mark fid t (fun _ _ => false) = Ok t.
Proof.
  intros fid t W N. split; [|split].
  - apply identity_expr_map; [exact W|exact N|reflexivity].
  - apply identity_expr_map; [exact W|exact N|reflexivity].
  - apply identity_expr_map; [exact W|exact N|]. intros anc e. unfold mark_f.
    rewrite andb_false_r. reflexivity.
Qed.

Lemma traversal_without_match_is_identity_witness :
  remove "0" (List_pure [Axis "a" 2; mkComposition (List_pure [Axis "b" 3; Axis "c" 4])])
    (fun _ _ => false) = Ok (List_pure [Axis "a" 2; mkComposition (List_pure [Axis "b" 3; Axis "c" 4])]) /\
  replace "0" (List_pure [Axis "a" 2; mkComposition (List_pure [Axis "b" 3; Axis "c" 4])])
    (fun _ _ => RetNone) = Ok (List_pure [Axis "a" 2; mkComposition (List_pure [Axis "b" 3; Axis "c" 4])]) /\
  mark "0" (List_pure [Axis "a" 2; mkComposition (List_pure [Axis "b" 3; Axis "c" 4])])
    (fun _ _ => false) = Ok (List_pure [Axis "a" 2; mkComposition (List_pure [Axis "b" 3; Axis "c" 4])]).
Proof. apply traversal_without_match_is_identity; vm_compute; reflexivity. Defined.

(** *** Leaf axes through the rewrite engine *)

Lemma get_axes_Composition : forall v i, get_axes (Composition v i) = get_axes i.
Proof. reflexivity. Qed.
Lemma get_axes_Marker : forall v i, get_axes (Marker v i) = get_axes i.
Proof. reflexivity. Qed.
Lemma get_axes_flat : forall cs, filter is_Axis (flat_map all cs) = flat_map get_axes cs.
Proof.
  intros cs. induction cs as [|c cs IH]; [reflexivity|].
  cbn [flat_map]. rewrite filter_app, IH. reflexivity.
Qed.
Lemma get_axes_List : forall v cs, get_axes (List v cs) = flat_map get_axes cs.
Proof. intros. apply get_axes_flat. Qed.
Lemma get_axes_Concatenation : forall v cs, get_axes (Concatenation v cs) = flat_map get_axes cs.
Proof. intros. apply get_axes_flat. Qed.
Lemma get_axes_List_maybe_pure : forall xs, get_axes (List_maybe_pure xs) = flat_map get_axes xs.
Proof.
  intros [|x [|y xs]]; try apply get_axes_List. cbn [List_maybe_pure flat_map].
  rewrite app_nil_r. reflexivity.
Qed.

Lemma sum_len_single : forall rs, Forall (fun r => (1 <= len r)%nat) rs -> sum_len rs = 1%nat ->
  exists y, rs = [y] /\ len y = 1%nat.
Proof.
  intros [|y [|z rs]] F S; unfold sum_len in S; cbn [fold_right] in S; [discriminate| |].
  - exists y. split; [reflexivity|lia].
  - inversion F as [|? ? Fy F']; subst. inversion F'; subst. lia.
Qed.

Section ReplaceEngine.
Variable fid : string.
Variable f : list expr -> expr -> returned.
Hypothesis f_nonAxis : forall anc e, is_Axis e = false -> f anc e = RetNone.
Hypothesis f_Axis : forall anc e, is_Axis e = true ->
  f anc e = RetNone \/ exists a x, f anc e = RetExpr (a, x) /\ is_Axis x = true /\
    (int_fits (value x) = true \/ value x = value e).
Let F := wrap_visitor (replace_f f).

Lemma replace_F_shape : forall anc e xs sig, F anc e = Ok (Some xs, sig) ->
  sig = REPLACE_AND_STOP /\ exists a x, xs = [(a, x)] /\ is_Axis x = true /\
    (int_fits (value x) = true \/ value x = value e).
Proof.
  intros anc e xs sig H. unfold F, wrap_visitor, replace_f in H.
  destruct (is_Axis e) eqn:Ae.
  - destruct (f_Axis anc e Ae) as [N|[a [x [Ex [Ax Vx]]]]]; rewrite ?N, ?Ex in H; cbn [bind] in H;
      [discriminate|].
    destruct x as [| |m v| |]; try discriminate. inversion H; subst.
    split; [reflexivity|]. exists a, (Axis m v). auto.
  - rewrite f_nonAxis in H by exact Ae. discriminate.
Qed.

Lemma replace_range : forall n anc e rs, wf e = true ->
  _expr_map fid n F anc e = Ok rs -> range_inv e rs.
Proof.
  intros n anc e rs W E.
  refine (expr_map_range fid F (fun _ _ => True) (fun _ _ _ _ => I) _ n anc e rs I W E).
  intros anc' e' xs sig _ _ H. destruct (replace_F_shape _ _ _ _ H) as [-> [a [x [-> [_ Vx]]]]].
  split; [intros _; apply range_inv_single, Vx|discriminate].
Qed.

Lemma replace_F_nonAxis : forall anc e, is_Axis e = false -> F anc e = Ok (None, CONTINUE).
Proof. intros anc e H. unfold F, wrap_visitor, replace_f. rewrite f_nonAxis by exact H. reflexivity. Qed.

Lemma replace_inv_concat : forall anc' rss cs,
  Forall2 (fun r c => replace_inv f anc' c r) rss cs ->
  Forall (fun r => is_List r = false /\ (1 <= len r)%nat) (List.concat rss) /\
  sum_len (List.concat rss) = sum_len cs /\
  flat_map get_axes (List.concat rss) = map (replaced_axis f) (flat_map (located_axes anc') cs).
Proof.
  intros anc' rss cs H. induction H as [|r c rss cs [F1 [S1 A1]] _ [F2 [S2 A2]]]; [repeat split; constructor|].
  cbn [List.concat flat_map]. split; [apply Forall_app; auto|]. split.
  - rewrite sum_len_app, S1, S2. reflexivity.
  - rewrite flat_map_app, A1, A2, map_app. reflexivity.
Qed.

Lemma replace_engine : forall e, wf e = true -> forall anc n, (expr_size e <= n)%nat ->
  exists rs, _expr_map fid n F anc e = Ok rs /\ replace_inv f anc e rs.
Proof.
  induction e as [v i IH|v cs IH|m v|v cs IH|v i IH] using expr_ind';
    intros W anc k Hn; (destruct k as [|k]; [pose proof (expr_size_pos (List 0 [])); simpl in Hn; lia|]).
  - apply wf_Composition in W as [-> Wi]. cbn [expr_size] in Hn.
    cbn [_expr_map]. rewrite replace_F_nonAxis by reflexivity. cbn [bind].
    destruct (IH Wi (Composition (value i) i :: anc) k) as [rs [E [Fr [Sr Ar]]]]; [lia|].
    pose proof (replace_range _ _ _ _ Wi E) as [_ Rr].
    rewrite E. cbn [bind].
    rewrite List_maybe_ok by first [exact Rr|
      (eapply Forall_impl; [|exact Fr]; intros r [? ?]; assumption)].
    cbn [bind]. eexists. split; [reflexivity|]. split; [repeat constructor|]. split; [reflexivity|].
    cbn [flat_map located_axes]. unfold mkComposition. rewrite get_axes_Composition, app_nil_r.
    rewrite get_axes_List_maybe_pure. exact Ar.
  - apply wf_List in W as [-> [NL Wc]].
    change (expr_size (List _ cs)) with (S (sum_size cs)) in Hn.
    cbn [_expr_map]. rewrite replace_F_nonAxis by reflexivity. cbn [bind].
    set (e0 := List (np_prod_astype_int (map value cs)) cs).
    destruct (concat_mapM_Forall2 (_expr_map fid k F (e0 :: anc))
                (fun r c => replace_inv f (e0 :: anc) c r) cs) as [rss [E R]].
    { intros c Hc. rewrite Forall_forall in IH, Wc. pose proof (size_In c cs Hc).
      apply IH; [exact Hc|exact (Wc c Hc)|lia]. }
    rewrite E. exists (List.concat rss). split; [reflexivity|].
    destruct (replace_inv_concat _ _ _ R) as [F1 [S1 A1]]. split; [exact F1|]. split.
    + rewrite S1. reflexivity.
    + rewrite A1. reflexivity.
  - cbn [_expr_map]. destruct (f_Axis anc (Axis m v) eq_refl) as [N|[a [x [Ex [Ax _]]]]].
    + assert (FA : F anc (Axis m v) = Ok (None, CONTINUE))
        by (unfold F, wrap_visitor, replace_f; rewrite N; reflexivity).
      rewrite FA. cbn [bind deepcopy]. eexists. split; [reflexivity|].
      split; [repeat constructor; simpl; lia|]. split; [reflexivity|].
      cbn [located_axes map flat_map]. unfold replaced_axis. cbn [fst snd]. rewrite N. reflexivity.
    + destruct x as [| |mx vx| |]; try discriminate.
      assert (FA : F anc (Axis m v) = Ok (Some [(a, Axis mx vx)], REPLACE_AND_STOP))
        by (unfold F, wrap_visitor, replace_f; rewrite Ex; reflexivity).
      rewrite FA. cbn [bind]. eexists. split; [reflexivity|].
      split; [repeat constructor; simpl; lia|]. split; [reflexivity|].
      cbn [located_axes map flat_map]. unfold replaced_axis. cbn [fst snd]. rewrite Ex. reflexivity.
  - pose proof (wf_Concatenation_fits _ _ W) as Fc.
    apply wf_Concatenation in W as [NE [-> [L1 Wc]]].
    change (expr_size (Concatenation _ cs)) with (S (sum_size cs)) in Hn.
    cbn [_expr_map]. rewrite replace_F_nonAxis by reflexivity. cbn [bind].
    set (e0 := Concatenation (np_sum_astype_int32 (map value cs)) cs).
    destruct (mapM_exists (fun c => let* xs := _expr_map fid k F (e0 :: anc) c in List_maybe xs)
                (fun y c => is_List y = false /\ len y = 1%nat /\ int_fits (value y) = true /\
                   get_axes y = map (replaced_axis f) (located_axes (e0 :: anc) c)) cs)
      as [ys [E R]].
    { intros c Hc. unfold fits_all in Fc. rewrite Forall_forall in IH, Wc, L1, Fc.
      pose proof (size_In c cs Hc).
      destruct (IH c Hc (Wc c Hc) (e0 :: anc) k) as [rs [E [Fr [Sr Ar]]]]; [lia|].
      pose proof (range_inv_fits _ _ (Fc c Hc) (replace_range _ _ _ _ (Wc c Hc) E)) as Fr'.
      rewrite E. cbn [bind]. rewrite L1 in Sr by exact Hc.
      destruct (sum_len_single rs) as [y [-> Ly]];
        [eapply Forall_impl; [|exact Fr]; intros r [? ?]; assumption|exact Sr|].
      inversion Fr as [|? ? [Ny _] _]; subst. inversion Fr' as [|? ? Fy _]; subst.
      exists y. split; [reflexivity|].
      split; [exact Ny|]. split; [exact Ly|]. split; [exact Fy|].
      cbn [flat_map] in Ar. rewrite app_nil_r in Ar. exact Ar. }
    rewrite E. cbn [bind].
    assert (L : Forall (fun y => len y = 1%nat) ys)
      by (eapply Forall2_Forall_l; [exact R|]; intros x y [_ [Lx _]]; exact Lx).
    assert (Fy : fits_all ys)
      by (eapply Forall2_Forall_l; [exact R|]; intros x y [_ [_ [Fx _]]]; exact Fx).
    rewrite placeholder_noop by exact L.
    rewrite mkConcatenation_ok.
    + cbn [bind]. eexists. split; [reflexivity|].
      split; [repeat constructor; simpl; lia|]. split; [reflexivity|].
      cbn [flat_map]. rewrite app_nil_r. unfold Concatenation_pure.
      rewrite get_axes_Concatenation. subst e0. cbn [located_axes].
      revert R. generalize (Concatenation (np_sum_astype_int32 (map value cs)) cs :: anc) as anc'.
      intros anc' R. clear -R.
      induction R as [|y c ys cs' [_ [_ [_ Ay]]] _ IHR]; [reflexivity|].
      cbn [flat_map]. rewrite Ay, IHR, map_app. reflexivity.
    + apply Forall2_length' in R. destruct ys; [destruct cs; simpl in R; congruence|]. discriminate.
    + exact L.
    + exact Fy.
  - apply wf_Marker in W as [-> [Li Wi]]. cbn [expr_size] in Hn.
    cbn [_expr_map]. rewrite replace_F_nonAxis by reflexivity. cbn [bind].
    destruct (IH Wi (Marker (value i) i :: anc) k) as [rs [E [Fr [Sr Ar]]]]; [lia|].
    pose proof (replace_range _ _ _ _ Wi E) as [_ Rr].
    rewrite E. cbn [bind]. destruct rs as [|y ys]; [unfold sum_len in Sr; simpl in Sr; congruence|].
    rewrite List_maybe_ok by first [exact Rr|
      (eapply Forall_impl; [|exact Fr]; intros r [? ?]; assumption)].
    cbn [bind]. rewrite mkMarker_ok by (rewrite len_List_maybe_pure, Sr; exact Li).
    cbn [bind]. eexists. split; [reflexivity|].
    split.
    { constructor; [|constructor]. split; [reflexivity|]. unfold Marker_pure. cbn [len].
      rewrite len_List_maybe_pure, Sr. lia. }
    split; [unfold sum_len, Marker_pure; cbn [fold_right len]; rewrite len_List_maybe_pure, Sr; lia|].
    cbn [flat_map located_axes]. unfold Marker_pure. rewrite get_axes_Marker, app_nil_r.
    rewrite get_axes_List_maybe_pure. exact Ar.
Qed.
End ReplaceEngine.

(** If [f] replaces only axes, and only by axes whose values numpy stores as
    integers or equal those of the axes they replace, [replace] succeeds, keeps
    the length, and its leaf axes are those of the input passed through [f] in order. *)
Theorem replace_axes : forall fid f t, wf t = true ->
  (forall anc e, is_Axis e = false -> f anc e = RetNone) ->
  (forall anc e, is_Axis e = true ->
     f anc e = RetNone \/ exists a x, f anc e = RetExpr (a, x) /\ is_Axis x = true /\
       (int_fits (value x) = true \/ value x = value e)) ->
  exists r, replace fid t f = Ok r /\
    get_axes r = map (replaced_axis f) (located_axes [] t) /\ len r = len t.
Proof.
  intros fid f t W H1 H2. unfold replace, expr_map.
  destruct (replace_engine fid f H1 H2 t W [] (fuel_for t)) as [rs [E [Fr [Sr Ar]]]];
    [unfold fuel_for; lia|].
  pose proof (replace_range fid f H1 H2 _ _ _ _ W E) as [_ Rr].
  rewrite E. cbn [bind].
  rewrite List_maybe_ok by first [exact Rr|
    (eapply Forall_impl; [|exact Fr]; intros r [? ?]; assumption)].
  eexists. split; [reflexivity|]. split.
  - rewrite get_axes_List_maybe_pure. exact Ar.
  - rewrite len_List_maybe_pure. exact Sr.
Qed.

Lemma replace_axes_witness :
  exists r, replace "0" (List_pure [Axis "a" 2; mkComposition (Axis "a" 3)]) rename_a = Ok r /\
    get_axes r = map (replaced_axis rename_a)
                   (located_axes [] (List_pure [Axis "a" 2; mkComposition (Axis "a" 3)])) /\
    len r = len (List_pure [Axis "a" 2; mkComposition (Axis "a" 3)]).
Proof.
  apply replace_axes.
  - vm_compute. reflexivity.
  - intros anc [] H; try reflexivity; discriminate.
  - intros anc [| |n v| |] H; try discriminate. cbn [rename_a].
    destruct (String.eqb n "a");
      [right; exists [], (Axis "x" v); split; [|split]; [reflexivity|reflexivity|right; reflexivity]
      |left; reflexivity].
Defined.

Lemma flat_map_get_axes_map : forall (g : expr -> list expr) cs,
  flat_map get_axes (map (fun c => List_maybe_pure (g c)) cs) =
  flat_map (fun c => flat_map get_axes (g c)) cs.
Proof.
  intros g cs. induction cs as [|c cs IH]; [reflexivity|].
  cbn [map flat_map]. rewrite get_axes_List_maybe_pure, IH. reflexivity.
Qed.

Lemma mark_visit_axes : forall p e anc, flat_map get_axes (mark_visit p anc e) = get_axes e.
Proof.
  intros p.
  assert (W : forall e, (forall anc, flat_map get_axes (mark_default p anc e) = get_axes e) ->
                forall anc, flat_map get_axes (mark_visit p anc e) = get_axes e).
  { intros e H anc. rewrite mark_visit_eq. destruct (mark_cond p anc e); [|apply H].
    cbn [flat_map]. unfold Marker_pure. rewrite get_axes_Marker, app_nil_r,
      get_axes_List_maybe_pure. apply H. }
  intro e. apply W. induction e as [v i IH|v cs IH|m v|v cs IH|v i IH] using expr_ind';
    intro anc; cbn [mark_default].
  - cbn [flat_map]. unfold mkComposition. rewrite !get_axes_Composition, app_nil_r,
      get_axes_List_maybe_pure. apply W, IH.
  - rewrite get_axes_List. generalize (List v cs :: anc) as a. intro a.
    induction IH as [|c cs Hc _ IHc]; [reflexivity|].
    cbn [flat_map]. rewrite flat_map_app, IHc, (W c Hc). reflexivity.
  - reflexivity.
  - cbn [flat_map]. unfold Concatenation_pure. rewrite get_axes_Concatenation, app_nil_r,
      flat_map_get_axes_map, get_axes_Concatenation.
    generalize (Concatenation v cs :: anc) as a. intro a.
    induction IH as [|c cs Hc _ IHc]; [reflexivity|].
    cbn [flat_map]. rewrite IHc, (W c Hc). reflexivity.
  - rewrite get_axes_Marker. pose proof (W i IH (Marker v i :: anc)) as Ai.
    destruct (mark_visit p (Marker v i :: anc) i) as [|x xs].
    + exact Ai.
    + cbn [flat_map]. unfold Marker_pure. rewrite get_axes_Marker, app_nil_r,
        get_axes_List_maybe_pure. exact Ai.
Qed.

(** [mark] with a predicate that selects no empty subexpression succeeds on a well-formed tree and keeps its leaf axes. *)
Theorem mark_keeps_axes : forall fid t p, wf t = true ->
  (forall anc e, len e = 0%nat -> p anc e = false) ->
  exists r, mark fid t p = Ok r /\ get_axes r = get_axes t.
Proof.
  intros fid t p Wt Hp. unfold mark, expr_map.
  rewrite (mark_engine fid p Hp t [] (fuel_for t) Wt) by (unfold fuel_for; lia).
  cbn [bind]. rewrite List_maybe_ok
    by first [apply mark_visit_inv|exact (proj2 (mark_visit_range p Hp [] t Wt))].
  eexists. split; [reflexivity|].
  rewrite get_axes_List_maybe_pure. apply mark_visit_axes.
Qed.

Lemma mark_keeps_axes_witness :
  exists r, mark "0" (List_pure [Axis "a" 2; Axis "b" 3]) select_a = Ok r /\
    get_axes r = get_axes (List_pure [Axis "a" 2; Axis "b" 3]).
Proof.
  apply mark_keeps_axes.
  - vm_compute. reflexivity.
  - intros anc [] H; try reflexivity; discriminate.
Defined.

(** *** Demarking *)

Lemma existsb_flat_map_false : forall {A B} (P : B -> bool) (g : A -> list B) l,
  (forall x, In x l -> existsb P (g x) = false) -> existsb P (flat_map g l) = false.
Proof.
  intros A B P g l H. induction l as [|x l IH]; [reflexivity|].
  cbn [flat_map]. rewrite existsb_app, (H x (or_introl eq_refl)), IH; [reflexivity|].
  intros y Hy. apply H. right. exact Hy.
Qed.

Lemma demarked_no_Marker : forall e b, demarked b e = true -> existsb is_Marker (all e) = false.
Proof.
  induction e as [v i IH|v cs IH|m v|v cs IH|v i IH] using expr_ind'; intros b D;
    cbn [demarked] in D; cbn [all existsb is_Marker orb].
  - exact (IH true D).
  - apply andb_true_iff in D as [_ D]. rewrite forallb_forall in D.
    rewrite Forall_forall in IH. apply existsb_flat_map_false. intros c Hc. exact (IH c Hc false (D c Hc)).
  - reflexivity.
  - apply andb_true_iff in D as [_ D]. rewrite forallb_forall in D.
    rewrite Forall_forall in IH. apply existsb_flat_map_false. intros c Hc. exact (IH c Hc false (D c Hc)).
  - discriminate.
Qed.

Lemma concat_Forall2_props : forall (Q : expr -> Prop) rss cs,
  Forall2 (fun r c => Forall Q r /\ List.length r = len c /\ flat_map get_axes r = get_axes c) rss cs ->
  Forall Q (List.concat rss) /\
  List.length (List.concat rss) = fold_right (fun c n => (len c + n)%nat) 0%nat cs /\
  flat_map get_axes (List.concat rss) = flat_map get_axes cs.
Proof.
  intros Q rss cs H. induction H as [|r c rss cs [Qr [Lr Ar]] _ [Q' [L' A']]]; [repeat split; constructor|].
  cbn [List.concat fold_right flat_map]. split; [apply Forall_app; auto|]. split.
  - rewrite length_app, Lr, L'. reflexivity.
  - rewrite flat_map_app, Ar, A'. reflexivity.
Qed.

Section DemarkAxes.
Variable fid : string.
Let F := wrap_visitor demark_f.

Lemma demark_engine_axes : forall e, wf e = true -> forall anc n, (expr_size e <= n)%nat ->
  exists rs, _expr_map fid n F anc e = Ok rs /\
    Forall (fun r => demarked false r = true) rs /\ List.length rs = len e /\
    flat_map get_axes rs = get_axes e.
Proof.
  induction e as [v i IH|v cs IH|m v|v cs IH|v i IH] using expr_ind'; intros We anc k Hn;
    (destruct k as [|k]; [simpl in Hn; lia|]).
  - apply wf_Composition in We as [-> Wi]. cbn [expr_size] in Hn.
    cbn [_expr_map]. rewrite demark_F_nonMarker by reflexivity. cbn [bind].
    destruct (IH Wi (Composition (value i) i :: anc) k) as [rs [E [N [L A]]]]; [lia|].
    pose proof (demark_range fid _ _ _ _ Wi E) as [[_ Rr] _].
    rewrite E. cbn [bind].
    rewrite List_maybe_ok by first [exact Rr|apply Forall_demarked_not_List; exact N].
    cbn [bind]. eexists. split; [reflexivity|]. split; [|split; [reflexivity|]].
    + constructor; [|constructor]. simpl. apply demarked_List_maybe_pure, N.
    + cbn [flat_map]. unfold mkComposition. rewrite !get_axes_Composition, app_nil_r,
        get_axes_List_maybe_pure. exact A.
  - apply wf_List in We as [-> [NL Wc]].
    change (expr_size (List _ cs)) with (S (sum_size cs)) in Hn.
    cbn [_expr_map]. rewrite demark_F_nonMarker by reflexivity. cbn [bind].
    destruct (concat_mapM_Forall2 (_expr_map fid k F (List (np_prod_astype_int (map value cs)) cs :: anc))
      (fun r c => Forall (fun r => demarked false r = true) r /\ List.length r = len c /\
                  flat_map get_axes r = get_axes c) cs) as [rss [E R]].
    { intros c Hc. rewrite Forall_forall in IH, Wc.
      pose proof (size_In c cs Hc). apply IH; auto. lia. }
    rewrite E. destruct (concat_Forall2_props _ _ _ R) as [N [L A]].
    eexists. split; [reflexivity|]. split; [exact N|]. split; [exact L|].
    rewrite A, get_axes_List. reflexivity.
  - cbn [_expr_map]. rewrite demark_F_nonMarker by reflexivity. cbn [bind deepcopy].
    eexists. split; [reflexivity|]. split; [repeat constructor|]. split; reflexivity.
  - pose proof (wf_Concatenation_fits _ _ We) as Fc.
    apply wf_Concatenation in We as [NE [-> [L1 Wc]]].
    change (expr_size (Concatenation _ cs)) with (S (sum_size cs)) in Hn.
    cbn [_expr_map]. rewrite demark_F_nonMarker by reflexivity. cbn [bind].
    set (e0 := Concatenation (np_sum_astype_int32 (map value cs)) cs).
    destruct (mapM_exists (fun c => let* xs := _expr_map fid k F (e0 :: anc) c in List_maybe xs)
                (fun y c => demarked false y = true /\ int_fits (value y) = true /\
                            get_axes y = get_axes c) cs) as [ys [E R]].
    { intros c Hc. unfold fits_all in Fc. rewrite Forall_forall in IH, Wc, L1, Fc.
      pose proof (size_In c cs Hc).
      destruct (IH c Hc (Wc c Hc) (e0 :: anc) k) as [rs [E [N [L A]]]]; [lia|].
      pose proof (range_inv_fits _ _ (Fc c Hc) (proj1 (demark_range fid _ _ _ _ (Wc c Hc) E))) as Fr.
      rewrite E. cbn [bind]. rewrite L1 in L by exact Hc.
      destruct rs as [|x [|y rs]]; try discriminate. inversion N; subst. inversion Fr; subst.
      exists x. cbn [flat_map] in A. rewrite app_nil_r in A. auto. }
    rewrite E. cbn [bind].
    assert (Ny : Forall (fun y => demarked false y = true) ys)
      by (eapply Forall2_Forall_l; [exact R|]; intros x y [? ?]; assumption).
    assert (Fy : fits_all ys)
      by (eapply Forall2_Forall_l; [exact R|]; intros x y [_ [? _]]; assumption).
    rewrite placeholder_noop
      by (eapply Forall_impl; [|exact Ny]; apply demarked_len).
    assert (Hne : ys <> []).
    { apply Forall2_length' in R. destruct ys; [destruct cs; simpl in R; congruence|].
      discriminate. }
    rewrite mkConcatenation_ok; [|exact Hne|eapply Forall_impl; [|exact Ny]; apply demarked_len|exact Fy].
    cbn [bind]. eexists. split; [reflexivity|]. split; [|split; [reflexivity|]].
    + constructor; [|constructor]. simpl. apply andb_true_iff. split.
      * destruct ys; [congruence|reflexivity].
      * apply forallb_forall. rewrite Forall_forall in Ny. exact Ny.
    + cbn [flat_map]. rewrite app_nil_r. unfold Concatenation_pure. subst e0.
      rewrite !get_axes_Concatenation. clear -R.
      induction R as [|y c ys cs' [_ [_ Ay]] _ IHR]; [reflexivity|].
      cbn [flat_map]. rewrite Ay, IHR. reflexivity.
  - apply wf_Marker in We as [-> [Li Wi]]. cbn [expr_size] in Hn.
    rewrite get_axes_Marker.
    destruct i as [w j|w cs|m w|w cs|w j];
      cbn [_expr_map F wrap_visitor demark_f bind concat_mapM fst snd].
    2:{ destruct (IH Wi (Marker (value (List w cs)) (List w cs) :: anc) (S k))
          as [rs [E [N [L A]]]]; [lia|].
        rewrite concat_mapM_map. cbn [fst snd].
        cbn [_expr_map] in E. rewrite demark_F_nonMarker in E by reflexivity.
        cbn [bind] in E. exists rs. auto. }
    all: match goal with
         | |- context [_expr_map _ ?n _ (?a :: ?b) _] =>
             destruct (IH Wi (a :: b) n) as [rs [E [N [L A]]]];
               [cbn [expr_size] in Hn |- *; lia|]
         end;
      rewrite E; cbn [bind]; exists (rs ++ []); rewrite app_nil_r; auto.
Qed.
End DemarkAxes.

(** [demark] succeeds on a well-formed tree; the result has no Marker, the same leaf axes and the same length. *)
Theorem demark_removes_markers : forall fid t, wf t = true ->
  exists d, demark fid t = Ok d /\ existsb is_Marker (all d) = false /\
    get_axes d = get_axes t /\ len d = len t.
Proof.
  intros fid t W. unfold demark, expr_map.
  destruct (demark_engine_axes fid t W [] (fuel_for t)) as [rs [E [N [L A]]]];
    [unfold fuel_for; lia|].
  pose proof (demark_range fid _ _ _ _ W E) as [[_ Rr] _].
  rewrite E. cbn [bind].
  rewrite List_maybe_ok by first [exact Rr|apply Forall_demarked_not_List; exact N].
  eexists. split; [reflexivity|]. split; [|split].
  - apply (demarked_no_Marker _ true), demarked_List_maybe_pure, N.
  - rewrite get_axes_List_maybe_pure. exact A.
  - rewrite len_List_maybe_pure, <- L. clear -N. induction N as [|r rs Hr _ IH]; [reflexivity|].
    unfold sum_len in *. cbn [fold_right List.length]. rewrite demarked_len by exact Hr. lia.
Qed.

Lemma demark_removes_markers_witness :
  exists d, demark "0" (List_pure [Marker_pure (List_pure [Axis "a" 2; Axis "b" 3]); Axis "c" 4]) = Ok d /\
    existsb is_Marker (all d) = false /\
    get_axes d = get_axes (List_pure [Marker_pure (List_pure [Axis "a" 2; Axis "b" 3]); Axis "c" 4]) /\
    len d = len (List_pure [Marker_pure (List_pure [Axis "a" 2; Axis "b" 3]); Axis "c" 4]).
Proof. apply demark_removes_markers. vm_compute. reflexivity. Defined.

(** *** Well-formed constructions *)

Lemma wf_List_pure : forall cs, Forall (fun c => is_List c = false) cs ->
  Forall (fun c => wf c = true) cs -> fits_all cs -> wf (List_pure cs) = true.
Proof.
  intros cs N W Fc. unfold List_pure. cbn [wf]. rewrite Z.eqb_refl, forallb_not_List by exact N.
  apply fits_all_object in Fc. rewrite Fc. cbn [andb negb]. rewrite andb_true_r.
  apply forallb_forall. rewrite Forall_forall in W. exact W.
Qed.

Lemma wf_List_maybe_pure : forall xs, Forall (fun c => is_List c = false) xs ->
  Forall (fun c => wf c = true) xs -> ((List.length xs <= 1)%nat \/ fits_all xs) ->
  wf (List_maybe_pure xs) = true.
Proof.
  intros [|x [|y xs]] N W Fx; cbn [List_maybe_pure].
  - apply wf_List_pure; [exact N|exact W|constructor].
  - inversion W; assumption.
  - destruct Fx as [Fx|Fx]; [cbn in Fx; lia|]. apply wf_List_pure; assumption.
Qed.

Lemma wf_Concatenation_pure : forall cs, cs <> [] -> Forall (fun c => len c = 1%nat) cs ->
  Forall (fun c => wf c = true) cs -> fits_all cs -> wf (Concatenation_pure cs) = true.
Proof.
  intros cs NE L W Fc. unfold Concatenation_pure. cbn [wf]. rewrite Z.eqb_refl.
  apply fits_all_object in Fc. rewrite Fc. cbn [negb]. rewrite andb_true_r.
  destruct cs as [|c cs]; [congruence|]. cbn [negb andb].
  rewrite Forall_forall in L, W.
  replace (forallb (fun c => Nat.eqb (len c) 1) (c :: cs)) with true
    by (symmetry; apply forallb_forall; intros x Hx; apply Nat.eqb_eq, L, Hx).
  apply forallb_forall. exact W.
Qed.

Lemma wf_Marker_pure : forall i, len i <> 0%nat -> wf i = true -> wf (Marker_pure i) = true.
Proof.
  intros i L W. unfold Marker_pure. cbn [wf]. rewrite Z.eqb_refl, W.
  apply Nat.eqb_neq in L. rewrite L. reflexivity.
Qed.

Lemma wf_mkComposition : forall i, wf i = true -> wf (mkComposition i) = true.
Proof. intros i W. unfold mkComposition. cbn [wf]. rewrite Z.eqb_refl. exact W. Qed.

Lemma nonlist_sum_pos : forall xs n, nonlist_sum xs n -> n <> 0%nat -> xs <> [].
Proof. intros [|x xs] n [_ S] H; [unfold sum_len in S; cbn in S; congruence|discriminate]. Qed.

(** *** Decomposition *)

Lemma concat_Forall2_gen : forall (Q Q' B : expr -> Prop) rss cs,
  Forall2 (fun r c => Forall Q r /\ (B c -> Forall Q' r) /\ flat_map get_axes r = get_axes c) rss cs ->
  Forall Q (List.concat rss) /\ (Forall B cs -> Forall Q' (List.concat rss)) /\
  flat_map get_axes (List.concat rss) = flat_map get_axes cs.
Proof.
  intros Q Q' B rss cs H. induction H as [|r c rss cs [Qr [Br Ar]] _ [Q1 [B1 A1]]].
  - split; [constructor|]. split; [intros; constructor|reflexivity].
  - cbn [List.concat flat_map]. split; [apply Forall_app; auto|]. split.
    + intro FB. inversion FB; subst. apply Forall_app; auto.
    + rewrite flat_map_app, Ar, A1. reflexivity.
Qed.

Lemma existsb_all_List : forall (P : expr -> bool) v cs,
  existsb P (all (List v cs)) = false -> Forall (fun c => existsb P (all c) = false) cs.
Proof.
  intros P v cs H. cbn [all existsb] in H. apply orb_false_iff in H as [_ H].
  induction cs as [|c cs IH]; constructor; cbn [flat_map] in H; rewrite existsb_app in H;
    apply orb_false_iff in H as [H1 H2]; auto.
Qed.

Lemma is_flat_List_maybe_pure : forall rs,
  Forall (fun r => is_flat r = true) rs -> is_flat (List_maybe_pure rs) = true.
Proof.
  assert (G : forall v rs, Forall (fun r => is_flat r = true) rs -> is_flat (List v rs) = true).
  { intros v rs H. unfold is_flat in *. cbn [all forallb is_Composition is_Concatenation negb andb].
    induction H as [|r rs Hr _ IH]; [reflexivity|].
    cbn [flat_map]. rewrite forallb_app, Hr. exact IH. }
  intros [|x [|y rs]] H; cbn [List_maybe_pure]; try (apply G; exact H).
  inversion H; assumption.
Qed.

Lemma cic_List_maybe_pure : forall rs,
  Forall (fun r => compositions_in_concatenations r = true) rs ->
  compositions_in_concatenations (List_maybe_pure rs) = true.
Proof.
  intros [|x [|y rs]] H; cbn [List_maybe_pure List_pure compositions_in_concatenations];
    try (apply forallb_forall; rewrite Forall_forall in H; exact H).
  inversion H; assumption.
Qed.

Lemma nslo_List_maybe_pure : forall rs,
  Forall (fun r => no_single_list_outside r = true) rs -> no_single_list_outside (List_maybe_pure rs) = true.
Proof.
  intros [|x [|y rs]] H; cbn [List_maybe_pure List_pure no_single_list_outside]; [reflexivity| |].
  - inversion H; assumption.
  - cbn [List.length Nat.eqb negb andb]. apply forallb_forall. rewrite Forall_forall in H. exact H.
Qed.

Section DecomposeEngine.
Variable fid : string.
Let F := wrap_visitor decompose_f.

Lemma decompose_F_cont : forall anc e, is_Composition e = false -> is_Concatenation e = false ->
  F anc e = Ok (None, CONTINUE).
Proof. intros anc [] H1 H2; try reflexivity; discriminate. Qed.

Lemma decompose_F_range : forall anc e xs sig, True -> wf e = true -> F anc e = Ok (Some xs, sig) ->
  (sig = REPLACE_AND_STOP -> range_inv e (map snd xs)) /\
  (sig = REPLACE_AND_CONTINUE ->
     Forall (fun x => True /\ wf (snd x) = true /\
                      (int_fits (value (snd x)) = true \/ value (snd x) = value e)) xs /\
     ((List.length xs <= 1)%nat \/ fits_all (map snd xs))).
Proof.
  intros anc [v i|v cs|m v|v cs|v i] xs sig _ W H; try discriminate.
  apply wf_Composition in W as [Ve Wi].
  unfold F, wrap_visitor, decompose_f in H. cbn [bind] in H.
  destruct i as [w j|w cs|m w|w cs|w j]; inversion H; subst; (split; [discriminate|intros _]).
  2:{ pose proof (wf_List_fits _ _ Wi) as Fc. apply wf_List in Wi as [_ [_ Wc]].
      split.
      - rewrite Forall_map. unfold fits_all in Fc. rewrite Forall_forall in Wc, Fc |- *.
        intros c Hc. cbn [snd]. split; [exact I|]. split; [exact (Wc c Hc)|left; exact (Fc c Hc)].
      - right. rewrite map_map. cbn [snd]. rewrite map_id. exact Fc. }
  all: split; [constructor; [|constructor]; cbn [snd]; split; [exact I|];
               split; [exact Wi|right; reflexivity]|left; cbn; lia].
Qed.

Lemma decompose_range : forall n anc e rs, wf e = true ->
  _expr_map fid n F anc e = Ok rs -> range_inv e rs.
Proof.
  intros n anc e rs W E.
  exact (expr_map_range fid F (fun _ _ => True) (fun _ _ _ _ => I) decompose_F_range n anc e rs I W E).
Qed.

Lemma decompose_engine : forall e, wf e = true -> forall anc n, (expr_size e <= n)%nat ->
  exists rs, _expr_map fid n F anc e = Ok rs /\
    Forall (fun r => is_List r = false /\ (1 <= len r)%nat /\
                     compositions_in_concatenations r = true /\ wf r = true /\
                     no_single_list_outside r = true) rs /\
    (existsb is_Concatenation (all e) = false -> Forall (fun r => is_flat r = true) rs) /\
    flat_map get_axes rs = get_axes e.
Proof.
  induction e as [v i IH|v cs IH|m v|v cs IH|v i IH] using expr_ind'; intros We anc k Hn;
    (destruct k as [|k]; [simpl in Hn; lia|]).
  - apply wf_Composition in We as [-> Wi]. cbn [expr_size] in Hn.
    rewrite get_axes_Composition.
    destruct i as [w j|w cs|m w|w cs|w j];
      cbn [_expr_map F wrap_visitor decompose_f bind concat_mapM fst snd].
    2:{ destruct (IH Wi (Composition (value (List w cs)) (List w cs) :: anc) (S k))
          as [rs [E [P [Fl A]]]]; [lia|].
        rewrite concat_mapM_map. cbn [fst snd].
        cbn [_expr_map] in E. rewrite decompose_F_cont in E by reflexivity.
        cbn [bind] in E. exists rs. split; [exact E|]. split; [exact P|]. split; [|exact A].
        intro NC. apply Fl. exact NC. }
    all: match goal with
         | |- context [_expr_map _ ?n _ (?a :: ?b) _] =>
             destruct (IH Wi (a :: b) n) as [rs [E [P [Fl A]]]];
               [cbn [expr_size] in Hn |- *; lia|]
         end;
      rewrite E; cbn [bind]; exists (rs ++ []); rewrite app_nil_r;
      (split; [reflexivity|]); (split; [exact P|]); (split; [|exact A]);
      intro NC; apply Fl; exact NC.
  - apply wf_List in We as [-> [NL Wc]].
    change (expr_size (List _ cs)) with (S (sum_size cs)) in Hn.
    cbn [_expr_map]. rewrite decompose_F_cont by reflexivity. cbn [bind].
    destruct (concat_mapM_Forall2 (_expr_map fid k F (List (np_prod_astype_int (map value cs)) cs :: anc))
      (fun r c => Forall (fun r => is_List r = false /\ (1 <= len r)%nat /\
                     compositions_in_concatenations r = true /\ wf r = true /\
                     no_single_list_outside r = true) r /\
                  (existsb is_Concatenation (all c) = false -> Forall (fun r => is_flat r = true) r) /\
                  flat_map get_axes r = get_axes c) cs) as [rss [E R]].
    { intros c Hc. rewrite Forall_forall in IH, Wc.
      pose proof (size_In c cs Hc). apply IH; auto. lia. }
    rewrite E. destruct (concat_Forall2_gen _ _ _ _ _ R) as [P [Fl A]].
    eexists. split; [reflexivity|]. split; [exact P|]. split.
    + intro NC. apply Fl. eapply existsb_all_List, NC.
    + rewrite A, get_axes_List. reflexivity.
  - cbn [_expr_map]. rewrite decompose_F_cont by reflexivity. cbn [bind deepcopy].
    eexists. split; [reflexivity|]. split; [|split].
    + constructor; [|constructor]. cbn. repeat split; lia.
    + intros _. constructor; [reflexivity|constructor].
    + reflexivity.
  - cbn [_expr_map F wrap_visitor decompose_f bind].
    rewrite deepcopy_wf by exact We. cbn [bind].
    eexists. split; [reflexivity|]. split; [|split].
    + constructor; [|constructor]. split; [reflexivity|]. split; [cbn; lia|].
      split; [reflexivity|]. split; [exact We|reflexivity].
    + cbn [all existsb is_Concatenation orb]. discriminate.
    + cbn [flat_map]. apply app_nil_r.
  - apply wf_Marker in We as [-> [Li Wi]]. cbn [expr_size] in Hn.
    cbn [_expr_map]. rewrite decompose_F_cont by reflexivity. cbn [bind].
    destruct (IH Wi (Marker (value i) i :: anc) k) as [rs [E [P [Fl A]]]]; [lia|].
    pose proof (decompose_range _ _ _ _ Wi E) as [_ Rr].
    rewrite E. cbn [bind]. rewrite get_axes_Marker. destruct rs as [|y ys].
    + exists []. split; [reflexivity|]. split; [constructor|]. split; [intros; constructor|exact A].
    + assert (L : (1 <= sum_len (y :: ys))%nat)
        by (inversion P as [|? ? [_ [Ly _]] _]; unfold sum_len; cbn [fold_right]; lia).
      rewrite List_maybe_ok
        by first [exact Rr|eapply Forall_impl; [|exact P]; intros r [? _]; assumption].
      cbn [bind]. rewrite mkMarker_ok by (rewrite len_List_maybe_pure; lia).
      cbn [bind]. eexists. split; [reflexivity|]. split; [|split].
      * constructor; [|constructor].
        split; [reflexivity|]. split; [rewrite len_Marker_pure, len_List_maybe_pure; exact L|].
        split; [|split].
        { apply cic_List_maybe_pure. eapply Forall_impl; [|exact P]. intros r [_ [_ [C _]]]. exact C. }
        { apply wf_Marker_pure; [rewrite len_List_maybe_pure; lia|].
          apply wf_List_maybe_pure; [| |exact Rr];
            (eapply Forall_impl; [|exact P]); intros r; cbv beta; tauto. }
        { apply nslo_List_maybe_pure. eapply Forall_impl; [|exact P]. intros r; cbv beta; tauto. }
      * intro NC. constructor; [|constructor]. unfold Marker_pure.
        change (is_flat (List_maybe_pure (y :: ys)) = true).
        apply is_flat_List_maybe_pure, Fl. exact NC.
      * cbn [flat_map]. unfold Marker_pure. rewrite get_axes_Marker, app_nil_r,
          get_axes_List_maybe_pure. exact A.
Qed.
End DecomposeEngine.

(** [decompose] succeeds on a well-formed tree, keeps the leaf axes, leaves Compositions only inside Concatenations, and gives a flat expression when there is no Concatenation. *)
Theorem decompose_flattens : forall fid t, wf t = true ->
  exists d, decompose fid t = Ok d /\ get_axes d = get_axes t /\
    compositions_in_concatenations d = true /\
    (existsb is_Concatenation (all t) = false -> is_flat d = true).
Proof.
  intros fid t W. unfold decompose, expr_map.
  destruct (decompose_engine fid t W [] (fuel_for t)) as [rs [E [P [Fl A]]]];
    [unfold fuel_for; lia|].
  pose proof (decompose_range fid _ _ _ _ W E) as [_ Rr].
  rewrite E. cbn [bind].
  rewrite List_maybe_ok
    by first [exact Rr|eapply Forall_impl; [|exact P]; intros r [? _]; assumption].
  eexists. split; [reflexivity|]. split; [|split].
  - rewrite get_axes_List_maybe_pure. exact A.
  - apply cic_List_maybe_pure. eapply Forall_impl; [|exact P]. intros r [_ [_ [C _]]]. exact C.
  - intro NC. apply is_flat_List_maybe_pure, Fl, NC.
Qed.

Lemma decompose_flattens_witness :
  exists d, decompose "0" (List_pure [mkComposition (List_pure [Axis "a" 2; Axis "b" 3]);
                         Concatenation_pure [mkComposition (Axis "c" 4)]]) = Ok d /\
    get_axes d = get_axes (List_pure [mkComposition (List_pure [Axis "a" 2; Axis "b" 3]);
                                      Concatenation_pure [mkComposition (Axis "c" 4)]]) /\
    compositions_in_concatenations d = true /\
    (existsb is_Concatenation (all (List_pure [mkComposition (List_pure [Axis "a" 2; Axis "b" 3]);
                                    Concatenation_pure [mkComposition (Axis "c" 4)]])) = false ->
     is_flat d = true).
Proof. apply decompose_flattens. vm_compute. reflexivity. Defined.

(** *** Marked subexpressions *)

Lemma bind_VE : forall {A B} (P : exn -> Prop) (m : res A) (k : A -> res B),
  fails_only P m -> (forall a, m = Ok a -> fails_only P (k a)) -> fails_only P (let* a := m in k a).
Proof.
  intros A B P m k H1 H2 x E. destruct m as [a|y]; cbn [bind] in E.
  - exact (H2 a eq_refl x E).
  - inversion E; subst. apply H1. reflexivity.
Qed.

Lemma Ok_VE : forall {A} (P : exn -> Prop) (a : A), fails_only P (Ok a).
Proof. intros A P a x E. discriminate. Qed.

Lemma mkList_CE : forall cs, fails_only ctor_error (mkList cs).
Proof.
  intros cs x E. unfold mkList in E. destruct (np_object_dtype _); [inversion E; right; reflexivity|].
  destruct (existsb is_List cs); inversion E; left; reflexivity.
Qed.

Lemma mkList_VE : forall cs, fits_all cs -> only_ValueError (mkList cs).
Proof.
  intros cs Fc x E. unfold mkList in E. apply fits_all_object in Fc. rewrite Fc in E.
  destruct (existsb is_List cs); congruence.
Qed.

Lemma mkConcatenation_CE : forall cs, fails_only ctor_error (mkConcatenation cs).
Proof.
  intros cs x E. unfold mkConcatenation in E. destruct cs; [inversion E; left; reflexivity|].
  destruct (np_object_dtype _); [inversion E; right; reflexivity|].
  destruct (existsb _ _); inversion E; left; reflexivity.
Qed.

Lemma mkConcatenation_VE : forall cs, fits_all cs -> only_ValueError (mkConcatenation cs).
Proof.
  intros cs Fc x E. unfold mkConcatenation in E. destruct cs; [congruence|].
  apply fits_all_object in Fc. rewrite Fc in E. destruct (existsb _ _); congruence.
Qed.

Lemma mkMarker_CE : forall i, fails_only ctor_error (mkMarker i).
Proof. intros i x E. unfold mkMarker in E. destruct (Nat.eqb _ _); inversion E; left; reflexivity. Qed.

Lemma List_maybe_VE : forall xs, ((List.length xs <= 1)%nat \/ fits_all xs) ->
  only_ValueError (List_maybe xs).
Proof.
  intros [|x [|y xs]] F.
  - apply mkList_VE. constructor.
  - apply Ok_VE.
  - destruct F as [F|F]; [cbn in F; lia|]. apply mkList_VE, F.
Qed.

Lemma Concatenation_maybe_VE : forall xs, fits_all xs -> only_ValueError (Concatenation_maybe xs).
Proof. intros [|x [|y xs]] F; try (apply mkConcatenation_VE; exact F). apply Ok_VE. Qed.

Lemma Concatenation_maybe_fits : forall xs c, fits_all xs -> Concatenation_maybe xs = Ok c ->
  int_fits (value c) = true.
Proof.
  intros [|x [|y xs]] c F E; cbn [Concatenation_maybe] in E.
  - rewrite (mkConcatenation_value _ _ E). apply fits_np_sum.
  - inversion E; subst. inversion F; assumption.
  - rewrite (mkConcatenation_value _ _ E). apply fits_np_sum.
Qed.

Lemma mapM_VE : forall {A B} (P : exn -> Prop) (g : A -> res B) xs,
  (forall x, In x xs -> fails_only P (g x)) -> fails_only P (mapM g xs).
Proof.
  intros A B P g xs H. induction xs as [|x xs IH]; cbn [mapM]; [apply Ok_VE|].
  apply bind_VE; [apply H; left; reflexivity|]. intros a _.
  apply bind_VE; [apply IH; intros y Hy; apply H; right; exact Hy|]. intros. apply Ok_VE.
Qed.

Lemma concat_mapM_VE : forall {A B} (P : exn -> Prop) (g : A -> res (list B)) xs,
  (forall x, In x xs -> fails_only P (g x)) -> fails_only P (concat_mapM g xs).
Proof.
  intros A B P g xs H. induction xs as [|x xs IH]; cbn [concat_mapM]; [apply Ok_VE|].
  apply bind_VE; [apply H; left; reflexivity|]. intros a _.
  apply bind_VE; [apply IH; intros y Hy; apply H; right; exact Hy|]. intros. apply Ok_VE.
Qed.

Lemma deepcopy_CE : forall e, fails_only ctor_error (deepcopy e).
Proof.
  induction e as [v i IH|v cs IH|m v|v cs IH|v i IH] using expr_ind'; cbn [deepcopy].
  - apply bind_VE; [exact IH|]. intros. apply Ok_VE.
  - apply bind_VE; [apply mapM_VE; rewrite Forall_forall in IH; exact IH|]. intros. apply mkList_CE.
  - apply Ok_VE.
  - apply bind_VE; [apply mapM_VE; rewrite Forall_forall in IH; exact IH|].
    intros. apply mkConcatenation_CE.
  - apply bind_VE; [exact IH|]. intros. apply mkMarker_CE.
Qed.

(** On a well-formed tree, [_get_marked] fails only with a [ValueError], and
    what it returns fits the node it was called on. *)
Lemma _get_marked_VE : forall e, wf e = true ->
  only_ValueError (_get_marked e) /\ (forall xs, _get_marked e = Ok xs -> range_inv e xs).
Proof.
  induction e as [v i IH|v cs IH|m v|v cs IH|v i IH] using expr_ind'; intro W; cbn [_get_marked].
  - apply wf_Composition in W as [-> Wi]. destruct (IH Wi) as [Vi Ri]. split.
    + apply bind_VE; [exact Vi|]. intros a Ea.
      apply bind_VE; [apply List_maybe_VE, (proj2 (Ri a Ea))|]. intros. apply Ok_VE.
    + intros xs E. destruct (_get_marked i) as [a|x] eqn:Ea; cbn [bind] in E; [|discriminate].
      destruct (List_maybe a) as [l|x] eqn:El; cbn [bind] in E; [|discriminate].
      inversion E; subst xs. apply List_maybe_Ok in El as ->. apply range_inv_single.
      unfold mkComposition. cbn [value]. exact (List_maybe_pure_range i a (Ri a eq_refl)).
  - pose proof (wf_List_fits _ _ W) as Fc. apply wf_List in W as [_ [_ Wc]].
    unfold fits_all in Fc. rewrite Forall_forall in IH, Wc, Fc.
    assert (Fa : forall a, concat_mapM _get_marked cs = Ok a -> fits_all a).
    { intros a Ea. eapply concat_mapM_Forall_inv; [|exact Ea]. intros c r Hc Er.
      apply (range_inv_fits c); [apply Fc, Hc|]. exact (proj2 (IH c Hc (Wc c Hc)) r Er). }
    split.
    + apply bind_VE; [apply concat_mapM_VE; intros c Hc; exact (proj1 (IH c Hc (Wc c Hc)))|].
      intros a Ea. apply bind_VE; [apply List_maybe_VE; right; exact (Fa a Ea)|]. intros. apply Ok_VE.
    + intros xs E. destruct (concat_mapM _get_marked cs) as [a|x] eqn:Ea; cbn [bind] in E;
        [|discriminate].
      destruct (List_maybe a) as [l|x] eqn:El; cbn [bind] in E; [|discriminate].
      inversion E; subst xs. apply List_maybe_Ok in El as ->. apply range_inv_single.
      left. apply List_maybe_pure_fits, Fa. reflexivity.
  - split; [apply Ok_VE|]. intros xs E. inversion E; subst. split; [constructor|left; cbn; lia].
  - pose proof (wf_Concatenation_fits _ _ W) as Fc. apply wf_Concatenation in W as [_ [_ [_ Wc]]].
    unfold fits_all in Fc. rewrite Forall_forall in IH, Wc, Fc.
    assert (Fa : forall a, concat_mapM _get_marked cs = Ok a -> fits_all a).
    { intros a Ea. eapply concat_mapM_Forall_inv; [|exact Ea]. intros c r Hc Er.
      apply (range_inv_fits c); [apply Fc, Hc|]. exact (proj2 (IH c Hc (Wc c Hc)) r Er). }
    split.
    + apply bind_VE; [apply concat_mapM_VE; intros c Hc; exact (proj1 (IH c Hc (Wc c Hc)))|].
      intros a Ea. apply bind_VE; [apply Concatenation_maybe_VE, (Fa a Ea)|]. intros. apply Ok_VE.
    + intros xs E. destruct (concat_mapM _get_marked cs) as [a|x] eqn:Ea; cbn [bind] in E;
        [|discriminate].
      destruct (Concatenation_maybe a) as [l|x] eqn:El; cbn [bind] in E; [|discriminate].
      inversion E; subst xs. apply range_inv_single.
      left. exact (Concatenation_maybe_fits a l (Fa a eq_refl) El).
  - apply wf_Marker in W as [-> [_ Wi]]. rewrite (deepcopy_wf i Wi). cbn [bind]. split.
    + apply Ok_VE.
    + intros xs E. inversion E; subst. apply range_inv_single. right. reflexivity.
Qed.

Lemma bind_Err : forall {A B} (m : res A) (k : A -> res B),
  (exists x, m = Err x) -> exists y, (let* a := m in k a) = Err y.
Proof. intros A B m k [x ->]. exists x. reflexivity. Qed.

Lemma concat_mapM_Err : forall {A B} (g : A -> res (list B)) c cs,
  In c cs -> (exists x, g c = Err x) -> exists y, concat_mapM g cs = Err y.
Proof.
  intros A B g c cs Hc Hg. induction cs as [|d cs IH]; [destruct Hc|].
  cbn [concat_mapM]. destruct Hc as [->|Hc].
  - apply bind_Err, Hg.
  - destruct (g d) as [a|x]; cbn [bind]; [|exists x; reflexivity].
    apply bind_Err, IH, Hc.
Qed.

Lemma _get_marked_Err : forall t s, In s (unmarked_nodes t) ->
  (exists x, _get_marked s = Err x) -> exists y, _get_marked t = Err y.
Proof.
  induction t as [v i IH|v cs IH|m v|v cs IH|v i IH] using expr_ind'; intros s Hs Hg;
    cbn [unmarked_nodes] in Hs; destruct Hs as [<-|Hs]; try exact Hg; try destruct Hs;
    cbn [_get_marked].
  - apply bind_Err. exact (IH s Hs Hg).
  - apply bind_Err. apply in_flat_map in Hs as [c [Hc Hs]].
    rewrite Forall_forall in IH. apply (concat_mapM_Err _ c); [exact Hc|].
    exact (IH c Hc s Hs Hg).
  - apply bind_Err. apply in_flat_map in Hs as [c [Hc Hs]].
    rewrite Forall_forall in IH. apply (concat_mapM_Err _ c); [exact Hc|].
    exact (IH c Hc s Hs Hg).
Qed.

(** On a well-formed tree, [get_marked] raises a ValueError when an unmarked Concatenation has only axes as children. *)
Theorem get_marked_unmarked_concatenation : forall t v cs, wf t = true ->
  In (Concatenation v cs) (unmarked_nodes t) -> Forall (fun c => is_Axis c = true) cs ->
  get_marked t = Err ValueError.
Proof.
  intros t v cs Wt Hin Ha.
  assert (C : _get_marked (Concatenation v cs) = Err ValueError).
  { cbn [_get_marked]. rewrite (concat_mapM_ok _get_marked (fun _ => [])).
    - cbn [bind]. replace (flat_map (fun _ : expr => @nil expr) cs) with (@nil expr)
        by (clear; induction cs; auto).
      reflexivity.
    - intros c Hc. rewrite Forall_forall in Ha. specialize (Ha c Hc).
      destruct c; try discriminate. reflexivity. }
  destruct (_get_marked_Err t _ Hin (ex_intro _ _ C)) as [y E].
  unfold get_marked. rewrite E. cbn [bind]. f_equal. apply (proj1 (_get_marked_VE t Wt)). exact E.
Qed.

Lemma get_marked_unmarked_concatenation_witness :
  wf (List_pure [Axis "b" 2; Concatenation_pure [Axis "c" 3; Axis "d" 4];
                 Marker_pure (Axis "a" 5)]) = true /\
  In (Concatenation_pure [Axis "c" 3; Axis "d" 4])
     (unmarked_nodes (List_pure [Axis "b" 2; Concatenation_pure [Axis "c" 3; Axis "d" 4];
                                 Marker_pure (Axis "a" 5)])) /\
  Forall (fun c => is_Axis c = true) [Axis "c" 3; Axis "d" 4] /\
  get_marked (List_pure [Axis "b" 2; Concatenation_pure [Axis "c" 3; Axis "d" 4];
                         Marker_pure (Axis "a" 5)]) = Err ValueError.
Proof.
  assert (H1 : In (Concatenation_pure [Axis "c" 3; Axis "d" 4])
     (unmarked_nodes (List_pure [Axis "b" 2; Concatenation_pure [Axis "c" 3; Axis "d" 4];
                                 Marker_pure (Axis "a" 5)])))
    by (cbn; right; right; left; reflexivity).
  assert (H2 : Forall (fun c => is_Axis c = true) [Axis "c" 3; Axis "d" 4])
    by (repeat constructor).
  assert (W : wf (List_pure [Axis "b" 2; Concatenation_pure [Axis "c" 3; Axis "d" 4];
                             Marker_pure (Axis "a" 5)]) = true) by (vm_compute; reflexivity).
  split; [exact W|]. split; [exact H1|]. split; [exact H2|].
  exact (get_marked_unmarked_concatenation _ _ _ W H1 H2).
Defined.

Lemma Forall2_flat_map_eq : forall {A B C} (g : A -> list C) (h : B -> list C) xs ys,
  Forall2 (fun x y => g x = h y) xs ys -> flat_map g xs = flat_map h ys.
Proof. intros A B C g h xs ys H. induction H; cbn [flat_map]; congruence. Qed.

Lemma mkList_axes : forall cs l, mkList cs = Ok l -> get_axes l = flat_map get_axes cs.
Proof. intros cs l E. apply mkList_Ok in E as ->. apply get_axes_List. Qed.

Lemma mkConcatenation_axes : forall cs l, mkConcatenation cs = Ok l -> get_axes l = flat_map get_axes cs.
Proof. intros cs l E. apply mkConcatenation_Ok in E as ->. apply get_axes_Concatenation. Qed.

Lemma List_maybe_axes : forall xs l, List_maybe xs = Ok l -> get_axes l = flat_map get_axes xs.
Proof.
  intros [|x [|y xs]] l E; try (apply mkList_axes; exact E).
  inversion E; subst. cbn [flat_map]. rewrite app_nil_r. reflexivity.
Qed.

Lemma Concatenation_maybe_axes : forall xs l,
  Concatenation_maybe xs = Ok l -> get_axes l = flat_map get_axes xs.
Proof.
  intros [|x [|y xs]] l E; try (apply mkConcatenation_axes; exact E).
  inversion E; subst. cbn [flat_map]. rewrite app_nil_r. reflexivity.
Qed.

Lemma deepcopy_axes : forall e c, deepcopy e = Ok c -> get_axes c = get_axes e.
Proof.
  induction e as [v i IH|v cs IH|m v|v cs IH|v i IH] using expr_ind'; intros c E;
    cbn [deepcopy] in E.
  - destruct (deepcopy i) as [i'|x] eqn:D; cbn [bind] in E; inversion E; subst.
    unfold mkComposition. rewrite !get_axes_Composition. apply IH; first [reflexivity|exact D].
  - destruct (mapM deepcopy cs) as [cs'|x] eqn:D; cbn [bind] in E; [|discriminate].
    rewrite (mkList_axes _ _ E), get_axes_List. symmetry. apply Forall2_flat_map_eq.
    apply mapM_Forall2 in D. rewrite Forall_forall in IH.
    eapply Forall2_impl_In; [|exact D]. intros x y Hx Dx. symmetry. exact (IH x Hx y Dx).
  - inversion E; reflexivity.
  - destruct (mapM deepcopy cs) as [cs'|x] eqn:D; cbn [bind] in E; [|discriminate].
    rewrite (mkConcatenation_axes _ _ E), get_axes_Concatenation. symmetry. apply Forall2_flat_map_eq.
    apply mapM_Forall2 in D. rewrite Forall_forall in IH.
    eapply Forall2_impl_In; [|exact D]. intros x y Hx Dx. symmetry. exact (IH x Hx y Dx).
  - destruct (deepcopy i) as [i'|x] eqn:D; cbn [bind] in E; [|discriminate].
    apply mkMarker_Ok in E as ->. rewrite !get_axes_Marker. apply IH; first [reflexivity|exact D].
Qed.

Lemma concat_mapM_Ok_inv : forall {A B} (g : A -> res (list B)) xs ys,
  concat_mapM g xs = Ok ys -> exists rss, ys = List.concat rss /\ Forall2 (fun x r => g x = Ok r) xs rss.
Proof.
  intros A B g xs. induction xs as [|x xs IH]; intros ys E; cbn [concat_mapM] in E.
  - inversion E. exists []. split; [reflexivity|constructor].
  - destruct (g x) as [r|e] eqn:G; cbn [bind] in E; [|discriminate].
    destruct (concat_mapM g xs) as [rs|e] eqn:R; cbn [bind] in E; [|discriminate].
    inversion E; subst. destruct (IH rs eq_refl) as [rss [-> F]].
    exists (r :: rss). split; [reflexivity|]. constructor; assumption.
Qed.

Lemma _get_marked_axes : forall e xs, _get_marked e = Ok xs -> flat_map get_axes xs = marked_axes e.
Proof.
  assert (Ch : forall cs xs, Forall (fun c => forall xs, _get_marked c = Ok xs ->
                 flat_map get_axes xs = marked_axes c) cs ->
               concat_mapM _get_marked cs = Ok xs -> flat_map get_axes xs = flat_map marked_axes cs).
  { intros cs xs IH E. apply concat_mapM_Ok_inv in E as [rss [-> F]].
    induction F as [|c r cs rss Gc _ IHF]; [reflexivity|].
    inversion IH; subst. cbn [List.concat flat_map]. rewrite flat_map_app, IHF by assumption.
    f_equal. auto. }
  induction e as [v i IH|v cs IH|m v|v cs IH|v i IH] using expr_ind'; intros xs E;
    cbn [_get_marked] in E; cbn [marked_axes].
  - destruct (_get_marked i) as [ys|x] eqn:G; cbn [bind] in E; [|discriminate].
    destruct (List_maybe ys) as [l|x] eqn:L; cbn [bind] in E; [|discriminate].
    inversion E; subst. cbn [flat_map]. unfold mkComposition.
    rewrite app_nil_r, get_axes_Composition, (List_maybe_axes _ _ L). apply IH; first [reflexivity|exact G].
  - destruct (concat_mapM _get_marked cs) as [ys|x] eqn:G; cbn [bind] in E; [|discriminate].
    destruct (List_maybe ys) as [l|x] eqn:L; cbn [bind] in E; [|discriminate].
    inversion E; subst. cbn [flat_map]. rewrite app_nil_r, (List_maybe_axes _ _ L).
    apply Ch; assumption.
  - inversion E; reflexivity.
  - destruct (concat_mapM _get_marked cs) as [ys|x] eqn:G; cbn [bind] in E; [|discriminate].
    destruct (Concatenation_maybe ys) as [l|x] eqn:L; cbn [bind] in E; [|discriminate].
    inversion E; subst. cbn [flat_map]. rewrite app_nil_r, (Concatenation_maybe_axes _ _ L).
    apply Ch; assumption.
  - destruct (deepcopy i) as [c|x] eqn:D; cbn [bind] in E; [|discriminate].
    inversion E; subst. cbn [flat_map]. rewrite app_nil_r. apply deepcopy_axes, D.
Qed.

(** When [get_marked] succeeds, its leaf axes are the marked axes of the input, in order. *)
Theorem get_marked_axes : forall t m, get_marked t = Ok m -> get_axes m = marked_axes t.
Proof.
  intros t m E. unfold get_marked in E.
  destruct (_get_marked t) as [xs|x] eqn:G; cbn [bind] in E; [|discriminate].
  rewrite (List_maybe_axes _ _ E). apply _get_marked_axes, G.
Qed.

Lemma get_marked_axes_witness :
  get_marked (List_pure [Axis "b" 2; mkComposition (Marker_pure (Axis "a" 5)); Marker_pure (Axis "c" 3)])
    = Ok (List_pure [mkComposition (Axis "a" 5); Axis "c" 3]) /\
  get_axes (List_pure [mkComposition (Axis "a" 5); Axis "c" 3]) =
    marked_axes (List_pure [Axis "b" 2; mkComposition (Marker_pure (Axis "a" 5)); Marker_pure (Axis "c" 3)]).
Proof.
  assert (E : get_marked (List_pure [Axis "b" 2; mkComposition (Marker_pure (Axis "a" 5));
                                     Marker_pure (Axis "c" 3)])
    = Ok (List_pure [mkComposition (Axis "a" 5); Axis "c" 3])) by (vm_compute; reflexivity).
  split; [exact E|]. exact (get_marked_axes _ _ E).
Defined.

(** *** Removal of trivial axes *)

Lemma located_axes_snd : forall e anc, map snd (located_axes anc e) = get_axes e.
Proof.
  induction e as [v i IH|v cs IH|m v|v cs IH|v i IH] using expr_ind'; intro anc;
    cbn [located_axes].
  - rewrite get_axes_Composition. apply IH.
  - rewrite get_axes_List. generalize (List v cs :: anc) as a. intro a.
    clear -IH. induction IH as [|c l Hc _ IHc]; [reflexivity|].
    cbn [flat_map]. rewrite map_app, Hc. f_equal. exact IHc.
  - reflexivity.
  - rewrite get_axes_Concatenation. generalize (Concatenation v cs :: anc) as a. intro a.
    clear -IH. induction IH as [|c l Hc _ IHc]; [reflexivity|].
    cbn [flat_map]. rewrite map_app, Hc. f_equal. exact IHc.
  - rewrite get_axes_Marker. apply IH.
Qed.

Lemma filter_named_keys : forall l,
  filter named_key (flat_map axis_key l) = flat_map axis_key (filter is_named_Axis l).
Proof.
  induction l as [|x l IH]; [reflexivity|].
  cbn [flat_map filter]. rewrite filter_app, IH.
  destruct x as [| |n v| |]; try reflexivity.
  cbn [axis_key is_named_Axis]. unfold named_key.
  destruct (is_unnamed_name n) eqn:U; cbn [negb filter flat_map axis_key app fst];
    rewrite ?U; reflexivity.
Qed.

Lemma named_keys_inj : forall l1 l2,
  Forall (fun a => is_named_Axis a = true) l1 -> Forall (fun a => is_named_Axis a = true) l2 ->
  flat_map axis_key l1 = flat_map axis_key l2 -> l1 = l2.
Proof.
  induction l1 as [|x l1 IH]; intros [|y l2] F1 F2 E.
  - reflexivity.
  - inversion F2 as [|? ? Hy _]; subst. destruct y; discriminate.
  - inversion F1 as [|? ? Hx _]; subst. destruct x; discriminate.
  - inversion F1 as [|? ? Hx F1']; subst. inversion F2 as [|? ? Hy F2']; subst.
    destruct x as [| |n v| |]; try discriminate. destruct y as [| |m w| |]; try discriminate.
    cbn [is_named_Axis] in Hx, Hy. apply negb_true_iff in Hx, Hy.
    cbn [flat_map axis_key app] in E. rewrite Hx, Hy in E.
    inversion E; subst. f_equal. apply IH; assumption.
Qed.

Lemma get_named_axes_filter : forall e, get_named_axes e = filter is_named_Axis (get_axes e).
Proof.
  intro e. unfold get_named_axes, get_axes. induction (all e) as [|x l IH]; [reflexivity|].
  cbn [filter]. destruct x; cbn [is_Axis is_named_Axis filter]; try exact IH.
  destruct (negb _); rewrite IH; reflexivity.
Qed.

Lemma named_filter_Forall : forall l, Forall (fun a => is_named_Axis a = true) (filter is_named_Axis l).
Proof. intro l. apply Forall_forall. intros x Hx. apply filter_In in Hx. apply Hx. Qed.

Lemma named_key_trivial : forall x, unnamed_trivial x = true -> filter named_key (axis_key x) = [].
Proof.
  intros [| |n v| |] H; try reflexivity. cbn [unnamed_trivial] in H.
  apply andb_true_iff in H as [U _]. cbn [axis_key]. rewrite U. reflexivity.
Qed.

Lemma survivors_named : forall anc e,
  filter named_key (survivors anc e) = flat_map axis_key (get_named_axes e).
Proof.
  intros anc e. rewrite get_named_axes_filter, <- filter_named_keys, <- (located_axes_snd e anc).
  unfold survivors. induction (located_axes anc e) as [|[a x] l IH]; [reflexivity|].
  cbn [filter map flat_map snd fst]. rewrite filter_app.
  destruct (negb (unnamed_trivial x) || reaches_concatenation a) eqn:P.
  - cbn [flat_map snd]. rewrite filter_app, IH. reflexivity.
  - apply orb_false_iff in P as [P _]. apply negb_false_iff in P.
    rewrite named_key_trivial by exact P. exact IH.
Qed.

(** [remove_unnamed_trivial_axes] succeeds on a well-formed tree and keeps its named axes, in order. *)
Theorem trivial_removal_keeps_named_axes : forall fid t, wf t = true ->
  exists r, remove_unnamed_trivial_axes fid t = Ok r /\ get_named_axes r = get_named_axes t.
Proof.
  intros fid t Wt. unfold remove_unnamed_trivial_axes, remove, expr_map.
  destruct (remove_engine fid t Wt [] (fuel_for t)) as [rs [E [N [_ [_ K]]]]];
    [unfold fuel_for; lia|].
  pose proof (remove_range _ _ _ _ _ _ Wt E) as [[_ Rr] _].
  rewrite E. cbn [bind].
  rewrite List_maybe_ok
    by first [exact Rr|eapply Forall_impl; [|exact N]; intros x [? ?]; assumption].
  eexists. split; [reflexivity|].
  assert (A : axis_keys (List_maybe_pure rs) = survivors [] t)
    by (rewrite axis_keys_List_maybe_pure; apply K; right; left; reflexivity).
  apply (f_equal (filter named_key)) in A. unfold axis_keys in A.
  rewrite filter_named_keys, survivors_named, <- get_named_axes_filter in A.
  apply named_keys_inj; [rewrite get_named_axes_filter; apply named_filter_Forall
                        |rewrite get_named_axes_filter; apply named_filter_Forall|exact A].
Qed.

Lemma trivial_removal_keeps_named_axes_witness :
  exists r, remove_unnamed_trivial_axes "0"
              (List_pure [Axis "a" 2; mkAxis None "1" 1; mkComposition (mkAxis None "2" 1)]) = Ok r /\
    get_named_axes r =
    get_named_axes (List_pure [Axis "a" 2; mkAxis None "1" 1; mkComposition (mkAxis None "2" 1)]).
Proof. apply trivial_removal_keeps_named_axes. vm_compute. reflexivity. Defined.

(** *** Equality *)

Lemma Axis_eqb_intro : forall n1 v1 n2 v2, v1 = v2 -> is_unnamed_name n1 = is_unnamed_name n2 ->
  (is_unnamed_name n1 = false -> n1 = n2) -> Axis_eqb n1 v1 n2 v2 = true.
Proof.
  intros n1 v1 n2 v2 -> U N. unfold Axis_eqb. rewrite U, Bool.eqb_reflx, Z.eqb_refl. cbn [negb].
  destruct (is_unnamed_name n2) eqn:U2; [reflexivity|].
  rewrite N by congruence. apply String.eqb_refl.
Qed.

Lemma Forall2_flip_impl : forall {A} (R S : A -> A -> Prop) xs ys,
  (forall x y, In x xs -> R x y -> S y x) -> Forall2 R xs ys -> Forall2 S ys xs.
Proof.
  intros A R S xs ys H F. induction F as [|x y xs ys Rxy _ IH]; constructor.
  - apply H; [left; reflexivity|exact Rxy].
  - apply IH. intros a b Ha. apply H. right. exact Ha.
Qed.

Lemma Forall2_trans_In : forall {A} (R : A -> A -> Prop) xs ys zs,
  (forall x y z, In x xs -> R x y -> R y z -> R x z) ->
  Forall2 R xs ys -> Forall2 R ys zs -> Forall2 R xs zs.
Proof.
  intros A R xs ys zs H F1. revert zs. induction F1 as [|x y xs ys Rxy _ IH]; intros zs F2;
    inversion F2 as [|? z ? zs' Ryz F2']; subst; constructor.
  - apply (H x y z); [left; reflexivity|exact Rxy|exact Ryz].
  - apply IH; [|exact F2']. intros a b c Ha. apply H. right. exact Ha.
Qed.

Lemma expr_eqb_sym : forall a b, expr_eqb a b = true -> expr_eqb b a = true.
Proof.
  induction a as [v i IH|v cs IH|n v|v cs IH|v i IH] using expr_ind';
    intros [w j|w ds|m u|w ds|w j] E; try discriminate.
  - exact (IH j E).
  - apply expr_eqb_List_inv in E. rewrite Forall_forall in IH.
    refine (proj1 (expr_eqb_children ds cs _ w v)).
    eapply Forall2_flip_impl; [|exact E]. intros x y Hx. apply IH, Hx.
  - apply Axis_eqb_cases in E as [-> [U N]]. apply Axis_eqb_intro; [reflexivity|auto|].
    intro Hm. symmetry. apply N. rewrite U. exact Hm.
  - apply expr_eqb_Concatenation_inv in E. rewrite Forall_forall in IH.
    refine (proj2 (expr_eqb_children ds cs _ w v)).
    eapply Forall2_flip_impl; [|exact E]. intros x y Hx. apply IH, Hx.
  - exact (IH j E).
Qed.

Lemma expr_eqb_trans : forall a b c, expr_eqb a b = true -> expr_eqb b c = true -> expr_eqb a c = true.
Proof.
  induction a as [v i IH|v cs IH|n v|v cs IH|v i IH] using expr_ind';
    intros [w j|w ds|m u|w ds|w j] [x k|x es|l z|x es|x k] E1 E2; try discriminate.
  - exact (IH j k E1 E2).
  - apply expr_eqb_List_inv in E1, E2. rewrite Forall_forall in IH.
    refine (proj1 (expr_eqb_children cs es _ v x)).
    eapply Forall2_trans_In; [|exact E1|exact E2]. intros a b c Ha. apply IH, Ha.
  - apply Axis_eqb_cases in E1 as [-> [U1 N1]]. apply Axis_eqb_cases in E2 as [-> [U2 N2]].
    apply Axis_eqb_intro; [reflexivity|congruence|].
    intro Hn. rewrite (N1 Hn). apply N2. rewrite <- U1. exact Hn.
  - apply expr_eqb_Concatenation_inv in E1, E2. rewrite Forall_forall in IH.
    refine (proj2 (expr_eqb_children cs es _ v x)).
    eapply Forall2_trans_In; [|exact E1|exact E2]. intros a b c Ha. apply IH, Ha.
  - exact (IH j k E1 E2).
Qed.

(** [__eq__] is an equivalence relation on expressions. *)
Theorem expr_eqb_equivalence : Equivalence (fun a b => expr_eqb a b = true).
Proof.
  split.
  - intro a. apply expr_eqb_refl.
  - intros a b. apply expr_eqb_sym.
  - intros a b c. apply expr_eqb_trans.
Qed.

Lemma deepcopy_eqb : forall e c, deepcopy e = Ok c -> expr_eqb c e = true.
Proof.
  induction e as [v i IH|v cs IH|m v|v cs IH|v i IH] using expr_ind'; intros c E;
    cbn [deepcopy] in E.
  - destruct (deepcopy i) as [i'|x] eqn:D; cbn [bind] in E; inversion E; subst.
    exact (IH i' eq_refl).
  - destruct (mapM deepcopy cs) as [cs'|x] eqn:D; cbn [bind] in E; [|discriminate].
    apply mkList_Ok in E as ->. apply mapM_Forall2 in D. rewrite Forall_forall in IH.
    refine (proj1 (expr_eqb_children cs' cs _ _ v)).
    eapply Forall2_flip_impl; [|exact D]. intros x y Hx Dx. exact (IH x Hx y Dx).
  - inversion E; subst. apply expr_eqb_refl.
  - destruct (mapM deepcopy cs) as [cs'|x] eqn:D; cbn [bind] in E; [|discriminate].
    apply mkConcatenation_Ok in E as ->. apply mapM_Forall2 in D. rewrite Forall_forall in IH.
    refine (proj2 (expr_eqb_children cs' cs _ _ v)).
    eapply Forall2_flip_impl; [|exact D]. intros x y Hx Dx. exact (IH x Hx y Dx).
  - destruct (deepcopy i) as [i'|x] eqn:D; cbn [bind] in E; [|discriminate].
    apply mkMarker_Ok in E as ->. exact (IH i' eq_refl).
Qed.

(** [__deepcopy__] either returns an expression equal to its input or fails
    in a constructor, with a ValueError from its checks or an AttributeError
    from numpy's object array. *)
Theorem deepcopy_equal_or_error : forall e,
  (exists c, deepcopy e = Ok c /\ expr_eqb c e = true) \/
  deepcopy e = Err ValueError \/ deepcopy e = Err AttributeError.
Proof.
  intro e. destruct (deepcopy e) as [c|x] eqn:D.
  - left. exists c. split; [reflexivity|]. apply deepcopy_eqb, D.
  - right. destruct (deepcopy_CE e x D) as [-> | ->]; [left|right]; reflexivity.
Qed.

(** *** Marking and demarking *)

Section MarkWf.
Variable p : list expr -> expr -> bool.
Hypothesis p_nonempty : forall anc e, len e = 0%nat -> p anc e = false.

Lemma wf_mark_visit : forall e, wf e = true -> forall anc,
  Forall (fun r => wf r = true) (mark_visit p anc e).
Proof.
  intros e We anc. apply (mark_wf ""%string p p_nonempty (3 * expr_size e) anc e); [exact We|].
  apply (mark_engine _ p p_nonempty); [exact We|lia].
Qed.
End MarkWf.

Lemma strip_List_maybe_pure : forall xs, strip (List_maybe_pure xs) = flat_map strip xs.
Proof. intros [|x [|y xs]]; try reflexivity. cbn [List_maybe_pure flat_map]. rewrite app_nil_r. reflexivity. Qed.

Lemma strip_mark_visit : forall p e anc, flat_map strip (mark_visit p anc e) = strip e.
Proof.
  intros p.
  assert (W : forall e, (forall anc, flat_map strip (mark_default p anc e) = strip e) ->
                forall anc, flat_map strip (mark_visit p anc e) = strip e).
  { intros e H anc. rewrite mark_visit_eq. destruct (mark_cond p anc e); [|apply H].
    cbn [flat_map]. unfold Marker_pure. cbn [strip].
    rewrite app_nil_r, strip_List_maybe_pure. apply H. }
  intro e. apply W. induction e as [v i IH|v cs IH|m v|v cs IH|v i IH] using expr_ind';
    intro anc; cbn [mark_default].
  - cbn [flat_map]. unfold mkComposition. cbn [strip].
    rewrite app_nil_r, strip_List_maybe_pure, (W i IH). reflexivity.
  - cbn [strip]. generalize (List v cs :: anc) as a. intro a. clear -IH W.
    induction IH as [|c l Hc _ IHc]; [reflexivity|].
    cbn [flat_map]. rewrite flat_map_app, (W c Hc). f_equal. exact IHc.
  - reflexivity.
  - cbn [flat_map]. unfold Concatenation_pure. cbn [strip]. rewrite app_nil_r, map_map.
    do 2 f_equal. apply map_ext_in. intros c Hc. rewrite Forall_forall in IH.
    rewrite strip_List_maybe_pure, (W c (IH c Hc)). reflexivity.
  - cbn [strip]. pose proof (W i IH (Marker v i :: anc)) as Ai.
    destruct (mark_visit p (Marker v i :: anc) i) as [|x xs].
    + exact Ai.
    + cbn [flat_map]. unfold Marker_pure. cbn [strip].
      rewrite app_nil_r, strip_List_maybe_pure. exact Ai.
Qed.

Lemma strip_not_List : forall e, Forall (fun r => is_List r = false) (strip e).
Proof.
  induction e as [v i IH|v cs IH|m v|v cs IH|v i IH] using expr_ind'; cbn [strip];
    try (repeat constructor; fail); [|exact IH].
  rewrite Forall_forall in IH |- *. intros r Hr. apply in_flat_map in Hr as [c [Hc Hr]].
  specialize (IH c Hc). rewrite Forall_forall in IH. apply IH, Hr.
Qed.

Lemma strip_len : forall e, Forall (fun r => len r = 1%nat) (strip e) /\ List.length (strip e) = len e.
Proof.
  induction e as [v i IH|v cs IH|m v|v cs IH|v i IH] using expr_ind'; cbn [strip];
    try (split; [repeat constructor|reflexivity]); [|exact IH].
  cbn [len]. induction IH as [|c l [Fc Lc] _ [Fl Ll]]; [split; [constructor|reflexivity]|].
  cbn [flat_map fold_right]. split; [apply Forall_app; auto|]. rewrite length_app, Lc, Ll. reflexivity.
Qed.

Section DemarkStrip.
Variable fid : string.
Let F := wrap_visitor demark_f.

Lemma demark_engine_strip : forall e, wf e = true -> forall anc n, (expr_size e <= n)%nat ->
  _expr_map fid n F anc e = Ok (strip e).
Proof.
  induction e as [v i IH|v cs IH|m v|v cs IH|v i IH] using expr_ind'; intros We anc k Hn;
    (destruct k as [|k]; [simpl in Hn; lia|]).
  - apply wf_Composition in We as [-> Wi]. cbn [expr_size] in Hn.
    cbn [_expr_map]. rewrite demark_F_nonMarker by reflexivity. cbn [bind].
    pose proof (demark_range fid _ _ _ _ Wi (IH Wi [] (expr_size i) (le_n _))) as [[_ Rr] _].
    rewrite IH by (assumption || lia). cbn [bind].
    rewrite List_maybe_ok by first [apply strip_not_List|exact Rr]. reflexivity.
  - apply wf_List in We as [-> [NL Wc]].
    change (expr_size (List _ cs)) with (S (sum_size cs)) in Hn.
    cbn [_expr_map]. rewrite demark_F_nonMarker by reflexivity. cbn [bind strip].
    apply concat_mapM_ok. intros c Hc. rewrite Forall_forall in IH, Wc.
    pose proof (size_In c cs Hc). apply IH; auto. lia.
  - reflexivity.
  - pose proof (wf_Concatenation_fits _ _ We) as Fc.
    apply wf_Concatenation in We as [NE [-> [L1 Wc]]].
    unfold fits_all in Fc. rewrite Forall_forall in Fc.
    assert (Rc : forall c, In c cs -> range_inv c (strip c)).
    { intros c Hc. rewrite Forall_forall in IH, Wc.
      exact (proj1 (demark_range fid _ _ _ _ (Wc c Hc) (IH c Hc (Wc c Hc) [] (expr_size c) (le_n _)))). }
    change (expr_size (Concatenation _ cs)) with (S (sum_size cs)) in Hn.
    cbn [_expr_map]. rewrite demark_F_nonMarker by reflexivity. cbn [bind strip].
    rewrite (mapM_ok _ (fun c => List_maybe_pure (strip c))).
    2:{ intros c Hc. rewrite Forall_forall in IH, Wc. pose proof (size_In c cs Hc).
        rewrite IH by (auto; lia). cbn [bind].
        apply List_maybe_ok; [apply strip_not_List|exact (proj2 (Rc c Hc))]. }
    cbn [bind].
    assert (L : Forall (fun y => len y = 1%nat) (map (fun c => List_maybe_pure (strip c)) cs)).
    { rewrite Forall_forall in L1 |- *. intros y Hy. apply in_map_iff in Hy as [c [<- Hc]].
      rewrite len_List_maybe_pure. destruct (strip_len c) as [F1 Lc].
      rewrite L1 in Lc by exact Hc.
      destruct (strip c) as [|x [|z xs]]; try discriminate. inversion F1; subst.
      unfold sum_len. cbn [fold_right]. lia. }
    rewrite placeholder_noop by exact L.
    rewrite mkConcatenation_ok; [reflexivity| |exact L|].
    + destruct cs; [congruence|discriminate].
    + unfold fits_all. rewrite Forall_forall. intros y Hy. apply in_map_iff in Hy as [c [<- Hc]].
      apply List_maybe_pure_fits, (range_inv_fits c); [apply Fc, Hc|apply Rc, Hc].
  - apply wf_Marker in We as [-> [Li Wi]]. cbn [expr_size] in Hn. cbn [strip].
    destruct i as [w j|w cs|m w|w cs|w j];
      cbn [_expr_map F wrap_visitor demark_f bind concat_mapM fst snd].
    2:{ pose proof (IH Wi (Marker (value (List w cs)) (List w cs) :: anc) (S k)) as E.
        rewrite concat_mapM_map. cbn [fst snd].
        cbn [_expr_map] in E. rewrite demark_F_nonMarker in E by reflexivity.
        cbn [bind] in E. apply E. lia. }
    all: match goal with
         | |- context [_expr_map _ ?n _ (?a :: ?b) _] =>
             rewrite (IH Wi (a :: b) n) by (cbn [expr_size] in Hn |- *; lia)
         end;
      cbn [bind]; rewrite app_nil_r; reflexivity.
Qed.
End DemarkStrip.

Lemma strip_range : forall e, wf e = true -> range_inv e (strip e).
Proof.
  intros e W.
  exact (proj1 (demark_range ""%string _ _ _ _ W (demark_engine_strip ""%string e W [] _ (le_n _)))).
Qed.

Lemma demark_strip : forall fid t, wf t = true -> demark fid t = Ok (List_maybe_pure (strip t)).
Proof.
  intros fid t W. unfold demark, expr_map.
  rewrite (demark_engine_strip fid t W [] (fuel_for t)) by (unfold fuel_for; lia).
  cbn [bind]. apply List_maybe_ok; [apply strip_not_List|].
  exact (proj2 (strip_range t W)).
Qed.

(** Demarking after marking gives the same result as demarking the original tree. *)
Theorem demark_after_mark : forall fid t p, wf t = true ->
  (forall anc e, len e = 0%nat -> p anc e = false) ->
  exists m, mark fid t p = Ok m /\ demark fid m = demark fid t.
Proof.
  intros fid t p Wt Hp. unfold mark, expr_map.
  rewrite (mark_engine fid p Hp t [] (fuel_for t) Wt) by (unfold fuel_for; lia).
  pose proof (proj2 (mark_visit_range p Hp [] t Wt)) as Rr.
  cbn [bind]. rewrite List_maybe_ok by first [apply mark_visit_inv|exact Rr].
  eexists. split; [reflexivity|].
  rewrite (demark_strip fid t Wt), demark_strip.
  - rewrite strip_List_maybe_pure, strip_mark_visit. reflexivity.
  - apply wf_List_maybe_pure; [apply mark_visit_inv|apply wf_mark_visit; assumption|exact Rr].
Qed.

Lemma demark_after_mark_witness :
  exists m, mark "0" (List_pure [Axis "a" 2; mkComposition (List_pure [Axis "a" 3; Axis "b" 4])]) select_a
              = Ok m /\
    demark "0" m = demark "0" (List_pure [Axis "a" 2; mkComposition (List_pure [Axis "a" 3; Axis "b" 4])]).
Proof.
  apply demark_after_mark.
  - vm_compute. reflexivity.
  - intros anc [] H; try reflexivity; discriminate.
Defined.

Lemma expand_maybe_nslo : forall e, wf e = true -> no_single_list_outside e = true ->
  List_maybe (expand e) = Ok e.
Proof.
  intros [v i|v cs|n v|v cs|v i] W N; try reflexivity.
  pose proof (wf_List_fits _ _ W) as Fc.
  apply wf_List in W as [-> [NL _]]. cbn [no_single_list_outside] in N.
  apply andb_true_iff in N as [N _].
  cbn [expand List_maybe]. destruct cs as [|c [|d cs]]; try discriminate;
    (apply mkList_ok; [exact NL|exact Fc]).
Qed.

Section DecomposeIdentity.
Variable fid : string.
Let F := wrap_visitor decompose_f.

Lemma decompose_identity_engine : forall e, wf e = true ->
  compositions_in_concatenations e = true -> no_single_list_outside e = true ->
  forall anc n, (expr_size e <= n)%nat -> _expr_map fid n F anc e = Ok (expand e).
Proof.
  induction e as [v i IH|v cs IH|m v|v cs IH|v i IH] using expr_ind';
    intros W C N anc k Hn; (destruct k as [|k]; [simpl in Hn; lia|]).
  - discriminate.
  - apply wf_List in W as [-> [NL Wc]]. cbn [compositions_in_concatenations] in C.
    cbn [no_single_list_outside] in N. apply andb_true_iff in N as [_ N].
    rewrite forallb_forall in C, N.
    change (expr_size (List _ cs)) with (S (sum_size cs)) in Hn.
    cbn [_expr_map]. rewrite decompose_F_cont by reflexivity. cbn [bind].
    rewrite (concat_mapM_ok _ expand).
    + cbn [expand]. rewrite flat_map_expand by exact NL. reflexivity.
    + intros c Hc. rewrite Forall_forall in IH, Wc. pose proof (size_In c cs Hc).
      apply IH; [exact Hc|exact (Wc c Hc)|exact (C c Hc)|exact (N c Hc)|lia].
  - cbn [_expr_map]. rewrite decompose_F_cont by reflexivity. reflexivity.
  - cbn [_expr_map F wrap_visitor decompose_f bind]. rewrite deepcopy_wf by exact W. reflexivity.
  - apply wf_Marker in W as [-> [Li Wi]]. cbn [expr_size] in Hn.
    cbn [compositions_in_concatenations] in C. cbn [no_single_list_outside] in N.
    cbn [_expr_map]. rewrite decompose_F_cont by reflexivity. cbn [bind].
    rewrite (IH Wi C N) by lia. cbn [bind].
    assert (NE : expand i <> []).
    { destruct i as [|w [|c cs]| | |]; discriminate || (cbn in Li; congruence). }
    destruct (expand i) as [|y ys] eqn:Ei; [contradiction|]. rewrite <- Ei.
    rewrite expand_maybe_nslo by assumption. cbn [bind]. rewrite mkMarker_ok by exact Li.
    reflexivity.
Qed.
End DecomposeIdentity.

(** [decompose] is idempotent on well-formed trees. *)
Theorem decompose_idempotent : forall fid t, wf t = true ->
  exists d, decompose fid t = Ok d /\ decompose fid d = Ok d.
Proof.
  intros fid t W. unfold decompose, expr_map.
  destruct (decompose_engine fid t W [] (fuel_for t)) as [rs [E [P _]]];
    [unfold fuel_for; lia|].
  pose proof (decompose_range fid _ _ _ _ W E) as [_ Rr].
  rewrite E. cbn [bind].
  rewrite List_maybe_ok
    by first [exact Rr|eapply Forall_impl; [|exact P]; intros r [? _]; assumption].
  eexists. split; [reflexivity|].
  assert (Wd : wf (List_maybe_pure rs) = true)
    by (apply wf_List_maybe_pure; [| |exact Rr];
        (eapply Forall_impl; [|exact P]); intros r; cbv beta; tauto).
  assert (Nd : no_single_list_outside (List_maybe_pure rs) = true)
    by (apply nslo_List_maybe_pure; (eapply Forall_impl; [|exact P]); intros r; cbv beta; tauto).
  rewrite (decompose_identity_engine fid _ Wd).
  - cbn [bind]. apply expand_maybe_nslo; assumption.
  - apply cic_List_maybe_pure. eapply Forall_impl; [|exact P]. intros r; cbv beta; tauto.
  - exact Nd.
  - unfold fuel_for. lia.
Qed.

Lemma decompose_idempotent_witness :
  exists d, decompose "0" (List_pure [mkComposition (List_pure [Axis "a" 2; Axis "b" 3]);
                         Marker_pure (mkComposition (Axis "c" 4))]) = Ok d /\
    decompose "0" d = Ok d.
Proof. apply decompose_idempotent. vm_compute. reflexivity. Defined.

(** *** Unmarked part *)

(** [get_unmarked] removes every node outside a Marker; the root itself is
    outside a Marker unless it is one, so any other tree loses everything
    and gives the empty List. *)
Theorem get_unmarked_non_marker_root : forall fid t,
  is_Marker t = false -> get_unmarked fid t = Ok (List_pure []).
Proof.
  intros fid t M. unfold get_unmarked, remove, expr_map, fuel_for.
  replace (3 * expr_size t + 3)%nat with (S (3 * expr_size t + 2)) by lia.
  cbn [_expr_map]. unfold wrap_visitor, remove_f, is_marked, any_parent_is.
  rewrite M. reflexivity.
Qed.

Lemma get_unmarked_non_marker_root_witness :
  is_Marker (List_pure [Marker_pure (Axis "a" 2); Axis "b" 3]) = false /\
  get_unmarked "0" (List_pure [Marker_pure (Axis "a" 2); Axis "b" 3]) = Ok (List_pure []).
Proof.
  split; [reflexivity|]. apply get_unmarked_non_marker_root. reflexivity.
Defined.

(** Below a Marker root every node is marked, so [get_unmarked] removes
    nothing and rebuilds the tree unchanged, when no List has a single child. *)
Theorem get_unmarked_marker_root : forall fid t,
  wf t = true -> no_single_list t = true -> is_Marker t = true -> get_unmarked fid t = Ok t.
Proof.
  intros fid t W N M. unfold get_unmarked, remove, expr_map.
  rewrite (identity_engine fid _ (fun anc e => is_marked anc e = true)).
  - cbn [bind]. apply expand_maybe; assumption.
  - intros anc e H. unfold wrap_visitor, remove_f. rewrite H. reflexivity.
  - intros anc e c. unfold is_marked, any_parent_is. cbn [existsb].
    intro H. rewrite H. apply orb_true_r.
  - exact W.
  - exact N.
  - unfold is_marked, any_parent_is. rewrite M. reflexivity.
  - unfold fuel_for. lia.
Qed.

Lemma get_unmarked_marker_root_witness :
  wf (Marker_pure (List_pure [Axis "a" 2; Axis "b" 3])) = true /\
  no_single_list (Marker_pure (List_pure [Axis "a" 2; Axis "b" 3])) = true /\
  get_unmarked "0" (Marker_pure (List_pure [Axis "a" 2; Axis "b" 3]))
    = Ok (Marker_pure (List_pure [Axis "a" 2; Axis "b" 3])).
Proof.
  split; [vm_compute; reflexivity|]. split; [vm_compute; reflexivity|].
  apply get_unmarked_marker_root; vm_compute; reflexivity.
Defined.
